(** * StarkSquad (MARPLE): wallet risk scoring, clustering and threat merging

    A shallow embedding of [app/risk-factors.ts], of the threat-intelligence
    classes of [app/threat-intelligence-config.ts], of the free-source
    analyzer and of the graph built in [app/page.tsx], with the properties the
    design document states about them and further properties of the code.

    Conventions of the embedding.
    - An ECMAScript [number] that the code receives (amounts, timestamps, gas,
      confidences, scores) is an IEEE-754 binary64 value: Rocq's primitive
      [float].  Comparisons, [||] on numbers and [Math.min] follow ECMA-262,
      NaN included.
    - The contributions of the risk evaluators are the integer literals of the
      source (0, 10, 15, ...); they and their sums (at most 300) are exact in
      binary64, and are kept in [Z].
    - [Date.now()] is an effect: a computation reads a clock, one reading per
      call.
    - An object created by [{}] and used as a dictionary
      ([Record<string, T>]) is a finite map on the string keys it owns, or,
      where the order of its keys is read, the list of its entries in the
      order the keys were created.  Reading a key it does not own finds what
      it inherits from [Object.prototype]: the twelve properties of
      [JS.objectPrototype] read as truthy values (eleven functions, and the
      prototype itself for "__proto__"), and assigning to "__proto__" sets the
      prototype instead of creating a key.  Every call starts from the
      [Object.prototype] of ECMA-262: properties that a program may have
      added to it are not considered.
    - A [Set<string>] is the list of its members in insertion order; a [Map]
      is a finite map on its keys.
    - What is left to the implementation (the order [sort] gives when the
      comparator returns NaN, the names of the methods of [Set.prototype]) is
      a parameter: an [Engine].
    - A string is the sequence of its characters.  What depends on
      characters outside ASCII (the case mapping of [toLowerCase]) is stated
      for ASCII strings.
    - A thrown [TypeError] is an explicit outcome. *)

From Stdlib Require Import ZArith Floats Ascii.
From stdpp Require Import gmap strings list fin_maps.

Set Default Proof Using "Type".
Set Warnings "-inexact-float,-clear-no-such-hyp".

(** ** The implementation of ECMAScript *)

(** What the language leaves to the engine that runs the code.
    - [setPrototype]: the string-named properties of [Set.prototype]
      ("add", "has", "size", ...; their number grows with the editions of the
      language).
    - [sortInconsistent]: the array [Array.prototype.sort] leaves when the
      comparator [(a, b) => a - b] returns NaN on some of the numbers sorted;
      the order is the engine's. *)
Class Engine : Type := {
  setPrototype : list string;
  sortInconsistent : list float → list float
}.

(** ** ECMAScript numbers *)

Module JS.

(** [x > y], [x >= y] and [x < y] on numbers: false as soon as one side is NaN. *)
Definition gt (x y : float) : bool := (y <? x)%float.
Definition ge (x y : float) : bool := (y <=? x)%float.
Definition lt (x y : float) : bool := (x <? y)%float.
Definition le (x y : float) : bool := (x <=? y)%float.

(** [ToBoolean] on a number: [+0], [-0] and NaN are falsy. *)
Definition truthy (x : float) : bool := negb (is_zero x || is_nan x).

(** [x || d] for an optional number field [x]. *)
Definition orElse (x : option float) (d : float) : float :=
  match x with
  | Some v => if truthy v then v else d
  | None => d
  end.

(** [ToBoolean] on a string: only the empty string is falsy. *)
Definition truthyStr (s : string) : bool :=
  match s with
  | EmptyString => false
  | _ => true
  end.

(** [s || d] for an optional string field. *)
Definition orElseStr (s : option string) (d : string) : string :=
  match s with
  | Some v => if truthyStr v then v else d
  | None => d
  end.

(** [s.toLowerCase()] on a string of ASCII characters: the letters A to Z are
    lowered.  (A cased character outside ASCII is lowered by the language and
    not here: what depends on it is stated for ASCII strings.) *)
Definition asciiLower (c : ascii) : ascii :=
  let n := nat_of_ascii c in
  if bool_decide (65 ≤ n ≤ 90) then ascii_of_nat (n + 32) else c.

Fixpoint toLowerCase (s : string) : string :=
  match s with
  | EmptyString => EmptyString
  | String c rest => String (asciiLower c) (toLowerCase rest)
  end.

(** Every character of [s] is an ASCII character. *)
Fixpoint isAscii (s : string) : bool :=
  match s with
  | EmptyString => true
  | String c rest => bool_decide (nat_of_ascii c < 128) && isAscii rest
  end.

(** [ToNumber] on an optional number: [undefined] is NaN. *)
Definition toNumber (x : option float) : float := default nan x.

(** [arr.includes(s)] on an array of strings. *)
Definition includes (arr : list string) (s : string) : bool :=
  existsb (String.eqb s) arr.

(** The length of an array, as a number. *)
Definition ofNat (n : nat) : float := of_uint63 (Uint63.of_Z (Z.of_nat n)).

(** [ToIntegerOrInfinity] on a finite number: truncation toward zero. *)
Definition truncate (x : float) : Z :=
  match Prim2SF x with
  | S754_finite s m e =>
      let z := Z.shiftl (Z.pos m) e in if s then (- z)%Z else z
  | _ => 0%Z
  end.

(** The time value of [new Date(t)]: [TimeClip] rejects a number that is not
    finite or beyond 8.64e15 ms, and truncates the others. *)
Definition timeValue (t : float) : option Z :=
  if is_nan t || is_infinity t then None
  else if (8640000000000000 <? abs t)%float then None
  else Some (truncate t).

(** [new Date(t).getUTCHours()]: [None] is NaN (an invalid date). *)
Definition getUTCHours (t : float) : option Z :=
  (λ tv, (tv / 3600000) `mod` 24)%Z <$> timeValue t.

(** [Math.abs]. *)
Definition mathAbs (x : float) : float := abs x.

(** [Math.min] on two numbers: NaN if either is, and [-0] below [+0]. *)
Definition mathMin (x y : float) : float :=
  if is_nan x then x
  else if is_nan y then y
  else if (x <? y)%float then x
  else if (y <? x)%float then y
  else match classify x with
       | NZero => x
       | _ => y
       end.

(** [arr.sort((a, b) => a - b)] on numbers.  On finite numbers the
    comparator is a consistent comparison function, and the sort is the stable
    one: [b] moves before [a] exactly when the comparator is positive on
    [(a, b)].  With a NaN or an infinity among the numbers some difference is
    NaN (of an infinity with itself, too); the editions of ECMA-262 differ on
    what they require then, and the order is left to the engine. *)
Fixpoint insertSorted (x : float) (l : list float) : list float :=
  match l with
  | [] => [x]
  | y :: l' => if (0 <? x - y)%float then y :: insertSorted x l' else x :: l
  end.

Definition inconsistent (l : list float) : bool :=
  existsb (λ x, is_nan x || is_infinity x) l.

Definition sortNumbers {engine : Engine} (l : list float) : list float :=
  if inconsistent l then sortInconsistent l else foldr insertSorted [] l.

(** A [Set<string>]: its members in insertion order.  [set.add(x)] leaves a
    set that already has [x] as it is. *)
Definition setAdd (s : list string) (x : string) : list string :=
  if decide (x ∈ s) then s else s ++ [x].

(** [new Set(arr)], and so the array [[...new Set(arr)]]. *)
Definition setOf (arr : list string) : list string := foldl setAdd [] arr.

(** *** Objects and what they inherit *)

(** The string-named properties of [Object.prototype].  An object created by
    [{}] that does not own one of these keys reads it from there: a function
    for the first eleven, the prototype itself for "__proto__"; all are
    truthy, none has a method [push] or [add], none is iterable. *)
Definition objectPrototype : list string :=
  [ "constructor"; "__defineGetter__"; "__defineSetter__"; "hasOwnProperty";
    "__lookupGetter__"; "__lookupSetter__"; "isPrototypeOf";
    "propertyIsEnumerable"; "toString"; "valueOf"; "toLocaleString";
    "__proto__" ].

Definition inherited (key : string) : bool := bool_decide (key ∈ objectPrototype).

(** What [o[key]] reads in an object [o] whose own keys hold values of [V]. *)
Inductive Read (V : Type) : Type :=
  | ownValue (v : V)
  | inheritedValue
  | undefined.
Arguments ownValue {V} v.
Arguments inheritedValue {V}.
Arguments undefined {V}.

Definition read {V} (own : gmap string V) (key : string) : Read V :=
  match own !! key with
  | Some v => ownValue v
  | None => if inherited key then inheritedValue else undefined
  end.

(** How a call ends: it returns a value, or it throws. *)
Inductive Completion (A : Type) : Type :=
  | returned (a : A)
  | raised.
Arguments returned {A} a.
Arguments raised {A}.

End JS.

(** An engine to run the examples on: the methods of [Set.prototype] in
    ECMAScript 2025, and a sort that treats every tie alike. *)
Definition referenceEngine : Engine :=
  {| setPrototype :=
       [ "constructor"; "has"; "add"; "delete"; "clear"; "entries"; "forEach";
         "size"; "values"; "keys"; "union"; "intersection"; "difference";
         "symmetricDifference"; "isSubsetOf"; "isSupersetOf"; "isDisjointFrom" ];
     sortInconsistent := foldr JS.insertSorted [] |}.

(** ** Reading the clock *)

Module Clock.

(** A computation that may call [Date.now()]: it is given the clock (the value
    of the k-th reading) and the number of readings made so far, and returns
    its result with the new count. *)
Definition Eff (A : Type) : Type := (nat → float) → nat → A * nat.

Definition ret {A} (a : A) : Eff A := λ _ k, (a, k).

Definition bind {A B} (m : Eff A) (f : A → Eff B) : Eff B :=
  λ clock k, let '(a, k') := m clock k in f a clock k'.

(** [Date.now()]. *)
Definition now : Eff float := λ clock k, (clock k, S k).

Definition run {A} (m : Eff A) (clock : nat → float) (k : nat) : A :=
  (m clock k).1.

(** A clock held fixed: every reading returns [t]. *)
Definition fixedAt (clock : nat → float) (t : float) : Prop :=
  ∀ k, clock k = t.

End Clock.

#[global] Instance eff_ret : MRet Clock.Eff := @Clock.ret.
#[global] Instance eff_bind : MBind Clock.Eff := λ A B f m, Clock.bind m f.

(** ** Facts about the ECMAScript layer *)

Module JSFacts.

Lemma existsb_none {A} (f : A → bool) (l : list A) :
  (∀ x, x ∈ l → f x = false) → existsb f l = false.
Proof.
  induction l as [|x l IH]; intros H; cbn; [reflexivity|].
  rewrite (H x) by left. apply IH. intros y Hy. apply H. by right.
Qed.

(** *** Facts about binary64 *)

Lemma SFeqb_irrefl_nan x : SFeqb x x = false → x = S754_nan.
Proof.
  unfold SFeqb. destruct x as [s|s| |s m e]; cbn; try destruct s; try discriminate; auto.
  all: rewrite Z.compare_refl, Pos.compare_cont_refl; cbn; discriminate.
Qed.

(** A falsy number ([+0], [-0], NaN) is not above 0. *)
Lemma falsy_not_positive (c : float) : JS.truthy c = false → JS.gt c 0 = false.
Proof.
  unfold JS.truthy, JS.gt, is_zero, is_nan. intros H.
  apply negb_false_iff, orb_true_iff in H.
  rewrite FloatAxioms.ltb_spec. change (Prim2SF 0) with (S754_zero false).
  destruct H as [H|H].
  - rewrite FloatAxioms.eqb_spec in H.
    change (Prim2SF PrimFloat.zero) with (S754_zero false) in H.
    unfold SFeqb, SFltb in *. destruct (Prim2SF c) as [s|s| |s m e]; cbn in *;
      try destruct s; try discriminate; reflexivity.
  - apply negb_true_iff in H. rewrite FloatAxioms.eqb_spec in H.
    apply SFeqb_irrefl_nan in H. rewrite H. reflexivity.
Qed.

Lemma orElse_positive (c : option float) :
  JS.gt (JS.orElse c 0) 0
  = match c with Some c => JS.gt c 0 | None => false end.
Proof.
  destruct c as [c|]; [|reflexivity]. unfold JS.orElse.
  destruct (JS.truthy c) eqn:Ht; [reflexivity|].
  rewrite (falsy_not_positive c Ht). reflexivity.
Qed.

(** *** Facts about [Set] *)

Lemma setAdd_elem s x y : y ∈ JS.setAdd s x ↔ y ∈ s ∨ y = x.
Proof.
  unfold JS.setAdd. case_decide as Hx.
  - split; [auto|]. intros [?| ->]; assumption.
  - rewrite elem_of_app, list_elem_of_singleton. reflexivity.
Qed.

Lemma setAdd_NoDup s x : NoDup s → NoDup (JS.setAdd s x).
Proof.
  intros Hs. unfold JS.setAdd. case_decide as Hx; [assumption|].
  apply NoDup_app. split_and!; [assumption| |apply NoDup_singleton].
  intros y Hy Hy'. apply list_elem_of_singleton in Hy'. subst y. contradiction.
Qed.

Lemma foldl_setAdd_elem l acc y : y ∈ foldl JS.setAdd acc l ↔ y ∈ acc ∨ y ∈ l.
Proof.
  revert acc. induction l as [|x l IH]; intros acc; cbn.
  - rewrite elem_of_nil. tauto.
  - rewrite IH, setAdd_elem, elem_of_cons. tauto.
Qed.

Lemma foldl_setAdd_NoDup l acc : NoDup acc → NoDup (foldl JS.setAdd acc l).
Proof.
  revert acc. induction l as [|x l IH]; intros acc Hacc; cbn; [assumption|].
  apply IH, setAdd_NoDup, Hacc.
Qed.

Lemma setOf_elem l y : y ∈ JS.setOf l ↔ y ∈ l.
Proof. unfold JS.setOf. rewrite foldl_setAdd_elem, elem_of_nil. tauto. Qed.

Lemma setOf_NoDup l : NoDup (JS.setOf l).
Proof. apply foldl_setAdd_NoDup, NoDup_nil_2. Qed.

End JSFacts.

(** ** Facts about binary64 comparisons and NaN *)

Module FloatFacts.

Lemma is_nan_spec (x : float) : is_nan x = true ↔ Prim2SF x = S754_nan.
Proof.
  unfold is_nan. rewrite negb_true_iff, FloatAxioms.eqb_spec. split.
  - apply JSFacts.SFeqb_irrefl_nan.
  - intros ->. reflexivity.
Qed.

Lemma SFcompare_antisym (x y : spec_float) :
  SFcompare y x = CompOpp <$> SFcompare x y.
Proof.
  destruct x as [sx|sx| |sx mx ex], y as [sy|sy| |sy my ey]; cbn;
    try destruct sx; try destruct sy; cbn; try reflexivity.
  all: rewrite (Z.compare_antisym ex ey); destruct (ex ?= ey)%Z; cbn;
    try reflexivity.
  all: pose proof (Pos.compare_cont_antisym mx my Eq) as Hm; cbn in Hm;
    rewrite <- Hm; destruct (Pos.compare_cont Eq mx my); reflexivity.
Qed.

(** [<] is asymmetric. *)
Lemma ltb_asym (x y : float) : (x <? y)%float = true → (y <? x)%float = false.
Proof.
  rewrite !FloatAxioms.ltb_spec. unfold SFltb.
  rewrite (SFcompare_antisym (Prim2SF x) (Prim2SF y)).
  destruct (SFcompare (Prim2SF x) (Prim2SF y)) as [[]|]; cbn; congruence.
Qed.

(** Every comparison with NaN is false. *)
Lemma ltb_nan_l (x y : float) : is_nan x = true → (x <? y)%float = false.
Proof.
  intros Hx%is_nan_spec. rewrite FloatAxioms.ltb_spec, Hx. reflexivity.
Qed.

Lemma ltb_nan_r (x y : float) : is_nan y = true → (x <? y)%float = false.
Proof.
  intros Hy%is_nan_spec. rewrite FloatAxioms.ltb_spec, Hy. unfold SFltb.
  destruct (Prim2SF x); reflexivity.
Qed.

Lemma leb_nan_r (x y : float) : is_nan y = true → (x <=? y)%float = false.
Proof.
  intros Hy%is_nan_spec. rewrite FloatAxioms.leb_spec, Hy. unfold SFleb.
  destruct (Prim2SF x); reflexivity.
Qed.

(** NaN is absorbing for the subtraction and the division. *)
Lemma sub_nan_r (x y : float) : is_nan y = true → is_nan (x - y) = true.
Proof.
  intros Hy%is_nan_spec. apply is_nan_spec.
  rewrite FloatAxioms.sub_spec, Hy. unfold SF64sub, SFsub.
  destruct (Prim2SF x); reflexivity.
Qed.

Lemma div_nan_l (x y : float) : is_nan x = true → is_nan (x / y) = true.
Proof.
  intros Hx%is_nan_spec. apply is_nan_spec.
  rewrite FloatAxioms.div_spec, Hx. reflexivity.
Qed.

End FloatFacts.

(** ** The wallet model ([app/page.tsx]) *)

Inductive TxType : Set := incoming | outgoing.

#[global] Instance TxType_eq_dec : EqDecision TxType.
Proof. solve_decision. Defined.

(** The string a [TxType] is at run time. *)
Definition typeName (t : TxType) : string :=
  match t with
  | incoming => "incoming"
  | outgoing => "outgoing"
  end.

Record Transaction : Type := {
  hash : string;
  type : TxType;
  token : string;
  amount : float;
  counterparty : string;
  timestamp : float;
  gasUsed : float;
  contractAddress : option string;
  from : option string;
  to : option string
}.

Record TokenBalance : Type := {
  symbol : string;
  balance : string;
  value : string;
  tokenContractAddress : option string;
  decimals : option float
}.

Record Metrics : Type := {
  totalTransactions : float;
  totalGasSpent : string;
  uniqueCounterparties : float;
  activeDays : float;
  contractsInteracted : float
}.

Inductive RiskLevel : Set := low | medium | high.

Record WalletData : Type := {
  address : string;
  transactions : list Transaction;
  tokenBalances : list TokenBalance;
  metrics : Metrics;
  riskScore : float;
  riskLevel : RiskLevel;
  contractsInteractedList : list string;
  riskBreakdown : option (list (string * string))
}.

(** ** The risk factors ([app/risk-factors.ts]) *)

Module RiskFactors.

(** The four lists are stubs in the source: all empty. *)
Definition MIXER_ADDRESSES : list string := [].
Definition SCAM_CONTRACTS : list string := [].
Definition BLACKLISTED_ADDRESSES : list string := [].
Definition SCAM_TOKENS : list string := [].

Definition checkHighFrequency (transactions : list Transaction) : Clock.Eff Z :=
  now ← Clock.now;
  let oneHourAgo := (now - 60 * 60 * 1000)%float in
  let recentTxs := filter (λ tx, Is_true (JS.gt (timestamp tx) oneHourAgo)) transactions in
  mret (if decide (10 < length recentTxs)%nat then 20%Z else 0%Z).

Definition checkMixerUsage (transactions : list Transaction) : Z :=
  if existsb (λ tx, JS.includes MIXER_ADDRESSES (JS.orElseStr (contractAddress tx) "")) transactions
  then 30 else 0.

Definition checkScamContractInteraction (transactions : list Transaction) : Z :=
  if existsb (λ tx, JS.includes SCAM_CONTRACTS (JS.orElseStr (contractAddress tx) "")) transactions
  then 30 else 0.

Definition checkAbnormalGas (transactions : list Transaction) : Z :=
  if existsb (λ tx, JS.gt (gasUsed tx) 1000000) transactions then 10 else 0.

Definition checkReceivedFromBlacklist (transactions : list Transaction) : Z :=
  if existsb (λ tx, bool_decide (type tx = incoming)
                    && JS.includes BLACKLISTED_ADDRESSES (counterparty tx)) transactions
  then 40 else 0.

Definition checkSentToBlacklist (transactions : list Transaction) : Z :=
  if existsb (λ tx, bool_decide (type tx = outgoing)
                    && JS.includes BLACKLISTED_ADDRESSES (counterparty tx)) transactions
  then 40 else 0.

Definition checkFaucetOnly (transactions : list Transaction) : Z := 0.

Definition checkScamTokens (tokenBalances : list TokenBalance) : Z :=
  if existsb (λ token, JS.includes SCAM_TOKENS (symbol token)) tokenBalances
  then 20 else 0.

Definition checkLargeInflowOutflow (transactions : list Transaction) : Z :=
  if existsb (λ tx, JS.gt (amount tx) 10000) transactions then 15 else 0.

(** [transactions.reduce((min, tx) => tx.timestamp < min ? tx.timestamp : min, init)]. *)
Definition earliest (init : float) (transactions : list Transaction) : float :=
  foldl (λ min tx, if JS.lt (timestamp tx) min then timestamp tx else min)
        init transactions.

Definition checkWalletAge (metrics : Metrics) (transactions : list Transaction) : Clock.Eff Z :=
  match transactions with
  | [] => mret 0%Z
  | tx0 :: _ =>
      let firstTx := earliest (timestamp tx0) transactions in
      now ← Clock.now;
      let ageDays := ((now - firstTx) / (1000 * 60 * 60 * 24))%float in
      mret (if JS.lt ageDays 7 then 20 else 0)%Z
  end.

Definition checkTotalTransactions (metrics : Metrics) : Z :=
  if JS.gt (totalTransactions metrics) 200 then 10 else 0.

Definition checkSocialLinks : Z := 0.

Definition checkOGNFTs : Z := 0.

(** *** Pattern analysis: wash trading *)

(** [[tx.counterparty, tx.type].join(":")]. *)
Definition pairKey (tx : Transaction) : string :=
  counterparty tx +:+ ":" +:+ typeName (type tx).

(** The first loop of [checkWashTrading]: the table [pairCounts]. *)
Definition countPairs (transactions : list Transaction) : gmap string nat :=
  foldl (λ pairCounts tx,
           if JS.truthyStr (counterparty tx)
           then <[pairKey tx := default 0 (pairCounts !! pairKey tx) + 1]> pairCounts
           else pairCounts)
        ∅ transactions.

(** [key.split(":")[0]]: what precedes the first colon. *)
Fixpoint beforeColon (key : string) : string :=
  match key with
  | EmptyString => EmptyString
  | String c rest => if Ascii.eqb c ":"%char then EmptyString else String c (beforeColon rest)
  end.

Definition checkWashTrading (transactions : list Transaction) : Z :=
  let pairCounts := countPairs transactions in
  let suspicious :=
    existsb (λ key,
               let counterparty := beforeColon key in
               let inKey := counterparty +:+ ":incoming" in
               let outKey := counterparty +:+ ":outgoing" in
               bool_decide (3 < default 0 (pairCounts !! inKey))
               && bool_decide (3 < default 0 (pairCounts !! outKey)))
            (map_to_list pairCounts).*1 in
  if suspicious then 25 else 0.

(** *** Pattern analysis: circular transactions *)

(** One turn of the first loop of [checkCircularTransactions], on the table
    [txByCounterparty], an object created by [{}].  For a counterparty that
    names a property of [Object.prototype] the table reads an inherited value:
    it is truthy, so no array is stored, and it has no method [push], so the
    call [txByCounterparty[tx.counterparty].push(tx)] throws a [TypeError]. *)
Definition groupStep (txByCounterparty : gmap string (list Transaction))
    (tx : Transaction) : JS.Completion (gmap string (list Transaction)) :=
  if negb (JS.truthyStr (counterparty tx)) then JS.returned txByCounterparty
  else
    match JS.read txByCounterparty (counterparty tx) with
    | JS.ownValue txs =>
        JS.returned (<[counterparty tx := txs ++ [tx]]> txByCounterparty)
    | JS.inheritedValue => JS.raised
    | JS.undefined => JS.returned (<[counterparty tx := [tx]]> txByCounterparty)
    end.

(** The first loop: [forEach] stops at the first turn that throws. *)
Definition groupByCounterparty (transactions : list Transaction)
  : JS.Completion (gmap string (list Transaction)) :=
  foldl (λ table tx,
           match table with
           | JS.returned txByCounterparty => groupStep txByCounterparty tx
           | JS.raised => JS.raised
           end)
        (JS.returned ∅) transactions.

Definition circularPair (inc out : Transaction) : bool :=
  JS.lt (JS.mathAbs (timestamp inc - timestamp out)) (1000 * 60 * 60 * 24)
  && JS.lt (JS.mathAbs (amount inc - amount out)) 0.0001.

(** The second loop: [found], over the values of the table. *)
Definition circularFound (txByCounterparty : gmap string (list Transaction)) : bool :=
  existsb (λ txs : list Transaction,
             let ins := filter (λ t, type t = incoming) txs in
             let outs := filter (λ t, type t = outgoing) txs in
             existsb (λ inc, existsb (λ out, circularPair inc out) outs) ins)
          (map_to_list txByCounterparty).*2.

Definition checkCircularTransactions (transactions : list Transaction)
  : JS.Completion Z :=
  match groupByCounterparty transactions with
  | JS.returned txByCounterparty =>
      JS.returned (if circularFound txByCounterparty then 25 else 0)%Z
  | JS.raised => JS.raised
  end.

(** *** Pattern analysis: anomalies *)

(** [hour >= 2 && hour <= 5], where [hour] may be NaN. *)
Definition oddHour (tx : Transaction) : bool :=
  match JS.getUTCHours (timestamp tx) with
  | Some hour => bool_decide (2 ≤ hour)%Z && bool_decide (hour ≤ 5)%Z
  | None => false
  end.

Definition checkAnomalies {engine : Engine} (transactions : list Transaction) : Z :=
  if decide (length transactions < 5) then 0
  else
    let amounts := JS.sortNumbers (amount <$> transactions) in
    (* an index out of range would read [undefined], NaN once multiplied *)
    let median := default nan (amounts !! (length amounts / 2)) in
    let largeTx := existsb (λ tx, JS.gt (amount tx) (median * 10)) transactions in
    let oddHourTxs := filter (λ tx, Is_true (oddHour tx)) transactions in
    if largeTx || bool_decide (3 < length oddHourTxs) then 15 else 0.

(** *** The aggregate *)

Record Aggregate : Type := {
  score : Z;
  breakdown : list (string * Z)
}.

(** [Object.values(breakdown).reduce((a, b) => a + b, 0)]. *)
Definition sumValues (breakdown : list (string * Z)) : Z :=
  foldl Z.add 0%Z breakdown.*2.

(** The object literal evaluates its sixteen properties in order: the two
    readings of the clock come before the call of [checkCircularTransactions],
    and nothing catches what that call throws. *)
Definition aggregateRiskFactors {engine : Engine} (walletData : WalletData)
  : Clock.Eff (JS.Completion Aggregate) :=
  let transactions := transactions walletData in
  let tokenBalances := tokenBalances walletData in
  let metrics := metrics walletData in
  highFrequency ← checkHighFrequency transactions;
  walletAge ← checkWalletAge metrics transactions;
  mret
    match checkCircularTransactions transactions with
    | JS.raised => JS.raised
    | JS.returned circularTransactions =>
        let breakdown :=
          [ ("highFrequency", highFrequency);
            ("mixerUsage", checkMixerUsage transactions);
            ("scamContract", checkScamContractInteraction transactions);
            ("abnormalGas", checkAbnormalGas transactions);
            ("receivedFromBlacklist", checkReceivedFromBlacklist transactions);
            ("sentToBlacklist", checkSentToBlacklist transactions);
            ("faucetOnly", checkFaucetOnly transactions);
            ("scamTokens", checkScamTokens tokenBalances);
            ("largeInflowOutflow", checkLargeInflowOutflow transactions);
            ("walletAge", walletAge);
            ("totalTransactions", checkTotalTransactions metrics);
            ("socialLinks", checkSocialLinks);
            ("ogNFTs", checkOGNFTs);
            ("washTrading", checkWashTrading transactions);
            ("circularTransactions", circularTransactions);
            ("anomalies", checkAnomalies transactions) ] in
        JS.returned {| score := sumValues breakdown; breakdown := breakdown |}
    end.

(** The level [handleAnalyze] derives from the score ([app/page.tsx]). *)
Definition levelOfScore (score : Z) : RiskLevel :=
  if decide (60 ≤ score)%Z then high
  else if decide (30 ≤ score)%Z then medium
  else low.

End RiskFactors.

(** ** Properties of the risk factors *)

Module RiskFactorsSpec.
Import JSFacts RiskFactors.

(** The evaluators registered in the breakdown, with the weight each one
    returns when it fires. *)
Definition registered : list (string * Z) :=
  [ ("highFrequency", 20); ("mixerUsage", 30); ("scamContract", 30);
    ("abnormalGas", 10); ("receivedFromBlacklist", 40); ("sentToBlacklist", 40);
    ("faucetOnly", 0); ("scamTokens", 20); ("largeInflowOutflow", 15);
    ("walletAge", 20); ("totalTransactions", 10); ("socialLinks", 0);
    ("ogNFTs", 0); ("washTrading", 25); ("circularTransactions", 25);
    ("anomalies", 15) ]%Z.

(** The sum of the values of a breakdown, entry by entry. *)
Definition total (bd : list (string * Z)) : Z :=
  foldr (λ e acc, e.2 + acc)%Z 0%Z bd.

(** The breakdown object, given the two contributions that read the clock and
    the one that [checkCircularTransactions] returned. *)
Definition entries {engine : Engine} (highFrequency walletAge circularTransactions : Z)
    (wd : WalletData) : list (string * Z) :=
  [ ("highFrequency", highFrequency);
    ("mixerUsage", checkMixerUsage (transactions wd));
    ("scamContract", checkScamContractInteraction (transactions wd));
    ("abnormalGas", checkAbnormalGas (transactions wd));
    ("receivedFromBlacklist", checkReceivedFromBlacklist (transactions wd));
    ("sentToBlacklist", checkSentToBlacklist (transactions wd));
    ("faucetOnly", checkFaucetOnly (transactions wd));
    ("scamTokens", checkScamTokens (tokenBalances wd));
    ("largeInflowOutflow", checkLargeInflowOutflow (transactions wd));
    ("walletAge", walletAge);
    ("totalTransactions", checkTotalTransactions (metrics wd));
    ("socialLinks", checkSocialLinks);
    ("ogNFTs", checkOGNFTs);
    ("washTrading", checkWashTrading (transactions wd));
    ("circularTransactions", circularTransactions);
    ("anomalies", checkAnomalies (transactions wd)) ].

(** An entry is its evaluator's name with either nothing or the full weight. *)
Definition binaryEntry (e reg : string * Z) : Prop :=
  e.1 = reg.1 ∧ (e.2 = 0%Z ∨ e.2 = reg.2).

(** What the design document expects of a wallet whose only signal is one
    large transfer. *)
Definition onlyLargeInflow (r : Aggregate) : Prop :=
  breakdown r
  = (λ reg, (reg.1, if decide (reg.1 = "largeInflowOutflow") then 15%Z else 0%Z))
      <$> registered
  ∧ score r = 15%Z
  ∧ levelOfScore (score r) = low.

(** Two evaluations of the evaluator set, one after the other:
    [const r1 = aggregateRiskFactors(wd); const r2 = aggregateRiskFactors(wd)].
    There is no second evaluation when the first one throws. *)
Definition evaluateTwice {engine : Engine} (wd : WalletData)
  : Clock.Eff (JS.Completion (Aggregate * Aggregate)) :=
  first ← aggregateRiskFactors wd;
  match first with
  | JS.raised => mret JS.raised
  | JS.returned r1 =>
      second ← aggregateRiskFactors wd;
      mret match second with
           | JS.raised => JS.raised
           | JS.returned r2 => JS.returned (r1, r2)
           end
  end.

(** A wallet whose only transaction is a transfer of 1 received from the
    address [c] long before the clock readings of the examples. *)
Definition namedTx (c : string) : Transaction :=
  {| hash := "0x1"; type := incoming; token := "ETH"; amount := 1;
     counterparty := c; timestamp := 1600000000000; gasUsed := 0;
     contractAddress := None; from := None; to := None |}.

Definition namedWallet (c : string) : WalletData :=
  {| address := "0xabc"; transactions := [namedTx c]; tokenBalances := [];
     metrics := {| totalTransactions := 1; totalGasSpent := "0";
                   uniqueCounterparties := 1; activeDays := 1;
                   contractsInteracted := 1 |};
     riskScore := 0; riskLevel := low; contractsInteractedList := [];
     riskBreakdown := None |}.

Lemma sumValues_total bd : sumValues bd = total bd.
Proof.
  unfold sumValues, total.
  enough (H : ∀ acc, foldl Z.add acc bd.*2 = (acc + foldr (λ e a, e.2 + a) 0 bd)%Z)
    by (rewrite H; lia).
  induction bd as [|e bd IH]; intros acc; cbn; [lia|].
  rewrite IH. lia.
Qed.

Lemma checkHighFrequency_reads txs clock k :
  (checkHighFrequency txs clock k).2 = S k.
Proof. reflexivity. Qed.

Lemma aggregate_run {engine : Engine} wd clock k :
  Clock.run (aggregateRiskFactors wd) clock k
  = match checkCircularTransactions (transactions wd) with
    | JS.raised => JS.raised
    | JS.returned circular =>
        let bd := entries (checkHighFrequency (transactions wd) clock k).1
                          (checkWalletAge (metrics wd) (transactions wd) clock (S k)).1
                          circular wd in
        JS.returned {| score := sumValues bd; breakdown := bd |}
    end.
Proof.
  unfold Clock.run, aggregateRiskFactors, mbind, eff_bind, Clock.bind, mret,
    eff_ret, Clock.ret.
  pose proof (checkHighFrequency_reads (transactions wd) clock k) as Hk.
  destruct (checkHighFrequency _ _ _) as [hf k1]; cbn in Hk; subst k1.
  destruct (checkWalletAge _ _ _ _) as [wa k2]. reflexivity.
Qed.

(** *** Every evaluator is binary *)

Lemma checkHighFrequency_range txs clock k :
  let v := (checkHighFrequency txs clock k).1 in v = 0%Z ∨ v = 20%Z.
Proof.
  unfold checkHighFrequency, mbind, eff_bind, Clock.bind, Clock.now, mret, eff_ret,
    Clock.ret.
  cbn [fst]. case_decide; auto.
Qed.

Lemma checkWalletAge_range m txs clock k :
  let v := (checkWalletAge m txs clock k).1 in v = 0%Z ∨ v = 20%Z.
Proof.
  unfold checkWalletAge, mbind, eff_bind, Clock.bind, Clock.now, mret, eff_ret,
    Clock.ret.
  destruct txs; cbn [fst]; [auto|]. case (JS.lt _ _); auto.
Qed.

Lemma checkMixerUsage_range txs : checkMixerUsage txs = 0%Z ∨ checkMixerUsage txs = 30%Z.
Proof. unfold checkMixerUsage. case (existsb _ _); auto. Qed.

Lemma checkScamContractInteraction_range txs :
  checkScamContractInteraction txs = 0%Z ∨ checkScamContractInteraction txs = 30%Z.
Proof. unfold checkScamContractInteraction. case (existsb _ _); auto. Qed.

Lemma checkAbnormalGas_range txs : checkAbnormalGas txs = 0%Z ∨ checkAbnormalGas txs = 10%Z.
Proof. unfold checkAbnormalGas. case (existsb _ _); auto. Qed.

Lemma checkReceivedFromBlacklist_range txs :
  checkReceivedFromBlacklist txs = 0%Z ∨ checkReceivedFromBlacklist txs = 40%Z.
Proof. unfold checkReceivedFromBlacklist. case (existsb _ _); auto. Qed.

Lemma checkSentToBlacklist_range txs :
  checkSentToBlacklist txs = 0%Z ∨ checkSentToBlacklist txs = 40%Z.
Proof. unfold checkSentToBlacklist. case (existsb _ _); auto. Qed.

Lemma checkScamTokens_range tbs : checkScamTokens tbs = 0%Z ∨ checkScamTokens tbs = 20%Z.
Proof. unfold checkScamTokens. case (existsb _ _); auto. Qed.

Lemma checkLargeInflowOutflow_range txs :
  checkLargeInflowOutflow txs = 0%Z ∨ checkLargeInflowOutflow txs = 15%Z.
Proof. unfold checkLargeInflowOutflow. case (existsb _ _); auto. Qed.

Lemma checkTotalTransactions_range m :
  checkTotalTransactions m = 0%Z ∨ checkTotalTransactions m = 10%Z.
Proof. unfold checkTotalTransactions. case (JS.gt _ _); auto. Qed.

Lemma checkWashTrading_range txs : checkWashTrading txs = 0%Z ∨ checkWashTrading txs = 25%Z.
Proof. unfold checkWashTrading. cbv zeta. case (existsb _ _); auto. Qed.

Lemma checkCircularTransactions_range txs v :
  checkCircularTransactions txs = JS.returned v → v = 0%Z ∨ v = 25%Z.
Proof.
  unfold checkCircularTransactions. destruct (groupByCounterparty txs); [|discriminate].
  intros [= <-]. case (circularFound _); auto.
Qed.

Lemma checkAnomalies_range {engine : Engine} txs :
  checkAnomalies txs = 0%Z ∨ checkAnomalies txs = 15%Z.
Proof. unfold checkAnomalies. case_decide; [auto|]. cbv zeta. case (_ || _); auto. Qed.

Lemma entries_binary {engine : Engine} hf wa circular wd :
  (hf = 0 ∨ hf = 20)%Z → (wa = 0 ∨ wa = 20)%Z → (circular = 0 ∨ circular = 25)%Z →
  Forall2 binaryEntry (entries hf wa circular wd) registered.
Proof.
  intros Hhf Hwa Hcircular. unfold entries, registered, binaryEntry.
  repeat first [apply List.Forall2_nil | apply List.Forall2_cons];
    (split; [reflexivity|]); cbn [snd];
    auto using checkMixerUsage_range, checkScamContractInteraction_range,
      checkAbnormalGas_range, checkReceivedFromBlacklist_range,
      checkSentToBlacklist_range, checkScamTokens_range,
      checkLargeInflowOutflow_range, checkTotalTransactions_range,
      checkWashTrading_range, checkAnomalies_range.
Qed.

Lemma binary_total_bounds bd regs :
  Forall2 binaryEntry bd regs → Forall (λ reg, 0 ≤ reg.2)%Z regs →
  (0 ≤ total bd ≤ total regs)%Z.
Proof.
  unfold total.
  induction 1 as [|e reg bd regs [_ He] _ IH]; intros Hpos; cbn; [lia|].
  apply Forall_cons in Hpos as [Hreg Hpos]. specialize (IH Hpos).
  cbn beta in Hreg. destruct He as [-> | ->]; lia.
Qed.

Lemma binary_keys bd regs : Forall2 binaryEntry bd regs → bd.*1 = regs.*1.
Proof. induction 1 as [|e reg bd regs [He _] _ IH]; cbn; congruence. Qed.

Lemma registered_nonneg : Forall (λ reg, 0 ≤ reg.2)%Z registered.
Proof. unfold registered. repeat constructor; cbn; lia. Qed.

Lemma registered_keys_NoDup : NoDup registered.*1.
Proof. apply (bool_decide_unpack _). vm_compute. exact I. Qed.

Lemma aggregate_returned {engine : Engine} wd clock k r :
  Clock.run (aggregateRiskFactors wd) clock k = JS.returned r →
  ∃ circular,
    checkCircularTransactions (transactions wd) = JS.returned circular
    ∧ r = let bd := entries (checkHighFrequency (transactions wd) clock k).1
                            (checkWalletAge (metrics wd) (transactions wd) clock (S k)).1
                            circular wd in
          {| score := sumValues bd; breakdown := bd |}.
Proof.
  rewrite aggregate_run.
  destruct (checkCircularTransactions _) as [circular|]; [|discriminate].
  intros [= <-]. eauto.
Qed.

Lemma aggregate_binary {engine : Engine} wd clock k r :
  Clock.run (aggregateRiskFactors wd) clock k = JS.returned r →
  Forall2 binaryEntry (breakdown r) registered.
Proof.
  intros (circular & Hcircular & ->)%aggregate_returned. cbv zeta. cbn [breakdown].
  apply entries_binary;
    [apply checkHighFrequency_range | apply checkWalletAge_range
    | eapply checkCircularTransactions_range, Hcircular].
Qed.

Lemma aggregate_score {engine : Engine} wd clock k r :
  Clock.run (aggregateRiskFactors wd) clock k = JS.returned r →
  score r = total (breakdown r).
Proof.
  intros (circular & _ & ->)%aggregate_returned. cbv zeta. cbn [score breakdown].
  apply sumValues_total.
Qed.

(** *** Completeness of the breakdown *)

Example namedWallet_ordinary {engine : Engine} (clock : nat → float) (k : nat) :
  ∃ r, Clock.run (aggregateRiskFactors (namedWallet "0xfeed")) clock k = JS.returned r
       ∧ length (breakdown r) = 16.
Proof. rewrite aggregate_run. eexists. split; reflexivity. Qed.

(** C1, at a wallet whose only transaction names its counterparty
    "constructor".  [aggregateRiskFactors] returns no breakdown and no score
    there, whatever the clock: [checkCircularTransactions] reads the function
    that its table inherits under that name, calls a method [push] that the
    function does not have, and the [TypeError] leaves the aggregate.
    [checkWashTrading], whose table is keyed by "counterparty:type", returns 0
    on the same transactions. *)
Theorem breakdown_missing_for_inherited_name {engine : Engine}
    (clock : nat → float) (k : nat) :
  let wd := namedWallet "constructor" in
  checkWashTrading (transactions wd) = 0%Z
  ∧ checkCircularTransactions (transactions wd) = JS.raised
  ∧ Clock.run (aggregateRiskFactors wd) clock k = JS.raised.
Proof.
  cbv zeta. split_and!; [by vm_compute..|].
  rewrite aggregate_run. reflexivity.
Qed.

(** *** Range of the score *)

(** A wallet that trades back and forth with one counterparty: four transfers
    in and four out, 50,000 each, all stamped [1700000000000] and burning
    2,000,000 gas; its metrics count 201 transactions. *)
Definition busyTx (ty : TxType) : Transaction :=
  {| hash := "0x1"; type := ty; token := "ETH"; amount := 50000;
     counterparty := "0xfeed"; timestamp := 1700000000000; gasUsed := 2000000;
     contractAddress := None; from := None; to := None |}.

Definition busyWallet : WalletData :=
  {| address := "0xabc";
     transactions := replicate 4 (busyTx incoming) ++ replicate 4 (busyTx outgoing);
     tokenBalances := [];
     metrics := {| totalTransactions := 201; totalGasSpent := "0";
                   uniqueCounterparties := 1; activeDays := 1;
                   contractsInteracted := 1 |};
     riskScore := 0; riskLevel := low; contractsInteractedList := [];
     riskBreakdown := None |}.

Definition busyBreakdown : list (string * Z) :=
  [ ("highFrequency", 0); ("mixerUsage", 0); ("scamContract", 0);
    ("abnormalGas", 10); ("receivedFromBlacklist", 0); ("sentToBlacklist", 0);
    ("faucetOnly", 0); ("scamTokens", 0); ("largeInflowOutflow", 15);
    ("walletAge", 20); ("totalTransactions", 10); ("socialLinks", 0);
    ("ogNFTs", 0); ("washTrading", 25); ("circularTransactions", 25);
    ("anomalies", 0) ]%Z.

Example busyWallet_aggregate {engine : Engine} :
  Clock.run (aggregateRiskFactors busyWallet) (λ _, 1700000000000%float) 0
  = JS.returned {| score := 105; breakdown := busyBreakdown |}.
Proof. vm_compute. reflexivity. Qed.

(** Fifteen incoming transfers one minute apart, the last one a minute before
    the clock reading: highFrequency fires. *)
Definition burst : list Transaction :=
  (λ i : nat,
     {| hash := "0x1"; type := incoming; token := "ETH"; amount := 1;
        counterparty := "0xfeed";
        timestamp := (1700000000000 - 60000 * JS.ofNat (S i))%float;
        gasUsed := 0; contractAddress := None; from := None; to := None |})
  <$> seq 0 15.

Example burst_is_high_frequency :
  Clock.run (checkHighFrequency burst) (λ _, 1700000000000%float) 0 = 20%Z.
Proof. vm_compute. reflexivity. Qed.

(** C9, at the transactions of the same wallet.  [checkCircularTransactions]
    returns neither 0 nor its weight of 25 there: it throws, so
    [aggregateRiskFactors] returns no score to bound.  The rest of the claim
    holds: the registered weights add up to 300, the aggregate does not clamp
    the score to 100, and the wallet [busyWallet] scores 105. *)
Theorem evaluator_returns_no_contribution {engine : Engine}
    (clock : nat → float) (k : nat) :
  let wd := namedWallet "constructor" in
  (∀ v : Z, checkCircularTransactions (transactions wd) ≠ JS.returned v)
  ∧ (∀ r : Aggregate, Clock.run (aggregateRiskFactors wd) clock k ≠ JS.returned r)
  ∧ total registered = 300%Z
  ∧ ∃ r, Clock.run (aggregateRiskFactors busyWallet) (λ _, 1700000000000%float) 0
         = JS.returned r
         ∧ (100 < score r)%Z.
Proof.
  cbv zeta. split_and!.
  - intros v. by vm_compute.
  - intros r. rewrite aggregate_run. by vm_compute.
  - reflexivity.
  - eexists. split; [apply busyWallet_aggregate|]. cbn. lia.
Qed.

(** *** Empty inputs *)

Lemma ofNat_0_not_above_200 : JS.gt (JS.ofNat 0) 200 = false.
Proof. vm_compute. reflexivity. Qed.

(** C7. On a wallet with no transaction and no token balance (its metrics
    counting the transactions of the list, as [handleAnalyze] sets them) every
    evaluator returns 0 rather than failing: the aggregate returns, its
    breakdown holds a zero for every registered evaluator and its score is 0. *)
Theorem empty_inputs_contribute_nothing {engine : Engine}
    (clock : nat → float) (k : nat) (wd : WalletData) :
  transactions wd = [] →
  tokenBalances wd = [] →
  totalTransactions (metrics wd) = JS.ofNat (length (transactions wd)) →
  let txs := transactions wd in
  ((checkHighFrequency txs clock k).1 = 0%Z
   ∧ checkMixerUsage txs = 0%Z
   ∧ checkScamContractInteraction txs = 0%Z
   ∧ checkAbnormalGas txs = 0%Z
   ∧ checkReceivedFromBlacklist txs = 0%Z
   ∧ checkSentToBlacklist txs = 0%Z
   ∧ checkFaucetOnly txs = 0%Z
   ∧ checkScamTokens (tokenBalances wd) = 0%Z
   ∧ checkLargeInflowOutflow txs = 0%Z
   ∧ (checkWalletAge (metrics wd) txs clock k).1 = 0%Z
   ∧ checkTotalTransactions (metrics wd) = 0%Z
   ∧ checkWashTrading txs = 0%Z
   ∧ checkCircularTransactions txs = JS.returned 0%Z
   ∧ checkAnomalies txs = 0%Z)
  ∧ ∃ r, Clock.run (aggregateRiskFactors wd) clock k = JS.returned r
         ∧ breakdown r = (λ reg, (reg.1, 0%Z)) <$> registered
         ∧ score r = 0%Z.
Proof.
  intros Htx Htb Hm txs. subst txs.
  assert (Htot : checkTotalTransactions (metrics wd) = 0%Z).
  { unfold checkTotalTransactions. rewrite Hm, Htx. cbn [length].
    rewrite ofNat_0_not_above_200. reflexivity. }
  rewrite aggregate_run. unfold entries. rewrite Htot, Htx, Htb.
  split; [split_and!; reflexivity|].
  eexists. split; [reflexivity|]. split; reflexivity.
Qed.

Definition emptyWallet : WalletData :=
  {| address := "0xabc"; transactions := []; tokenBalances := [];
     metrics := {| totalTransactions := 0; totalGasSpent := "0";
                   uniqueCounterparties := 0; activeDays := 0;
                   contractsInteracted := 0 |};
     riskScore := 0; riskLevel := low; contractsInteractedList := [];
     riskBreakdown := None |}.

Lemma empty_inputs_contribute_nothing_witness :
  transactions emptyWallet = []
  ∧ tokenBalances emptyWallet = []
  ∧ totalTransactions (metrics emptyWallet) = JS.ofNat 0
  ∧ ∃ r, Clock.run (aggregateRiskFactors (engine := referenceEngine) emptyWallet)
                   (λ _, 1700000000000%float) 0 = JS.returned r
         ∧ breakdown r = (λ reg, (reg.1, 0%Z)) <$> registered
         ∧ score r = 0%Z.
Proof.
  split_and!; [reflexivity..|].
  apply (empty_inputs_contribute_nothing (engine := referenceEngine)
           (λ _, 1700000000000%float) 0 emptyWallet);
    reflexivity.
Defined.


(** *** Two evaluations under a fixed clock *)

Lemma checkHighFrequency_fixed txs clock t k :
  Clock.fixedAt clock t →
  (checkHighFrequency txs clock k).1 = (checkHighFrequency txs (λ _, t) 0).1.
Proof.
  intros Hfix.
  unfold checkHighFrequency, mbind, eff_bind, Clock.bind, Clock.now, mret, eff_ret,
    Clock.ret.
  cbn [fst]. rewrite (Hfix k). reflexivity.
Qed.

Lemma checkWalletAge_fixed m txs clock t k :
  Clock.fixedAt clock t →
  (checkWalletAge m txs clock k).1 = (checkWalletAge m txs (λ _, t) 0).1.
Proof.
  intros Hfix.
  unfold checkWalletAge, mbind, eff_bind, Clock.bind, Clock.now, mret, eff_ret,
    Clock.ret.
  destruct txs; cbn [fst]; [reflexivity|]. rewrite (Hfix k). reflexivity.
Qed.

Lemma aggregate_fixed {engine : Engine} wd clock t k :
  Clock.fixedAt clock t →
  Clock.run (aggregateRiskFactors wd) clock k
  = Clock.run (aggregateRiskFactors wd) (λ _, t) 0.
Proof.
  intros Hfix. rewrite !aggregate_run. cbv zeta.
  rewrite (checkHighFrequency_fixed _ clock t k Hfix).
  rewrite (checkWalletAge_fixed _ _ clock t (S k) Hfix).
  rewrite (checkWalletAge_fixed _ _ (λ _, t) t 1) by (intros ?; reflexivity).
  reflexivity.
Qed.



(** Each evaluation reads the clock anew: a clock that moves by a day between
    two readings changes the verdict on a wallet whose first transaction is
    six and a half days old at the first reading that [checkWalletAge]
    makes. *)
Definition agingWallet : WalletData :=
  {| address := "0xabc";
     transactions := [ {| hash := "0x1"; type := incoming; token := "ETH"; amount := 1;
                          counterparty := "0xfeed"; timestamp := 1700000000000;
                          gasUsed := 0; contractAddress := None; from := None;
                          to := None |} ];
     tokenBalances := [];
     metrics := {| totalTransactions := 1; totalGasSpent := "0";
                   uniqueCounterparties := 1; activeDays := 1;
                   contractsInteracted := 1 |};
     riskScore := 0; riskLevel := low; contractsInteractedList := [];
     riskBreakdown := None |}.

Definition driftingClock (k : nat) : float :=
  (1700475200000 + 86400000 * JS.ofNat k)%float.

Example moving_clock_changes_breakdown {engine : Engine} :
  ∃ r1 r2, Clock.run (evaluateTwice agingWallet) driftingClock 0 = JS.returned (r1, r2)
           ∧ score r1 = 20%Z ∧ score r2 = 0%Z.
Proof. do 2 eexists. split; [by vm_compute|]. split; reflexivity. Qed.

(** *** The single large inflow *)

Lemma earliest_single tx : earliest (timestamp tx) [tx] = timestamp tx.
Proof. unfold earliest. cbn. case (JS.lt _ _); reflexivity. Qed.

Lemma countPairs_single tx key :
  default 0 (countPairs [tx] !! key) ≤ 1.
Proof.
  unfold countPairs. cbn [foldl]. case (JS.truthyStr _).
  - rewrite lookup_insert. case_decide; rewrite ?lookup_empty; cbn; lia.
  - rewrite lookup_empty. cbn. lia.
Qed.

Lemma checkWashTrading_single tx : checkWashTrading [tx] = 0%Z.
Proof.
  unfold checkWashTrading. cbv zeta.
  rewrite existsb_none; [reflexivity|].
  intros key _.
  pose proof (countPairs_single tx (beforeColon key +:+ ":incoming")).
  rewrite bool_decide_false by lia. reflexivity.
Qed.

Lemma checkCircularTransactions_single tx :
  type tx = incoming → JS.inherited (counterparty tx) = false →
  checkCircularTransactions [tx] = JS.returned 0%Z.
Proof.
  intros Hin Hown.
  unfold checkCircularTransactions, groupByCounterparty, groupStep, JS.read.
  cbn [foldl]. case (JS.truthyStr _); cbn [negb].
  - rewrite lookup_empty, Hown. unfold circularFound.
    rewrite insert_empty, map_to_list_singleton.
    cbn [fmap list_fmap snd existsb].
    rewrite (filter_cons_False _ tx), filter_nil by (rewrite Hin; discriminate).
    rewrite filter_cons_True, filter_nil by exact Hin. reflexivity.
  - unfold circularFound. rewrite map_to_list_empty. reflexivity.
Qed.

(** C6, as amended.  A wallet whose only transaction is an incoming transfer
    of 50,000 from a counterparty that is not blacklisted, with gas not above
    1,000,000 and a timestamp that the clock puts at least seven days back,
    and whose metrics do not count more than 200 transactions: the factor
    largeInflowOutflow contributes 15, every other factor 0, the score is 15
    and the level is low.  (The counterparty is not named after a property
    that objects inherit; nothing is stated here about one that is.) *)
Theorem single_old_inflow_scores_15 {engine : Engine}
    (clock : nat → float) (now : float) (k : nat) (wd : WalletData) (tx : Transaction) :
  Clock.fixedAt clock now →
  transactions wd = [tx] →
  type tx = incoming →
  amount tx = 50000%float →
  JS.includes BLACKLISTED_ADDRESSES (counterparty tx) = false →
  JS.inherited (counterparty tx) = false →
  JS.gt (gasUsed tx) 1000000 = false →
  JS.gt (totalTransactions (metrics wd)) 200 = false →
  JS.lt ((now - timestamp tx) / (1000 * 60 * 60 * 24)) 7 = false →
  ∃ r, Clock.run (aggregateRiskFactors wd) clock k = JS.returned r
       ∧ onlyLargeInflow r.
Proof.
  intros Hfix Htx Hty Ham Hbl Hown Hgas Hm Hage.
  rewrite (aggregate_fixed wd clock now k Hfix), aggregate_run.
  assert (Hct : checkCircularTransactions (transactions wd) = JS.returned 0%Z)
    by (rewrite Htx; apply checkCircularTransactions_single; assumption).
  rewrite Hct. cbv zeta. eexists. split; [reflexivity|].
  assert (Hhf : (checkHighFrequency (transactions wd) (λ _, now) 0).1 = 0%Z).
  { unfold checkHighFrequency, mbind, eff_bind, Clock.bind, Clock.now, mret, eff_ret,
      Clock.ret. cbn [fst]. rewrite Htx.
    rewrite decide_False; [reflexivity|].
    pose proof (length_filter (λ t, Is_true (JS.gt (timestamp t) (now - 60 * 60 * 1000)))
                  [tx]) as Hlen.
    cbn [length] in Hlen. lia. }
  assert (Hwa : (checkWalletAge (metrics wd) (transactions wd) (λ _, now) 1).1 = 0%Z).
  { rewrite Htx.
    unfold checkWalletAge, mbind, eff_bind, Clock.bind, Clock.now, mret, eff_ret,
      Clock.ret. cbn [fst]. rewrite earliest_single, Hage. reflexivity. }
  assert (Hlarge : checkLargeInflowOutflow (transactions wd) = 15%Z).
  { rewrite Htx. unfold checkLargeInflowOutflow. cbn [existsb]. rewrite Ham. reflexivity. }
  assert (Hg : checkAbnormalGas (transactions wd) = 0%Z).
  { rewrite Htx. unfold checkAbnormalGas. cbn [existsb]. rewrite Hgas. reflexivity. }
  assert (Hrb : checkReceivedFromBlacklist (transactions wd) = 0%Z).
  { rewrite Htx. unfold checkReceivedFromBlacklist. cbn [existsb].
    rewrite Hbl, andb_false_r. reflexivity. }
  assert (Hsb : checkSentToBlacklist (transactions wd) = 0%Z).
  { rewrite Htx. unfold checkSentToBlacklist. cbn [existsb].
    rewrite Hbl, andb_false_r. reflexivity. }
  assert (Htt : checkTotalTransactions (metrics wd) = 0%Z).
  { unfold checkTotalTransactions. rewrite Hm. reflexivity. }
  assert (Hwt : checkWashTrading (transactions wd) = 0%Z)
    by (rewrite Htx; apply checkWashTrading_single).
  assert (Han : checkAnomalies (transactions wd) = 0%Z) by (rewrite Htx; reflexivity).
  assert (Hmx : checkMixerUsage (transactions wd) = 0%Z) by (rewrite Htx; reflexivity).
  assert (Hsc : checkScamContractInteraction (transactions wd) = 0%Z)
    by (rewrite Htx; reflexivity).
  assert (Hst : checkScamTokens (tokenBalances wd) = 0%Z).
  { unfold checkScamTokens. rewrite existsb_none; reflexivity. }
  unfold entries, onlyLargeInflow. cbn [breakdown score].
  rewrite Hhf, Hwa, Hlarge, Hg, Hrb, Hsb, Htt, Hwt, Han, Hmx, Hsc, Hst.
  split_and!; reflexivity.
Qed.

(** The transfer of the claim, stamped [ts] and burning [gas], in a wallet
    whose metrics count [count] transactions. *)
Definition inflowTxBurning (ts gas : float) : Transaction :=
  {| hash := "0x1"; type := incoming; token := "ETH"; amount := 50000;
     counterparty := "0xfeed"; timestamp := ts; gasUsed := gas;
     contractAddress := None; from := None; to := None |}.

Definition inflowWalletCounting (ts gas count : float) : WalletData :=
  {| address := "0xabc"; transactions := [inflowTxBurning ts gas]; tokenBalances := [];
     metrics := {| totalTransactions := count; totalGasSpent := "0";
                   uniqueCounterparties := 1; activeDays := 1;
                   contractsInteracted := 1 |};
     riskScore := 0; riskLevel := low; contractsInteractedList := [];
     riskBreakdown := None |}.

(** The same, burning no gas and counted once. *)
Definition inflowTx (ts : float) : Transaction := inflowTxBurning ts 0.

Definition inflowWallet (ts : float) : WalletData := inflowWalletCounting ts 0 1.

(** A year and more old when the clock reads [1700000000000]. *)
Lemma single_old_inflow_scores_15_witness :
  ∃ r, Clock.run (aggregateRiskFactors (engine := referenceEngine)
                    (inflowWallet 1600000000000))
                 (λ _, 1700000000000%float) 0 = JS.returned r
       ∧ onlyLargeInflow r.
Proof.
  apply (single_old_inflow_scores_15 (engine := referenceEngine)
           (λ _, 1700000000000%float) 1700000000000%float 0
           (inflowWallet 1600000000000) (inflowTx 1600000000000));
    first [intros ?; reflexivity | reflexivity].
Defined.

(** C6, as stated, fails on a recent transfer: received three days before the
    clock reading, the transfer also makes walletAge contribute 20, so the
    score is 35 and the level medium.  It fails as well on an old transfer
    that burnt 2,000,000 gas (abnormalGas contributes 10, the score is 25),
    and on an old transfer in a wallet whose metrics count 201 transactions
    (totalTransactions contributes 10, the score is 25). *)
Lemma single_recent_inflow_scores_35 :
  let run := λ wd, Clock.run (aggregateRiskFactors (engine := referenceEngine) wd)
                             (λ _, 1700000000000%float) 0 in
  (type (inflowTx 1699740800000) = incoming
   ∧ amount (inflowTx 1699740800000) = 50000%float
   ∧ JS.includes BLACKLISTED_ADDRESSES (counterparty (inflowTx 1699740800000)) = false
   ∧ ∃ r, run (inflowWallet 1699740800000) = JS.returned r
          ∧ breakdown r !! 9 = Some ("walletAge", 20%Z)
          ∧ score r = 35%Z
          ∧ levelOfScore (score r) = medium
          ∧ ¬ onlyLargeInflow r)
  ∧ (∃ r, run (inflowWalletCounting 1600000000000 2000000 1) = JS.returned r
          ∧ breakdown r !! 3 = Some ("abnormalGas", 10%Z)
          ∧ score r = 25%Z
          ∧ ¬ onlyLargeInflow r)
  ∧ (∃ r, run (inflowWalletCounting 1600000000000 0 201) = JS.returned r
          ∧ breakdown r !! 10 = Some ("totalTransactions", 10%Z)
          ∧ score r = 25%Z
          ∧ ¬ onlyLargeInflow r).
Proof.
  cbv zeta. split_and!; [reflexivity..| | |].
  - eexists. split; [by vm_compute|]. split_and!; [reflexivity..|].
    intros (_ & Hscore & _). vm_compute in Hscore. discriminate Hscore.
  - eexists. split; [by vm_compute|]. split_and!; [reflexivity..|].
    intros (_ & Hscore & _). vm_compute in Hscore. discriminate Hscore.
  - eexists. split; [by vm_compute|]. split_and!; [reflexivity..|].
    intros (_ & Hscore & _). vm_compute in Hscore. discriminate Hscore.
Qed.

End RiskFactorsSpec.

(** ** Further properties of the risk factors *)

Module RiskFactorsExtra.
Import JSFacts FloatFacts RiskFactors RiskFactorsSpec.

(** The number of transactions of type [ty] whose counterparty is [c]. *)
Definition countOf (ty : TxType) (c : string) (txs : list Transaction) : nat :=
  length (filter (λ t, counterparty t = c ∧ type t = ty) txs).

(** [c] holds a colon. *)
Fixpoint hasColon (c : string) : bool :=
  match c with
  | EmptyString => false
  | String a rest => Ascii.eqb a ":" || hasColon rest
  end.

(** The transactions exchanged with [c]. *)
Definition exchangedWith (c : string) (txs : list Transaction) : list Transaction :=
  filter (λ t, counterparty t = c) txs.

(** The table of [checkCircularTransactions] when no counterparty names a
    property that objects inherit: the transactions of each counterparty. *)
Definition groupOwn (transactions : list Transaction) : gmap string (list Transaction) :=
  foldl (λ txByCounterparty tx,
           if JS.truthyStr (counterparty tx)
           then <[counterparty tx :=
                    default [] (txByCounterparty !! counterparty tx) ++ [tx]]>
                  txByCounterparty
           else txByCounterparty)
        ∅ transactions.

(** Some transaction names its counterparty after a property that objects
    inherit. *)
Definition anyInherited (txs : list Transaction) : bool :=
  existsb (λ tx, JS.inherited (counterparty tx)) txs.

(** *** Strings *)

Lemma append_cons (x : ascii) (a b : string) :
  String x a +:+ b = String x (a +:+ b).
Proof. reflexivity. Qed.

Lemma append_length (a b : string) :
  String.length (a +:+ b) = String.length a + String.length b.
Proof.
  induction a as [|x a IH]; [reflexivity|]. rewrite append_cons. cbn. by rewrite IH.
Qed.

(** Two strings that end with suffixes of the same length. *)
Lemma append_inj (a b u v : string) :
  String.length u = String.length v → a +:+ u = b +:+ v → a = b ∧ u = v.
Proof.
  intros Hlen. revert b.
  induction a as [|x a IH]; intros [|y b] Heq; rewrite ?append_cons in Heq.
  - auto.
  - exfalso. apply (f_equal String.length) in Heq. cbn in Heq.
    rewrite !append_length in Heq. cbn in Heq. lia.
  - exfalso. apply (f_equal String.length) in Heq. cbn in Heq.
    rewrite !append_length in Heq. cbn in Heq. lia.
  - injection Heq as -> Heq. destruct (IH b Heq) as [-> ->]. auto.
Qed.

Lemma typeName_length ty : String.length (":" +:+ typeName ty) = 9.
Proof. destruct ty; reflexivity. Qed.

Lemma typeName_inj ty ty' : ":" +:+ typeName ty = ":" +:+ typeName ty' → ty = ty'.
Proof. destruct ty, ty'; (reflexivity || discriminate). Qed.

(** The key of a pair names its counterparty and its type. *)
Lemma key_inj (c c' : string) (ty ty' : TxType) :
  c +:+ ":" +:+ typeName ty = c' +:+ ":" +:+ typeName ty' → c = c' ∧ ty = ty'.
Proof.
  intros Heq. apply append_inj in Heq as [-> Hty].
  - split; [reflexivity|]. by apply typeName_inj.
  - by rewrite !typeName_length.
Qed.

Lemma beforeColon_key (c rest : string) :
  beforeColon (c +:+ ":" +:+ rest) = beforeColon c.
Proof.
  induction c as [|a c IH]; [reflexivity|]. rewrite append_cons. cbn.
  destruct (Ascii.eqb a ":"); [reflexivity|]. f_equal. exact IH.
Qed.

Lemma beforeColon_hasColon (c : string) : beforeColon c = c ↔ hasColon c = false.
Proof.
  induction c as [|a c IH]; cbn; [done|].
  destruct (Ascii.eqb a ":"); cbn.
  - split; discriminate.
  - rewrite <- IH. split; [by intros [= ->]|by intros ->].
Qed.

Lemma beforeColon_free (c : string) : hasColon (beforeColon c) = false.
Proof.
  induction c as [|a c IH]; cbn; [reflexivity|].
  destruct (Ascii.eqb a ":") eqn:Ha; cbn; [reflexivity|]. by rewrite Ha.
Qed.

Lemma truthyStr_nonempty (c : string) : JS.truthyStr c = true ↔ c ≠ "".
Proof. destruct c; cbn; split; (done || discriminate). Qed.

Lemma existsb_elem {A} (f : A → bool) (l : list A) :
  existsb f l = true ↔ ∃ x, x ∈ l ∧ f x = true.
Proof.
  rewrite existsb_exists. split; intros (x & Hx & Hf); exists x;
    (split; [by apply list_elem_of_In|exact Hf]).
Qed.

Lemma keys_elem {V} (m : gmap string V) (key : string) :
  key ∈ (map_to_list m).*1 ↔ is_Some (m !! key).
Proof.
  rewrite list_elem_of_fmap. split.
  - intros ([k v] & -> & Hkv). apply elem_of_map_to_list in Hkv. eauto.
  - intros [v Hv]. exists (key, v). split; [reflexivity|]. by apply elem_of_map_to_list.
Qed.

Lemma values_elem {V} (m : gmap string V) (v : V) :
  v ∈ (map_to_list m).*2 ↔ ∃ key, m !! key = Some v.
Proof.
  rewrite list_elem_of_fmap. split.
  - intros ([k v'] & -> & Hkv). apply elem_of_map_to_list in Hkv. eauto.
  - intros [key Hv]. exists (key, v). split; [reflexivity|]. by apply elem_of_map_to_list.
Qed.

(** *** The table of [checkWashTrading] *)

Lemma countPairs_snoc txs tx :
  countPairs (txs ++ [tx])
  = if JS.truthyStr (counterparty tx)
    then <[pairKey tx := default 0 (countPairs txs !! pairKey tx) + 1]> (countPairs txs)
    else countPairs txs.
Proof. unfold countPairs. rewrite foldl_app. reflexivity. Qed.

Lemma countOf_snoc ty c txs tx :
  countOf ty c (txs ++ [tx])
  = countOf ty c txs + (if decide (counterparty tx = c ∧ type tx = ty) then 1 else 0).
Proof.
  unfold countOf. rewrite filter_app, length_app. f_equal.
  case_decide as H.
  - rewrite filter_cons_True by exact H. reflexivity.
  - rewrite filter_cons_False by exact H. reflexivity.
Qed.

(** Each entry of [pairCounts] counts the transactions of one type exchanged
    with one counterparty; transactions without counterparty are not counted. *)
Lemma countPairs_lookup txs c ty :
  default 0 (countPairs txs !! (c +:+ ":" +:+ typeName ty))
  = if decide (c = "") then 0 else countOf ty c txs.
Proof.
  induction txs as [|tx txs IH] using rev_ind.
  - unfold countPairs. cbn. rewrite lookup_empty. by case_decide.
  - rewrite countPairs_snoc, countOf_snoc.
    destruct (decide (c = "")) as [Hc|Hc].
    + destruct (JS.truthyStr (counterparty tx)) eqn:Htruthy; [|exact IH].
      apply truthyStr_nonempty in Htruthy. rewrite lookup_insert_ne; [exact IH|].
      unfold pairKey. intros [Hcp _]%key_inj. congruence.
    + destruct (JS.truthyStr (counterparty tx)) eqn:Htruthy.
      * destruct (decide (counterparty tx = c ∧ type tx = ty)) as [[Hcp Hty]|Hne].
        -- unfold pairKey. rewrite Hcp, Hty, lookup_insert_eq. cbn [default].
           rewrite IH. reflexivity.
        -- rewrite lookup_insert_ne; [rewrite IH; lia|].
           unfold pairKey. intros [Hcp Hty]%key_inj. auto.
      * rewrite IH. rewrite decide_False; [lia|]. intros [Hcp _].
        rewrite Hcp in Htruthy. apply Hc. destruct c; [reflexivity|discriminate].
Qed.

Lemma countPairs_keys txs key :
  is_Some (countPairs txs !! key)
  ↔ ∃ tx, tx ∈ txs ∧ counterparty tx ≠ "" ∧ key = pairKey tx.
Proof.
  induction txs as [|tx txs IH] using rev_ind.
  - unfold countPairs. cbn. rewrite lookup_empty. split.
    + intros []%is_Some_None.
    + intros (tx & []%elem_of_nil & _).
  - rewrite countPairs_snoc.
    assert (Hold : (∃ t, t ∈ txs ++ [tx] ∧ counterparty t ≠ "" ∧ key = pairKey t)
                   ↔ (∃ t, t ∈ txs ∧ counterparty t ≠ "" ∧ key = pairKey t)
                     ∨ (counterparty tx ≠ "" ∧ key = pairKey tx)).
    { split.
      - intros (t & [Ht| ->%list_elem_of_singleton]%elem_of_app & H); [left; eauto|by right].
      - intros [(t & Ht & H)|H].
        + exists t. split; [apply elem_of_app; by left|exact H].
        + exists tx. split; [apply elem_of_app; right; by apply list_elem_of_singleton|exact H]. }
    rewrite Hold, <- IH.
    destruct (JS.truthyStr (counterparty tx)) eqn:Htruthy.
    + apply truthyStr_nonempty in Htruthy. rewrite lookup_insert. case_decide as Hkey.
      * split; [intros _; right; auto|eauto].
      * split; [by left|]. intros [?|[_ ?]]; [assumption|congruence].
    + split; [by left|]. intros [?|[Hne _]]; [assumption|].
      apply truthyStr_nonempty in Hne. congruence.
Qed.

Lemma countOf_pos ty c txs :
  0 < countOf ty c txs → ∃ tx, tx ∈ txs ∧ counterparty tx = c ∧ type tx = ty.
Proof.
  unfold countOf. intros Hpos.
  destruct (filter _ txs) as [|tx l] eqn:Hf; [cbn in Hpos; lia|].
  assert (Htx : tx ∈ filter (λ t, counterparty t = c ∧ type t = ty) txs)
    by (rewrite Hf; left).
  apply list_elem_of_filter in Htx as [[Hc Hty] Htx]. eauto.
Qed.

(** The test [suspicious] of [checkWashTrading]. *)
Lemma washTrading_suspicious (txs : list Transaction) :
  existsb (λ key,
             bool_decide (3 < default 0 (countPairs txs !! (beforeColon key +:+ ":incoming")))
             && bool_decide (3 < default 0 (countPairs txs !! (beforeColon key +:+ ":outgoing"))))
          (map_to_list (countPairs txs)).*1 = true
  ↔ ∃ c, c ≠ "" ∧ hasColon c = false
         ∧ 3 < countOf incoming c txs ∧ 3 < countOf outgoing c txs.
Proof.
  pose proof (countPairs_lookup txs) as Hlookup.
  assert (Hkeys : ∀ c, default 0 (countPairs txs !! (c +:+ ":incoming"))
                       = (if decide (c = "") then 0 else countOf incoming c txs)
                     ∧ default 0 (countPairs txs !! (c +:+ ":outgoing"))
                       = (if decide (c = "") then 0 else countOf outgoing c txs)).
  { intros c. split; [apply (Hlookup c incoming)|apply (Hlookup c outgoing)]. }
  split.
  - intros Hex.
    apply existsb_elem in Hex as (key & Hkey & Hcond).
    apply keys_elem, countPairs_keys in Hkey as (tx & Htx & Hne & ->).
    apply andb_true_iff in Hcond as [Hin Hout].
    apply bool_decide_eq_true in Hin, Hout.
    destruct (Hkeys (beforeColon (pairKey tx))) as [Ein Eout].
    rewrite Ein in Hin. rewrite Eout in Hout.
    exists (beforeColon (pairKey tx)). case_decide as Hc; [lia|].
    split_and!; [exact Hc| |exact Hin|exact Hout].
    unfold pairKey. rewrite beforeColon_key. apply beforeColon_free.
  - intros (c & Hc & Hfree & Hin & Hout).
    destruct (countOf_pos incoming c txs) as (tx & Htx & Hcp & Hty); [lia|].
    apply existsb_elem. exists (pairKey tx). split.
    + apply keys_elem, countPairs_keys. exists tx. by rewrite Hcp.
    + unfold pairKey. rewrite beforeColon_key, Hcp.
      rewrite (proj2 (beforeColon_hasColon c) Hfree).
      destruct (Hkeys c) as [-> ->]. rewrite !decide_False by exact Hc.
      rewrite !bool_decide_eq_true_2 by assumption. reflexivity.
Qed.

Lemma fires_iff (found : bool) (w : Z) (P : Prop) :
  w ≠ 0%Z → (found = true ↔ P) → ((if found then w else 0%Z) = w ↔ P).
Proof. intros Hw <-. destruct found; split; (done || lia). Qed.

(** X1. [checkWashTrading] contributes 25 exactly when some counterparty,
    whose id is not empty and holds no colon, is the counterparty of more than
    three incoming and of more than three outgoing transactions.  Since the
    table is keyed by "counterparty:type" and read back by splitting the key at
    its first colon, trades with a counterparty whose id holds a colon are
    never flagged. *)
Theorem washTrading_fires_iff (txs : list Transaction) :
  checkWashTrading txs = 25%Z
  ↔ ∃ c, c ≠ "" ∧ hasColon c = false
         ∧ 3 < countOf incoming c txs ∧ 3 < countOf outgoing c txs.
Proof.
  unfold checkWashTrading. cbv zeta.
  apply fires_iff; [lia|]. apply washTrading_suspicious.
Qed.

(** *** The table of [checkCircularTransactions] *)

Lemma groupOwn_snoc txs tx :
  groupOwn (txs ++ [tx])
  = if JS.truthyStr (counterparty tx)
    then <[counterparty tx :=
             default [] (groupOwn txs !! counterparty tx) ++ [tx]]>
           (groupOwn txs)
    else groupOwn txs.
Proof. unfold groupOwn. rewrite foldl_app. reflexivity. Qed.

Lemma exchangedWith_snoc c txs tx :
  exchangedWith c (txs ++ [tx])
  = exchangedWith c txs ++ (if decide (counterparty tx = c) then [tx] else []).
Proof.
  unfold exchangedWith. rewrite filter_app. reflexivity.
Qed.

(** Each entry of the table holds, in order, the transactions exchanged with
    one counterparty; there is no entry for the empty counterparty. *)
Lemma groupOwn_lookup txs c :
  groupOwn txs !! c
  = if decide (c = "" ∨ exchangedWith c txs = []) then None
    else Some (exchangedWith c txs).
Proof.
  induction txs as [|tx txs IH] using rev_ind.
  - unfold groupOwn. cbn. rewrite lookup_empty.
    rewrite decide_True; [reflexivity|]. by right.
  - rewrite groupOwn_snoc, exchangedWith_snoc.
    destruct (JS.truthyStr (counterparty tx)) eqn:Htruthy.
    + apply truthyStr_nonempty in Htruthy.
      destruct (decide (counterparty tx = c)) as [Hc|Hc].
      * rewrite Hc, lookup_insert_eq. rewrite <- Hc in IH |- *. rewrite IH.
        rewrite (decide_False (P := _ ∨ _ ++ _ = []));
          [|intros [?|[_ Hnil]%app_eq_nil]; [contradiction|discriminate]].
        f_equal. f_equal. case_decide as Hold; [|reflexivity].
        destruct Hold as [?| ->]; [contradiction|reflexivity].
      * rewrite lookup_insert_ne by exact Hc. rewrite app_nil_r. exact IH.
    + assert (Hc : counterparty tx = "")
        by (destruct (counterparty tx); [reflexivity|discriminate]).
      rewrite IH. destruct (decide (counterparty tx = c)) as [Hc'|Hc'].
      * rewrite !decide_True; [reflexivity|left; congruence..].
      * rewrite app_nil_r. reflexivity.
Qed.

Lemma filter_none {A} (P : A → Prop) `{!∀ x, Decision (P x)} (l : list A) :
  (∀ x, x ∈ l → ¬ P x) → filter P l = [].
Proof.
  induction l as [|x l IH]; intros Hno; [reflexivity|].
  rewrite filter_cons_False by (apply Hno; left).
  apply IH. intros y Hy. apply Hno. by right.
Qed.

Lemma inherited_elem (c : string) : JS.inherited c = true ↔ c ∈ JS.objectPrototype.
Proof. unfold JS.inherited. apply bool_decide_eq_true. Qed.

Lemma inherited_nonempty (c : string) : JS.inherited c = true → JS.truthyStr c = true.
Proof. destruct c; [by vm_compute|reflexivity]. Qed.

Lemma anyInherited_elem (txs : list Transaction) :
  anyInherited txs = true ↔ ∃ tx, tx ∈ txs ∧ counterparty tx ∈ JS.objectPrototype.
Proof.
  unfold anyInherited. rewrite existsb_elem.
  split; intros (tx & Htx & H); exists tx; (split; [exact Htx|]); by apply inherited_elem.
Qed.

Lemma anyInherited_none (txs : list Transaction) :
  anyInherited txs = false ↔ ∀ tx, tx ∈ txs → ¬ counterparty tx ∈ JS.objectPrototype.
Proof.
  rewrite <- not_true_iff_false, anyInherited_elem. split.
  - intros Hno tx Htx Hc. apply Hno. eauto.
  - intros Hall (tx & Htx & Hc). exact (Hall tx Htx Hc).
Qed.

Lemma groupByCounterparty_snoc txs tx :
  groupByCounterparty (txs ++ [tx])
  = match groupByCounterparty txs with
    | JS.returned txByCounterparty => groupStep txByCounterparty tx
    | JS.raised => JS.raised
    end.
Proof. unfold groupByCounterparty. rewrite foldl_app. reflexivity. Qed.

(** The first loop throws exactly when some counterparty names an inherited
    property; otherwise it leaves the table of the transactions of each
    counterparty. *)
Lemma groupByCounterparty_outcome (txs : list Transaction) :
  groupByCounterparty txs
  = if anyInherited txs then JS.raised else JS.returned (groupOwn txs).
Proof.
  induction txs as [|tx txs IH] using rev_ind; [reflexivity|].
  rewrite groupByCounterparty_snoc, IH. unfold anyInherited in *.
  rewrite existsb_app. cbn [existsb]. rewrite orb_false_r.
  destruct (existsb _ txs) eqn:Hold; [reflexivity|]. cbn [orb].
  rewrite groupOwn_snoc. unfold groupStep, JS.read.
  destruct (JS.inherited (counterparty tx)) eqn:Hinh.
  - rewrite (inherited_nonempty _ Hinh). cbn [negb].
    rewrite groupOwn_lookup, decide_True; [reflexivity|]. right.
    unfold exchangedWith. apply filter_none.
    intros t Ht Hc. apply (anyInherited_none txs) in Ht; [|exact Hold].
    apply Ht. rewrite Hc. by apply inherited_elem.
  - destruct (JS.truthyStr (counterparty tx)); cbn [negb]; [|reflexivity].
    destruct (groupOwn txs !! counterparty tx); reflexivity.
Qed.

Lemma checkCircularTransactions_outcome (txs : list Transaction) :
  checkCircularTransactions txs
  = if anyInherited txs then JS.raised
    else JS.returned (if circularFound (groupOwn txs) then 25 else 0)%Z.
Proof.
  unfold checkCircularTransactions. rewrite groupByCounterparty_outcome.
  destruct (anyInherited txs); reflexivity.
Qed.

(** The test [found] of [checkCircularTransactions]. *)
Lemma circular_found (txs : list Transaction) :
  circularFound (groupOwn txs) = true
  ↔ ∃ inc out,
      inc ∈ txs ∧ out ∈ txs
      ∧ type inc = incoming ∧ type out = outgoing
      ∧ counterparty inc = counterparty out ∧ counterparty inc ≠ ""
      ∧ circularPair inc out = true.
Proof.
  unfold circularFound. rewrite existsb_elem. split.
  - intros (group & [c Hgroup]%values_elem & Hex).
    rewrite groupOwn_lookup in Hgroup.
    case_decide as Hc; [discriminate|]. injection Hgroup as <-.
    apply existsb_elem in Hex as (inc & Hinc & Hex).
    apply existsb_elem in Hex as (out & Hout & Hpair).
    apply list_elem_of_filter in Hinc as [Hinc_ty Hinc].
    apply list_elem_of_filter in Hout as [Hout_ty Hout].
    apply list_elem_of_filter in Hinc as [Hinc_c Hinc].
    apply list_elem_of_filter in Hout as [Hout_c Hout].
    exists inc, out. split_and!; try assumption; [congruence|].
    rewrite Hinc_c. intros ->. apply Hc. by left.
  - intros (inc & out & Hinc & Hout & Hinc_ty & Hout_ty & Hc & Hne & Hpair).
    exists (exchangedWith (counterparty inc) txs). split.
    + apply values_elem. exists (counterparty inc).
      rewrite groupOwn_lookup. rewrite decide_False; [reflexivity|].
      intros [?|Hnil]; [contradiction|].
      assert (Hin : inc ∈ exchangedWith (counterparty inc) txs)
        by (apply list_elem_of_filter; auto).
      rewrite Hnil in Hin. by apply elem_of_nil in Hin.
    + apply existsb_elem. exists inc. split.
      * apply list_elem_of_filter. split; [exact Hinc_ty|].
        apply list_elem_of_filter. auto.
      * apply existsb_elem. exists out. split; [|exact Hpair].
        apply list_elem_of_filter. split; [exact Hout_ty|].
        apply list_elem_of_filter. auto.
Qed.

(** The two thresholds of [circularPair], as numbers. *)
Lemma circularPair_thresholds (inc out : Transaction) :
  circularPair inc out = true
  ↔ (abs (timestamp inc - timestamp out) <? 86400000)%float = true
    ∧ (abs (amount inc - amount out) <? 0.0001)%float = true.
Proof. unfold circularPair, JS.lt, JS.mathAbs. apply andb_true_iff. Qed.

(** X2. [checkCircularTransactions] and its three outcomes.  It throws exactly
    when some transaction names its counterparty after a property that objects
    inherit ("constructor", "toString", "__proto__", ...).  It returns 25
    exactly when it does not throw and the list holds an incoming and an
    outgoing transaction with the same counterparty (not empty) whose
    timestamps are less than 86,400,000 ms (24 hours) apart and whose amounts
    are less than 0.0001 apart.  Whenever it returns, it returns 0 or 25. *)
Theorem circular_fires_iff (txs : list Transaction) :
  (checkCircularTransactions txs = JS.raised
   ↔ ∃ tx, tx ∈ txs ∧ counterparty tx ∈ JS.objectPrototype)
  ∧ (checkCircularTransactions txs = JS.returned 25%Z
     ↔ (∀ tx, tx ∈ txs → ¬ counterparty tx ∈ JS.objectPrototype)
       ∧ ∃ inc out,
           inc ∈ txs ∧ out ∈ txs
           ∧ type inc = incoming ∧ type out = outgoing
           ∧ counterparty inc = counterparty out ∧ counterparty inc ≠ ""
           ∧ (abs (timestamp inc - timestamp out) <? 86400000)%float = true
           ∧ (abs (amount inc - amount out) <? 0.0001)%float = true)
  ∧ (∀ v, checkCircularTransactions txs = JS.returned v → v = 0%Z ∨ v = 25%Z).
Proof.
  assert (Hfound : circularFound (groupOwn txs) = true
                   ↔ ∃ inc out,
                       inc ∈ txs ∧ out ∈ txs
                       ∧ type inc = incoming ∧ type out = outgoing
                       ∧ counterparty inc = counterparty out ∧ counterparty inc ≠ ""
                       ∧ (abs (timestamp inc - timestamp out) <? 86400000)%float = true
                       ∧ (abs (amount inc - amount out) <? 0.0001)%float = true).
  { rewrite circular_found.
    split; intros (inc & out & ? & ? & ? & ? & ? & ? & Hpair); exists inc, out;
      split_and!; try assumption; by apply circularPair_thresholds. }
  rewrite checkCircularTransactions_outcome.
  rewrite <- anyInherited_elem, <- anyInherited_none, <- Hfound.
  destruct (anyInherited txs), (circularFound (groupOwn txs));
    (split_and!; [split; (done || by intros []) | split; (done || by intros []) |]);
    intros v [= <-]; auto.
Qed.

(** *** The order of the transactions *)

Lemma existsb_perm {A} (f : A → bool) (l l' : list A) :
  l ≡ₚ l' → existsb f l = existsb f l'.
Proof.
  intros Hperm.
  destruct (existsb f l) eqn:Hl, (existsb f l') eqn:Hl'; try reflexivity.
  - apply existsb_elem in Hl as (x & Hx & Hf). rewrite Hperm in Hx.
    rewrite <- Hl'. symmetry. apply existsb_elem. eauto.
  - apply existsb_elem in Hl' as (x & Hx & Hf). rewrite <- Hperm in Hx.
    rewrite <- Hl. apply existsb_elem. eauto.
Qed.

Lemma countOf_perm ty c (txs txs' : list Transaction) :
  txs ≡ₚ txs' → countOf ty c txs = countOf ty c txs'.
Proof. intros Hperm. unfold countOf. by rewrite Hperm. Qed.

(** X3. Nine evaluators do not depend on the order of the transactions:
    listing the same transactions in another order leaves highFrequency (for
    the same clock reading), mixerUsage, scamContract, abnormalGas,
    receivedFromBlacklist, sentToBlacklist, largeInflowOutflow, washTrading
    and circularTransactions unchanged ([checkCircularTransactions] throws in
    one order exactly when it throws in the other). *)
Theorem evaluators_ignore_order (txs txs' : list Transaction)
    (clock : nat → float) (k : nat) :
  txs ≡ₚ txs' →
  (checkHighFrequency txs clock k).1 = (checkHighFrequency txs' clock k).1
  ∧ checkMixerUsage txs = checkMixerUsage txs'
  ∧ checkScamContractInteraction txs = checkScamContractInteraction txs'
  ∧ checkAbnormalGas txs = checkAbnormalGas txs'
  ∧ checkReceivedFromBlacklist txs = checkReceivedFromBlacklist txs'
  ∧ checkSentToBlacklist txs = checkSentToBlacklist txs'
  ∧ checkLargeInflowOutflow txs = checkLargeInflowOutflow txs'
  ∧ checkWashTrading txs = checkWashTrading txs'
  ∧ checkCircularTransactions txs = checkCircularTransactions txs'.
Proof.
  intros Hperm. split_and!.
  - unfold checkHighFrequency, mbind, eff_bind, Clock.bind, Clock.now, mret,
      eff_ret, Clock.ret. cbn [fst].
    assert (Hlen : ∀ P : Transaction → Prop, ∀ Hdec : (∀ t, Decision (P t)),
              length (filter P txs) = length (filter P txs'))
      by (intros P Hdec; by rewrite Hperm).
    rewrite Hlen. reflexivity.
  - unfold checkMixerUsage. by rewrite (existsb_perm _ _ _ Hperm).
  - unfold checkScamContractInteraction. by rewrite (existsb_perm _ _ _ Hperm).
  - unfold checkAbnormalGas. by rewrite (existsb_perm _ _ _ Hperm).
  - unfold checkReceivedFromBlacklist. by rewrite (existsb_perm _ _ _ Hperm).
  - unfold checkSentToBlacklist. by rewrite (existsb_perm _ _ _ Hperm).
  - unfold checkLargeInflowOutflow. by rewrite (existsb_perm _ _ _ Hperm).
  - unfold checkWashTrading. cbv zeta.
    match goal with
    | |- (if ?e then _ else _) = (if ?e' then _ else _) =>
        replace e with e'; [reflexivity|]
    end.
    apply eq_true_iff_eq. rewrite !washTrading_suspicious.
    split; intros (c & Hc & Hfree & Hin & Hout); exists c.
    + by rewrite !(countOf_perm _ c _ _ Hperm).
    + by rewrite <- !(countOf_perm _ c _ _ Hperm).
  - rewrite !checkCircularTransactions_outcome.
    unfold anyInherited. rewrite (existsb_perm _ _ _ Hperm).
    replace (circularFound (groupOwn txs)) with (circularFound (groupOwn txs'));
      [reflexivity|].
    apply eq_true_iff_eq. rewrite !circular_found.
    split; intros (inc & out & Hinc & Hout & Hrest); exists inc, out.
    + rewrite Hperm. auto.
    + rewrite <- Hperm. auto.
Qed.

Lemma evaluators_ignore_order_witness :
  reverse (transactions busyWallet) ≡ₚ transactions busyWallet
  ∧ checkWashTrading (reverse (transactions busyWallet))
    = checkWashTrading (transactions busyWallet).
Proof.
  split; [apply reverse_Permutation|].
  apply (evaluators_ignore_order (reverse (transactions busyWallet))
           (transactions busyWallet) (λ _, 1700000000000%float) 0).
  apply reverse_Permutation.
Defined.

(** *** Timestamps that are not numbers

    [Date.parse] answers NaN on a date it cannot read, and
    [fetchWalletTransfers] stores it as it is. *)

Lemma earliest_nan init txs : is_nan init = true → earliest init txs = init.
Proof.
  intros Hnan. unfold earliest.
  induction txs as [|tx txs IH]; cbn [foldl]; [reflexivity|].
  unfold JS.lt at 1. rewrite (ltb_nan_r _ _ Hnan). exact IH.
Qed.

Lemma earliest_skips_nan init txs :
  earliest init txs
  = earliest init (filter (λ t, is_nan (timestamp t) = false) txs).
Proof.
  unfold earliest. revert init.
  induction txs as [|tx txs IH]; intros init; cbn [foldl]; [reflexivity|].
  destruct (is_nan (timestamp tx)) eqn:Hnan.
  - rewrite filter_cons_False by (rewrite Hnan; discriminate).
    unfold JS.lt at 1. rewrite (ltb_nan_l _ _ Hnan). apply IH.
  - rewrite filter_cons_True by exact Hnan. cbn [foldl]. apply IH.
Qed.

(** X4. [checkWalletAge] and timestamps that are NaN.  When the first
    transaction of the list has a NaN timestamp the wallet is never taken for
    a young one: the contribution is 0 whatever the other transactions.  A NaN
    timestamp anywhere after the first is skipped: the contribution is the one
    of the list without these transactions. *)
Theorem walletAge_and_nan_timestamps :
  (∀ (m : Metrics) (tx0 : Transaction) (rest : list Transaction)
     (clock : nat → float) (k : nat),
     is_nan (timestamp tx0) = true →
     (checkWalletAge m (tx0 :: rest) clock k).1 = 0%Z)
  ∧ (∀ (m : Metrics) (tx0 : Transaction) (rest : list Transaction)
       (clock : nat → float) (k : nat),
       (checkWalletAge m (tx0 :: rest) clock k).1
       = (checkWalletAge m
            (tx0 :: filter (λ t, is_nan (timestamp t) = false) rest) clock k).1).
Proof.
  split.
  - intros m tx0 rest clock k Hnan.
    unfold checkWalletAge, mbind, eff_bind, Clock.bind, Clock.now, mret, eff_ret,
      Clock.ret. cbn [fst].
    rewrite (earliest_nan _ _ Hnan). unfold JS.lt.
    rewrite ltb_nan_l; [reflexivity|]. apply div_nan_l, sub_nan_r, Hnan.
  - intros m tx0 rest clock k.
    unfold checkWalletAge, mbind, eff_bind, Clock.bind, Clock.now, mret, eff_ret,
      Clock.ret. cbn [fst].
    assert (Hfirst : ∀ l, earliest (timestamp tx0) (tx0 :: l)
                          = earliest (timestamp tx0) l).
    { intros l. unfold earliest. cbn [foldl].
      by destruct (JS.lt (timestamp tx0) (timestamp tx0)). }
    rewrite !Hfirst, (earliest_skips_nan _ rest). reflexivity.
Qed.

(** The transfer of [inflowTx], stamped by a date that could not be read. *)
Lemma walletAge_and_nan_timestamps_witness :
  is_nan (timestamp (inflowTx nan)) = true
  ∧ (checkWalletAge (metrics (inflowWallet nan))
       [inflowTx nan; inflowTx 1699740800000] (λ _, 1700000000000%float) 0).1 = 0%Z.
Proof.
  split; [reflexivity|].
  apply (proj1 walletAge_and_nan_timestamps). reflexivity.
Defined.

(** *** The lists shipped with the source *)

Lemma bound_of_range (v w : Z) : (v = 0 ∨ v = w)%Z → (0 ≤ w)%Z → (v ≤ w)%Z.
Proof. lia. Qed.

(** Twelve transfers with one counterparty, six in and six out, all a second
    before the clock reading and burning 2,000,000 gas; eleven of 20,000 and
    one of 1,000,000; the metrics count 201 transactions. *)
Definition stormTx (ty : TxType) (amt : float) : Transaction :=
  {| hash := "0x1"; type := ty; token := "ETH"; amount := amt;
     counterparty := "0xfeed"; timestamp := 1699999999000; gasUsed := 2000000;
     contractAddress := None; from := None; to := None |}.

Definition stormWallet : WalletData :=
  {| address := "0xabc";
     transactions := stormTx incoming 1000000
                     :: replicate 5 (stormTx incoming 20000)
                     ++ replicate 6 (stormTx outgoing 20000);
     tokenBalances := [];
     metrics := {| totalTransactions := 201; totalGasSpent := "0";
                   uniqueCounterparties := 1; activeDays := 1;
                   contractsInteracted := 1 |};
     riskScore := 0; riskLevel := low; contractsInteractedList := [];
     riskBreakdown := None |}.

Example stormWallet_aggregate {engine : Engine} :
  ∃ r, Clock.run (aggregateRiskFactors stormWallet) (λ _, 1700000000000%float) 0
       = JS.returned r
       ∧ score r = 140%Z.
Proof. eexists. split; [by vm_compute|reflexivity]. Qed.

Lemma list_factors_zero (txs : list Transaction) (tbs : list TokenBalance) :
  checkMixerUsage txs = 0%Z
  ∧ checkScamContractInteraction txs = 0%Z
  ∧ checkReceivedFromBlacklist txs = 0%Z
  ∧ checkSentToBlacklist txs = 0%Z
  ∧ checkScamTokens tbs = 0%Z.
Proof.
  unfold checkMixerUsage, checkScamContractInteraction, checkReceivedFromBlacklist,
    checkSentToBlacklist, checkScamTokens.
  rewrite !existsb_none; [auto| | | | |]; intros x _; cbn; try reflexivity;
    apply andb_false_r.
Qed.

(** X5. The four lists of known addresses and tokens are empty in the source,
    so five factors never fire, whatever the wallet: mixerUsage, scamContract,
    receivedFromBlacklist, sentToBlacklist and scamTokens are always 0.  A
    score that [aggregateRiskFactors] returns is therefore at most 140, and
    some wallet reaches 140. *)
Theorem shipped_lists_cap_score {engine : Engine} :
  (∀ (txs : list Transaction) (tbs : list TokenBalance),
     checkMixerUsage txs = 0%Z
     ∧ checkScamContractInteraction txs = 0%Z
     ∧ checkReceivedFromBlacklist txs = 0%Z
     ∧ checkSentToBlacklist txs = 0%Z
     ∧ checkScamTokens tbs = 0%Z)
  ∧ (∀ (wd : WalletData) (clock : nat → float) (k : nat) (r : Aggregate),
       Clock.run (aggregateRiskFactors wd) clock k = JS.returned r →
       (score r ≤ 140)%Z)
  ∧ (∃ (wd : WalletData) (clock : nat → float) (r : Aggregate),
       Clock.run (aggregateRiskFactors wd) clock 0 = JS.returned r
       ∧ score r = 140%Z).
Proof.
  split_and!; [exact list_factors_zero| |].
  - intros wd clock k r (circular & Hcircular & ->)%aggregate_returned.
    cbv zeta. cbn [score].
    rewrite sumValues_total. unfold entries.
    destruct (list_factors_zero (transactions wd) (tokenBalances wd))
      as (-> & -> & -> & -> & ->).
    pose proof (checkHighFrequency_range (transactions wd) clock k) as H1.
    pose proof (checkWalletAge_range (metrics wd) (transactions wd) clock (S k)) as H2.
    pose proof (checkAbnormalGas_range (transactions wd)) as H3.
    pose proof (checkLargeInflowOutflow_range (transactions wd)) as H4.
    pose proof (checkTotalTransactions_range (metrics wd)) as H5.
    pose proof (checkWashTrading_range (transactions wd)) as H6.
    pose proof (checkCircularTransactions_range _ _ Hcircular) as H7.
    pose proof (checkAnomalies_range (transactions wd)) as H8.
    cbv zeta in H1, H2. unfold total. cbn [foldr snd].
    unfold checkFaucetOnly, checkSocialLinks, checkOGNFTs.
    assert (B1 := bound_of_range _ 20 H1 ltac:(lia)). assert (B2 := bound_of_range _ 20 H2 ltac:(lia)).
    assert (B3 := bound_of_range _ 10 H3 ltac:(lia)). assert (B4 := bound_of_range _ 15 H4 ltac:(lia)).
    assert (B5 := bound_of_range _ 10 H5 ltac:(lia)). assert (B6 := bound_of_range _ 25 H6 ltac:(lia)).
    assert (B7 := bound_of_range _ 25 H7 ltac:(lia)). assert (B8 := bound_of_range _ 15 H8 ltac:(lia)).
    lia.
  - destruct stormWallet_aggregate as (r & Hr & Hscore).
    exists stormWallet, (λ _, 1700000000000%float), r. auto.
Qed.

Lemma shipped_lists_cap_score_witness :
  ∃ r, Clock.run (aggregateRiskFactors (engine := referenceEngine) stormWallet)
                 (λ _, 1700000000000%float) 0 = JS.returned r
       ∧ (score r ≤ 140)%Z.
Proof.
  destruct (stormWallet_aggregate (engine := referenceEngine)) as (r & Hr & _).
  exists r. split; [exact Hr|].
  exact (proj1 (proj2 (shipped_lists_cap_score (engine := referenceEngine)))
               stormWallet (λ _, 1700000000000%float) 0 r Hr).
Defined.

(** *** More transactions *)

Lemma filter_submseteq {A} (P : A → Prop) `{!∀ x, Decision (P x)} (l l' : list A) :
  l ⊆+ l' → filter P l ⊆+ filter P l'.
Proof.
  induction 1 as [|x l1 l2 _ IH|x y l|x l1 l2 _ IH|l1 l2 l3 _ IH1 _ IH2].
  - reflexivity.
  - rewrite !filter_cons. destruct (decide (P x)); [by apply submseteq_skip|exact IH].
  - rewrite !filter_cons. destruct (decide (P x)), (decide (P y));
      try reflexivity. apply submseteq_swap.
  - rewrite filter_cons. destruct (decide (P x)); [by apply submseteq_cons|exact IH].
  - by etransitivity.
Qed.

Lemma existsb_submseteq {A} (f : A → bool) (l l' : list A) :
  l ⊆+ l' → existsb f l = true → existsb f l' = true.
Proof.
  intros Hsub. rewrite !existsb_elem. intros (x & Hx & Hf). exists x.
  split; [by eapply elem_of_submseteq|exact Hf].
Qed.

Lemma flag_le (b b' : bool) (w : Z) :
  (0 ≤ w)%Z → (b = true → b' = true) →
  ((if b then w else 0) ≤ (if b' then w else 0))%Z.
Proof. intros Hw Hb. destruct b; [by rewrite Hb|destruct b'; lia]. Qed.

(** The young wallet of [inflowWallet], and a transfer made long before. *)
Definition oldTx : Transaction :=
  {| hash := "0x0"; type := incoming; token := "ETH"; amount := 1;
     counterparty := "0xfeed"; timestamp := 1500000000000; gasUsed := 0;
     contractAddress := None; from := None; to := None |}.

(** X15. More transactions never lower five of the contributions: when every
    transaction of one list is in another, as many times at least,
    highFrequency (for the same clock reading), abnormalGas,
    largeInflowOutflow and washTrading are at least as high on the larger
    list; and when [checkCircularTransactions] returns on the larger list, it
    returns on the smaller one too, and no more.  walletAge is not so: one
    more transaction, an old one, takes its 20 points away. *)
Theorem more_transactions_never_lower :
  (∀ (txs txs' : list Transaction) (clock : nat → float) (k : nat),
     txs ⊆+ txs' →
     ((checkHighFrequency txs clock k).1 ≤ (checkHighFrequency txs' clock k).1)%Z
     ∧ (checkAbnormalGas txs ≤ checkAbnormalGas txs')%Z
     ∧ (checkLargeInflowOutflow txs ≤ checkLargeInflowOutflow txs')%Z
     ∧ (checkWashTrading txs ≤ checkWashTrading txs')%Z
     ∧ (∀ v' : Z, checkCircularTransactions txs' = JS.returned v' →
          ∃ v : Z, checkCircularTransactions txs = JS.returned v ∧ (v ≤ v')%Z))
  ∧ (∃ (m : Metrics) (txs : list Transaction) (tx : Transaction)
       (clock : nat → float),
       (checkWalletAge m txs clock 0).1 = 20%Z
       ∧ (checkWalletAge m (txs ++ [tx]) clock 0).1 = 0%Z).
Proof.
  split.
  - intros txs txs' clock k Hsub. split_and!.
    + unfold checkHighFrequency, mbind, eff_bind, Clock.bind, Clock.now, mret,
        eff_ret, Clock.ret. cbn [fst].
      pose proof (submseteq_length _ _
        (filter_submseteq
           (λ tx, Is_true (JS.gt (timestamp tx) (clock k - 60 * 60 * 1000)%float))
           txs txs' Hsub)) as Hlen.
      repeat case_decide; lia.
    + unfold checkAbnormalGas. apply flag_le; [lia|]. by apply existsb_submseteq.
    + unfold checkLargeInflowOutflow. apply flag_le; [lia|].
      by apply existsb_submseteq.
    + unfold checkWashTrading. cbv zeta. apply flag_le; [lia|].
      rewrite !washTrading_suspicious. intros (c & Hc & Hfree & Hin & Hout).
      exists c. split_and!; [exact Hc|exact Hfree| |].
      * eapply Nat.lt_le_trans; [exact Hin|].
        apply submseteq_length, filter_submseteq, Hsub.
      * eapply Nat.lt_le_trans; [exact Hout|].
        apply submseteq_length, filter_submseteq, Hsub.
    + intros v'. rewrite !checkCircularTransactions_outcome.
      destruct (anyInherited txs') eqn:Hinh'; [discriminate|]. intros [= <-].
      assert (Hinh : anyInherited txs = false).
      { apply not_true_iff_false. intros Hinh. apply not_true_iff_false in Hinh'.
        apply Hinh'. revert Hinh. by apply existsb_submseteq. }
      rewrite Hinh. eexists. split; [reflexivity|].
      apply flag_le; [lia|]. rewrite !circular_found.
      intros (inc & out & Hinc & Hout & Hrest). exists inc, out.
      split; [by eapply elem_of_submseteq|].
      split; [by eapply elem_of_submseteq|exact Hrest].
  - exists (metrics (inflowWallet 1699999999000)), [inflowTx 1699999999000], oldTx,
      (λ _, 1700000000000%float).
    by vm_compute.
Qed.

Lemma more_transactions_never_lower_witness :
  [inflowTx 1699999999000] ⊆+ [oldTx; inflowTx 1699999999000]
  ∧ (checkLargeInflowOutflow [inflowTx 1699999999000]
     ≤ checkLargeInflowOutflow [oldTx; inflowTx 1699999999000])%Z
  ∧ checkCircularTransactions [oldTx; inflowTx 1699999999000] = JS.returned 0%Z
  ∧ ∃ v : Z, checkCircularTransactions [inflowTx 1699999999000] = JS.returned v
             ∧ (v ≤ 0)%Z.
Proof.
  assert (Hsub : [inflowTx 1699999999000] ⊆+ [oldTx; inflowTx 1699999999000])
    by (apply submseteq_cons; reflexivity).
  assert (Hlarger : checkCircularTransactions [oldTx; inflowTx 1699999999000]
                    = JS.returned 0%Z) by (by vm_compute).
  split; [exact Hsub|].
  destruct (proj1 more_transactions_never_lower _ _ (λ _, 0%float) 0 Hsub)
    as (_ & _ & Hlarge & _ & Hcircular).
  split; [exact Hlarge|]. split; [exact Hlarger|].
  exact (Hcircular 0%Z Hlarger).
Defined.

(** *** The level of the wallet *)

(** The factors of a breakdown that contribute. *)
Definition firing (bd : list (string * Z)) : list (string * Z) :=
  filter (λ e, e.2 ≠ 0%Z) bd.

Lemma several_factors (a b c d e f g h : Z) :
  (a = 0 ∨ a = 20)%Z → (b = 0 ∨ b = 10)%Z → (c = 0 ∨ c = 15)%Z → (d = 0 ∨ d = 20)%Z →
  (e = 0 ∨ e = 10)%Z → (f = 0 ∨ f = 25)%Z → (g = 0 ∨ g = 25)%Z → (h = 0 ∨ h = 15)%Z →
  let bd := [ ("highFrequency", a); ("mixerUsage", 0); ("scamContract", 0);
              ("abnormalGas", b); ("receivedFromBlacklist", 0);
              ("sentToBlacklist", 0); ("faucetOnly", 0); ("scamTokens", 0);
              ("largeInflowOutflow", c); ("walletAge", d); ("totalTransactions", e);
              ("socialLinks", 0); ("ogNFTs", 0); ("washTrading", f);
              ("circularTransactions", g); ("anomalies", h) ]%Z in
  (levelOfScore (total bd) ≠ low → 2 ≤ length (firing bd))
  ∧ (levelOfScore (total bd) = high → 3 ≤ length (firing bd)).
Proof.
  intros [-> | ->] [-> | ->] [-> | ->] [-> | ->] [-> | ->] [-> | ->] [-> | ->] [-> | ->];
    vm_compute;
    (split; [intros H; try (by destruct H); lia|intros H; try discriminate; lia]).
Qed.

(** X16. No single factor changes the level of a wallet.  With the lists the
    source ships, the level [handleAnalyze] derives from a score that
    [aggregateRiskFactors] returns is above low only when at least two factors
    of the breakdown contribute, and is high only when at least three do; and
    some wallet is rated high. *)
Theorem level_needs_several_factors {engine : Engine} :
  (∀ (wd : WalletData) (clock : nat → float) (k : nat) (r : Aggregate),
     Clock.run (aggregateRiskFactors wd) clock k = JS.returned r →
     (levelOfScore (score r) ≠ low → 2 ≤ length (firing (breakdown r)))
     ∧ (levelOfScore (score r) = high → 3 ≤ length (firing (breakdown r))))
  ∧ (∃ (wd : WalletData) (clock : nat → float) (r : Aggregate),
       Clock.run (aggregateRiskFactors wd) clock 0 = JS.returned r
       ∧ levelOfScore (score r) = high).
Proof.
  split.
  - intros wd clock k r (circular & Hcircular & ->)%aggregate_returned. cbv zeta.
    cbn [score breakdown]. rewrite sumValues_total. unfold entries.
    destruct (list_factors_zero (transactions wd) (tokenBalances wd))
      as (-> & -> & -> & -> & ->).
    unfold checkFaucetOnly, checkSocialLinks, checkOGNFTs.
    apply several_factors.
    + apply checkHighFrequency_range.
    + apply checkAbnormalGas_range.
    + apply checkLargeInflowOutflow_range.
    + apply checkWalletAge_range.
    + apply checkTotalTransactions_range.
    + apply checkWashTrading_range.
    + eapply checkCircularTransactions_range, Hcircular.
    + apply checkAnomalies_range.
  - destruct stormWallet_aggregate as (r & Hr & Hscore).
    exists stormWallet, (λ _, 1700000000000%float), r.
    split; [exact Hr|]. by rewrite Hscore.
Qed.

Lemma level_needs_several_factors_witness :
  ∃ r, Clock.run (aggregateRiskFactors (engine := referenceEngine) stormWallet)
                 (λ _, 1700000000000%float) 0 = JS.returned r
       ∧ levelOfScore (score r) = high
       ∧ 3 ≤ length (firing (breakdown r)).
Proof.
  destruct (stormWallet_aggregate (engine := referenceEngine)) as (r & Hr & Hscore).
  assert (H : levelOfScore (score r) = high) by (by rewrite Hscore).
  exists r. split; [exact Hr|]. split; [exact H|].
  exact (proj2 (proj1 (level_needs_several_factors (engine := referenceEngine))
                      stormWallet (λ _, 1700000000000%float) 0 r Hr) H).
Defined.

(** *** When the aggregate returns *)

(** X19. [aggregateRiskFactors] returns exactly on the wallets none of whose
    transactions names its counterparty after a property that objects inherit
    ("constructor", "toString", "__proto__", ...), and throws on the others.
    What it returns is complete: its breakdown has one entry per registered
    evaluator, in the order of registration, zero entries included, and its
    score is the sum of the values of the breakdown. *)
Theorem aggregate_returns_complete_breakdown {engine : Engine}
    (clock : nat → float) (k : nat) (wd : WalletData) :
  ((∃ r, Clock.run (aggregateRiskFactors wd) clock k = JS.returned r)
   ↔ ∀ tx, tx ∈ transactions wd → ¬ counterparty tx ∈ JS.objectPrototype)
  ∧ (Clock.run (aggregateRiskFactors wd) clock k = JS.raised
     ↔ ∃ tx, tx ∈ transactions wd ∧ counterparty tx ∈ JS.objectPrototype)
  ∧ ∀ r, Clock.run (aggregateRiskFactors wd) clock k = JS.returned r →
         (breakdown r).*1 = registered.*1
         ∧ NoDup (breakdown r).*1
         ∧ length (breakdown r) = 16
         ∧ score r = total (breakdown r).
Proof.
  split_and!.
  - rewrite <- anyInherited_none, aggregate_run, checkCircularTransactions_outcome.
    destruct (anyInherited _); split; (done || eauto || by intros []).
  - rewrite <- anyInherited_elem, aggregate_run, checkCircularTransactions_outcome.
    destruct (anyInherited _); split; done.
  - intros r Hr.
    pose proof (binary_keys _ _ (aggregate_binary wd clock k r Hr)) as Hkeys.
    split_and!.
    + exact Hkeys.
    + rewrite Hkeys. apply registered_keys_NoDup.
    + rewrite <- (length_fmap fst), Hkeys. reflexivity.
    + by eapply aggregate_score.
Qed.

Lemma aggregate_returns_complete_breakdown_witness :
  ∃ r, Clock.run (aggregateRiskFactors (engine := referenceEngine) busyWallet)
                 (λ _, 1700000000000%float) 0 = JS.returned r
       ∧ length (breakdown r) = 16
       ∧ score r = total (breakdown r).
Proof.
  pose proof (busyWallet_aggregate (engine := referenceEngine)) as Hr.
  eexists. split; [exact Hr|].
  destruct (proj2 (proj2 (aggregate_returns_complete_breakdown
                            (engine := referenceEngine)
                            (λ _, 1700000000000%float) 0 busyWallet)) _ Hr)
    as (_ & _ & Hlen & Hscore).
  split; [exact Hlen|exact Hscore].
Defined.

(** X20. Every entry of a breakdown that [aggregateRiskFactors] returns is
    either 0 or the weight of its evaluator, so a returned score lies between
    0 and 300, the sum of the registered weights. *)
Theorem returned_score_within_weights {engine : Engine}
    (clock : nat → float) (k : nat) (wd : WalletData) (r : Aggregate) :
  Clock.run (aggregateRiskFactors wd) clock k = JS.returned r →
  Forall2 binaryEntry (breakdown r) registered
  ∧ (0 ≤ score r ≤ total registered)%Z
  ∧ total registered = 300%Z.
Proof.
  intros Hr. split; [by eapply aggregate_binary|].
  rewrite (aggregate_score _ _ _ _ Hr). split; [|reflexivity].
  exact (binary_total_bounds _ _ (aggregate_binary wd clock k r Hr) registered_nonneg).
Qed.

Lemma returned_score_within_weights_witness :
  ∃ r, Clock.run (aggregateRiskFactors (engine := referenceEngine) busyWallet)
                 (λ _, 1700000000000%float) 0 = JS.returned r
       ∧ (0 ≤ score r ≤ 300)%Z.
Proof.
  pose proof (busyWallet_aggregate (engine := referenceEngine)) as Hr.
  eexists. split; [exact Hr|].
  destruct (returned_score_within_weights (engine := referenceEngine)
              (λ _, 1700000000000%float) 0 busyWallet _ Hr) as (_ & Hrange & _).
  exact Hrange.
Defined.

End RiskFactorsExtra.

(** ** Threat intelligence ([app/threat-intelligence-config.ts]) *)

Module ThreatIntel.

Inductive Risk : Set := low | medium | high | critical.

#[global] Instance Risk_eq_dec : EqDecision Risk.
Proof. solve_decision. Defined.

Record ThreatLevel : Type := {
  risk : Risk;
  categories : list string;
  confidence : float;
  lastUpdated : float;
  sources : list string
}.

(** [Partial<ThreatLevel>]: every field may be absent. *)
Record PartialThreatLevel : Type := {
  risk' : option Risk;
  categories' : option (list string);
  confidence' : option float;
  lastUpdated' : option float;
  sources' : option (list string)
}.

(** [PromiseSettledResult<T>]; the reason of a rejection is never read. *)
Inductive Settled (T : Type) : Type :=
  | fulfilled (value : T)
  | rejected.
Arguments fulfilled {T} value.
Arguments rejected {T}.

(** *** The providers

    What the network answers is an input: the outcome of the one [fetch] the
    class issues, and the fields read from its JSON body. *)

Record ChainalysisData : Type := {
  dataRisk : option string;
  dataCategories : option (list string);
  dataConfidence : option float
}.

Inductive FetchOutcome : Type :=
  | networkError
  | response (ok : bool) (data : option ChainalysisData).

Definition mapChainalysisRisk (risk : option string) : Risk :=
  match JS.toLowerCase <$> risk with
  | Some "severe" => critical
  | Some "high" => high
  | Some "medium" => medium
  | _ => low
  end.

Definition checkChainalysis (apiKey : option string) (net : FetchOutcome)
    (address : string) : Settled PartialThreatLevel :=
  if negb (JS.truthyStr (JS.orElseStr apiKey "")) then rejected
  else match net with
       | networkError => rejected
       | response false _ => rejected
       | response true None => rejected
       | response true (Some data) =>
           fulfilled {| risk' := Some (mapChainalysisRisk (dataRisk data));
                        categories' := Some (default [] (dataCategories data));
                        confidence' := Some (JS.orElse (dataConfidence data) 0);
                        lastUpdated' := None;
                        sources' := Some ["Chainalysis"] |}
       end.

Definition checkElliptic (address : string) : Settled PartialThreatLevel :=
  fulfilled {| risk' := Some low; categories' := Some []; confidence' := Some 0.8%float;
               lastUpdated' := None; sources' := Some ["Elliptic"] |}.

Definition checkTRMLabs (address : string) : Settled PartialThreatLevel :=
  fulfilled {| risk' := Some low; categories' := Some []; confidence' := Some 0.9%float;
               lastUpdated' := None; sources' := Some ["TRM Labs"] |}.

Definition checkCommunityDatabase (address : string) : Settled PartialThreatLevel :=
  fulfilled {| risk' := Some low; categories' := Some []; confidence' := Some 0.7%float;
               lastUpdated' := None; sources' := Some ["Community DB"] |}.

(** *** The static fallback *)

Definition isHexNonZero (c : ascii) : bool :=
  let n := nat_of_ascii (JS.asciiLower c) in
  bool_decide (49 ≤ n ≤ 57) || bool_decide (97 ≤ n ≤ 102).

Fixpoint dropZeros (s : string) : string :=
  match s with
  | String "0" rest => dropZeros rest
  | _ => s
  end.

(** [/^0x0+[1-9a-f]/i]. *)
Definition manyZeros (address : string) : bool :=
  match address with
  | String "0" (String x (String "0" rest)) =>
      Ascii.eqb (JS.asciiLower x) "x"
      && match dropZeros rest with
         | String c _ => isHexNonZero c
         | EmptyString => false
         end
  | _ => false
  end.

(** [/^0x(dead|beef|cafe|babe)/i]. *)
Definition vanity (address : string) : bool :=
  match JS.toLowerCase address with
  | String "0" (String "x" (String a (String b (String c (String d _))))) =>
      let word := String a (String b (String c (String d EmptyString))) in
      bool_decide (word ∈ ["dead"; "beef"; "cafe"; "babe"])
  | _ => false
  end.

Definition staticRiskCheck (address : string) : Risk :=
  if existsb (λ pattern : string → bool, pattern address) [manyZeros; vanity]
  then medium else low.

Definition getFallbackThreatLevel (address : string) : Clock.Eff ThreatLevel :=
  now ← Clock.now;
  mret {| risk := staticRiskCheck address;
          categories := [];
          confidence := 0.3;
          lastUpdated := now;
          sources := ["Static Analysis"] |}.

(** *** The merge *)

(** The array of tiers reaches [getHighestRisk] as strings. *)
Definition getHighestRisk (risks : list Risk) : Risk :=
  if bool_decide (critical ∈ risks) then critical
  else if bool_decide (high ∈ risks) then high
  else if bool_decide (medium ∈ risks) then medium
  else low.

(** [arr.reduce((a, b) => a + b)] on an array that is not empty. *)
Definition sumLeft (arr : list float) : float :=
  match arr with
  | [] => nan
  | a :: rest => foldl add a rest
  end.

Definition validOf {T} (results : list (Settled T)) : list T :=
  omap (λ r, match r with fulfilled v => Some v | rejected => None end) results.

Definition aggregateThreatData (results : list (Settled PartialThreatLevel))
    (address : string) : Clock.Eff ThreatLevel :=
  let validResults := validOf results in
  if decide (length validResults = 0) then getFallbackThreatLevel address
  else
    let riskLevels := omap risk' validResults in
    let highestRisk := getHighestRisk riskLevels in
    let allCategories := validResults ≫= (λ r, default [] (categories' r)) in
    let uniqueCategories := JS.setOf allCategories in
    let confidences :=
      filter (λ c, Is_true (JS.gt c 0))
             ((λ r, JS.orElse (confidence' r) 0) <$> validResults) in
    let avgConfidence :=
      if decide (0 < length confidences)
      then (sumLeft confidences / JS.ofNat (length confidences))%float
      else 0%float in
    let allSources := validResults ≫= (λ r, default [] (sources' r)) in
    let uniqueSources := JS.setOf allSources in
    now ← Clock.now;
    mret {| risk := highestRisk;
            categories := uniqueCategories;
            confidence := avgConfidence;
            lastUpdated := now;
            sources := uniqueSources |}.

(** *** The lookup, with its cache *)

Record StarknetThreatIntelligence : Type := {
  apiKey : option string;
  cache : gmap string (ThreatLevel * float)
}.

Definition CACHE_TTL : float := (1000 * 60 * 60)%float.

Definition fetchThreatData (self : StarknetThreatIntelligence) (net : FetchOutcome) (address : string)
  : Clock.Eff ThreatLevel :=
  let results := [ checkChainalysis (apiKey self) net address;
                   checkElliptic address;
                   checkTRMLabs address;
                   checkCommunityDatabase address ] in
  aggregateThreatData results address.

(** [fetchThreatData] settles every provider and cannot fail, so the [catch]
    of [checkAddress] has nothing to catch. *)
Definition checkAddress (self : StarknetThreatIntelligence) (net : FetchOutcome) (address : string)
  : Clock.Eff (ThreatLevel * StarknetThreatIntelligence) :=
  let miss : Clock.Eff (ThreatLevel * StarknetThreatIntelligence) :=
    result ← fetchThreatData self net address;
    now ← Clock.now;
    mret (result,
          {| apiKey := apiKey self;
             cache := <[address := (result, (now + CACHE_TTL)%float)]> (cache self) |}) in
  match cache self !! address with
  | Some (data, expiry) =>
      now ← Clock.now;
      if JS.gt expiry now then mret (data, self) else miss
  | None => miss
  end.

(** *** The combined level ([EnhancedRiskAnalyzer]) *)

Definition mapThreatLevelToScore (risk : Risk) : float :=
  match risk with
  | critical => 80
  | high => 60
  | medium => 30
  | low => 0
  end.

Definition calculateOverallRiskLevel (score : float) (threatLevel : Risk) : Risk :=
  if bool_decide (threatLevel = critical) || JS.ge score 80 then critical
  else if bool_decide (threatLevel = high) || JS.ge score 60 then high
  else if JS.ge score 30 then medium
  else low.

End ThreatIntel.

(** ** The free-source analyzer ([FreeThreatAnalyzer]) *)

Module FreeThreat.
Import ThreatIntel.

(** An awaited network call either resolves with the fields the code reads
    from the JSON body, or fails (no answer, or a body that does not parse). *)
Inductive Outcome (T : Type) : Type :=
  | resolved (body : T)
  | failed.
Arguments resolved {T} body.
Arguments failed {T}.

Record AbuseBody : Type := {
  abuseConfidencePercentage : option float;
  usageType : option string
}.

Record ScamBody : Type := {
  is_scam : option bool;
  report_count : option float;
  last_reported : option string
}.

Record StarkscanBody : Type := {
  class_hash : option string;
  deployment_tx_hash : option string
}.

(** The world one call of [analyzeAddress] runs in. *)
Record Env : Type := {
  ipBlocklist : Outcome (list string);
  phishingDomains : Outcome (list string);
  darklist : Outcome (list string);
  ABUSEIPDB_API_KEY : option string;
  abuseipdb : Outcome AbuseBody;
  scamDatabase : Outcome ScamBody;
  starkscan : Outcome StarkscanBody
}.

(** *** [GitHubThreatIntelligence] *)

Record ThreatLists : Type := {
  maliciousIPs : list string;
  phishingList : list string;
  scamAddresses : list string
}.

(** [fetchScamAddresses] catches its own failure. *)
Definition fetchScamAddresses (env : Env) : list string :=
  match darklist env with
  | resolved keys => keys
  | failed => []
  end.

(** [Promise.all] fails as soon as one of the two unguarded fetches does, and
    [fetchThreatLists] then answers three empty lists. *)
Definition fetchThreatLists (env : Env) : ThreatLists :=
  match ipBlocklist env, phishingDomains env with
  | resolved ipList, resolved domainList =>
      {| maliciousIPs := ipList; phishingList := domainList;
         scamAddresses := fetchScamAddresses env |}
  | _, _ => {| maliciousIPs := []; phishingList := []; scamAddresses := [] |}
  end.

(** *** [FreeAPIThreatChecker] *)

Record AbuseCheck : Type := {
  isBlacklisted : bool;
  abuseConfidence : float;
  abuseCategories : list string
}.

Record ScamCheck : Type := {
  isScam : bool;
  reportCount : float;
  lastReported : option string
}.

Record Analyzer : Type := {
  abuseCache : gmap string (AbuseCheck * float)
}.

Definition ABUSE_CACHE_TTL : float := (1000 * 60 * 60 * 24)%float.

(** [None] is the exception thrown when no key is configured. *)
Definition checkWithAbuseIPDB (self : Analyzer) (env : Env) (address : string)
  : Clock.Eff (option AbuseCheck * Analyzer) :=
  if negb (JS.truthyStr (JS.orElseStr (ABUSEIPDB_API_KEY env) "")) then mret (None, self)
  else
    let cacheKey := "abuseipdb:" +:+ address in
    let miss : Clock.Eff (option AbuseCheck * Analyzer) :=
      match abuseipdb env with
      | resolved data =>
          let pct := JS.toNumber (abuseConfidencePercentage data) in
          let result :=
            {| isBlacklisted := JS.gt pct 50;
               abuseConfidence := (pct / 100)%float;
               abuseCategories :=
                 match usageType data with
                 | Some u => if JS.truthyStr u then [u] else []
                 | None => []
                 end |} in
          now ← Clock.now;
          mret (Some result,
                {| abuseCache :=
                     <[cacheKey := (result, (now + ABUSE_CACHE_TTL)%float)]>
                       (abuseCache self) |})
      | failed =>
          mret (Some {| isBlacklisted := false; abuseConfidence := 0;
                        abuseCategories := [] |}, self)
      end in
    match abuseCache self !! cacheKey with
    | Some (result, expiry) =>
        now ← Clock.now;
        if JS.gt expiry now then mret (Some result, self) else miss
    | None => miss
    end.

Definition checkWithScamDatabase (env : Env) (address : string) : ScamCheck :=
  match scamDatabase env with
  | resolved data =>
      {| isScam := default false (is_scam data);
         reportCount := JS.orElse (report_count data) 0;
         lastReported :=
           match last_reported data with
           | Some d => if JS.truthyStr d then Some d else None
           | None => None
           end |}
  | failed => {| isScam := false; reportCount := 0; lastReported := None |}
  end.

(** *** [BlockchainThreatIntelligence] *)

Record StarknetCheck : Type := {
  isContract : bool;
  classHash : option string;
  deploymentTx : option string
}.

Definition nonEmpty (s : option string) : option string :=
  match s with
  | Some v => if JS.truthyStr v then Some v else None
  | None => None
  end.

Definition checkStarknetAddress (env : Env) (address : string) : StarknetCheck :=
  match starkscan env with
  | resolved data =>
      {| isContract := bool_decide (is_Some (nonEmpty (class_hash data)));
         classHash := nonEmpty (class_hash data);
         deploymentTx := nonEmpty (deployment_tx_hash data) |}
  | failed => {| isContract := false; classHash := None; deploymentTx := None |}
  end.

(** *** [FreeThreatAnalyzer] *)

(** The messages pushed on [findings], with the numbers they interpolate
    (the percentage is shown rounded). *)
Inductive Finding : Type :=
  | FoundInCommunityScamDatabase
  | FlaggedByAbuseIPDB (percent : float)
  | ReportedAsScam (reports : float)
  | UnverifiedContract
  | NoImmediateThreats
  | AnalysisFailed.

Record Verdict : Type := {
  riskScore : float;
  riskLevel : Risk;
  sources : list string;
  findings : list Finding;
  confidence : float
}.

Definition calculateRiskLevel (score : float) : Risk :=
  if JS.ge score 80 then critical
  else if JS.ge score 60 then high
  else if JS.ge score 30 then medium
  else low.

(** The four accumulators of [analyzeAddress]. *)
Record Tally : Type := {
  tFindings : list Finding;
  tSources : list string;
  totalRisk : float;
  tConfidence : float
}.

Definition note (t : Tally) (finding : Finding) (source : string) (risk conf : float)
  : Tally :=
  {| tFindings := tFindings t ++ [finding];
     tSources := tSources t ++ [source];
     totalRisk := (totalRisk t + risk)%float;
     tConfidence := (tConfidence t + conf)%float |}.

(** Every awaited call of the body catches its own failure, and
    [checkWithAbuseIPDB], which throws without a key, is called under a guard
    and inside a [try]: the outer [catch] is never entered. *)
Definition analyzeAddress (self : Analyzer) (env : Env) (address : string)
  : Clock.Eff (Verdict * Analyzer) :=
  let t0 := {| tFindings := []; tSources := []; totalRisk := 0; tConfidence := 0 |} in
  let threatLists := fetchThreatLists env in
  let t1 :=
    if JS.includes (scamAddresses threatLists) (JS.toLowerCase address)
    then note t0 FoundInCommunityScamDatabase "GitHub Community Lists" 60 0.7
    else t0 in
  '(t2, self') ←
    (if JS.truthyStr (JS.orElseStr (ABUSEIPDB_API_KEY env) "")
     then
       '(abuseCheck, self') ← checkWithAbuseIPDB self env address;
       mret (match abuseCheck with
             | Some check =>
                 if isBlacklisted check
                 then note t1 (FlaggedByAbuseIPDB (abuseConfidence check * 100))
                           "AbuseIPDB" (abuseConfidence check * 50) 0.8
                 else t1
             | None => t1
             end, self')
     else mret (t1, self));
  let scamCheck := checkWithScamDatabase env address in
  let t3 :=
    if isScam scamCheck
    then note t2 (ReportedAsScam (reportCount scamCheck)) "Scam Database"
              (JS.mathMin (reportCount scamCheck * 10) 40) 0.6
    else t2 in
  let starknetCheck := checkStarknetAddress env address in
  let t4 :=
    if isContract starknetCheck && negb (bool_decide (is_Some (classHash starknetCheck)))
    then note t3 UnverifiedContract "Starknet Explorer" 15 0.4
    else t3 in
  let avgConfidence :=
    if JS.gt (tConfidence t4) 0
    then (tConfidence t4 / JS.ofNat (length (tSources t4)))%float
    else 0.3%float in
  mret ({| riskScore := JS.mathMin (totalRisk t4) 100;
           riskLevel := calculateRiskLevel (totalRisk t4);
           sources := tSources t4;
           findings := if decide (0 < length (tFindings t4)) then tFindings t4
                       else [NoImmediateThreats];
           confidence := avgConfidence |},
        self').

(** Every network call of the analyzer fails. *)
Definition allFail (env : Env) : Prop :=
  ipBlocklist env = failed ∧ phishingDomains env = failed ∧ darklist env = failed
  ∧ abuseipdb env = failed ∧ scamDatabase env = failed ∧ starkscan env = failed.

End FreeThreat.

(** ** Properties of the threat-intelligence merge and of the combined level *)

Module ThreatSpec.
Import JSFacts ThreatIntel.

(** The ordering of the tiers: critical > high > medium > low. *)
Definition tierRank (r : Risk) : nat :=
  match r with
  | low => 0
  | medium => 1
  | high => 2
  | critical => 3
  end.

(** [t] is the highest of the tiers [ts]; with no tier at all it is [low]. *)
Definition highestOf (t : Risk) (ts : list Risk) : Prop :=
  (∀ t', t' ∈ ts → tierRank t' ≤ tierRank t) ∧ (t ∈ ts ∨ (ts = [] ∧ t = low)).

(** The rule of the design document for the combined level. *)
Definition combinedLevelRule (score : float) (tier : Risk) : Risk :=
  if decide (tier = critical ∨ JS.ge score 80) then critical
  else if decide (tier = high ∨ JS.ge score 60) then high
  else if decide (Is_true (JS.ge score 30)) then medium
  else low.

(** The providers that succeeded: the values of the results that are
    fulfilled, in the order of the results. *)
Fixpoint succeeded {T} (results : list (Settled T)) : list T :=
  match results with
  | [] => []
  | fulfilled value :: rest => value :: succeeded rest
  | rejected :: rest => succeeded rest
  end.

(** The confidences that count: those of the providers that reported one, and
    reported it strictly positive. *)
Definition positiveConfidences (providers : list PartialThreatLevel) : list float :=
  omap (λ r, match confidence' r with
             | Some c => if (0 <? c)%float then Some c else None
             | None => None
             end) providers.

(** The sum of a list of numbers: each is added, in turn, to what the ones
    before it add up to, starting from zero. *)
Fixpoint sumFrom (acc : float) (cs : list float) : float :=
  match cs with
  | [] => acc
  | c :: rest => sumFrom (acc + c)%float rest
  end.

(** The arithmetic mean: the sum divided by the count. *)
Definition mean (cs : list float) : float :=
  (sumFrom 0 cs / JS.ofNat (length cs))%float.

(** [l] is the union of the lists [f r], without duplicates. *)
Definition unionOf {A} (l : list string) (f : A → option (list string)) (rs : list A)
  : Prop :=
  NoDup l ∧ ∀ x, x ∈ l ↔ ∃ r xs, r ∈ rs ∧ f r = Some xs ∧ x ∈ xs.

(** *** The unions *)

Lemma setOf_union {A} (f : A → option (list string)) (rs : list A) :
  unionOf (JS.setOf (rs ≫= (λ r, default [] (f r)))) f rs.
Proof.
  split; [apply setOf_NoDup|]. intros x. rewrite setOf_elem, list_elem_of_bind.
  split.
  - intros (r & Hx & Hr). destruct (f r) as [xs|] eqn:Hf; cbn in Hx.
    + eauto.
    + apply elem_of_nil in Hx as [].
  - intros (r & xs & Hr & Hf & Hx). exists r. rewrite Hf. auto.
Qed.

(** *** The merge *)

Lemma getHighestRisk_highest ts : highestOf (getHighestRisk ts) ts.
Proof.
  unfold getHighestRisk, highestOf.
  repeat case_bool_decide.
  - split; [|auto]. intros t' _. destruct t'; cbn; lia.
  - split; [|auto]. intros t' Ht'. destruct t'; cbn; try lia. contradiction.
  - split; [|auto]. intros t' Ht'. destruct t'; cbn; try lia; contradiction.
  - split.
    + intros t' Ht'. destruct t'; cbn; try lia; contradiction.
    + destruct ts as [|t ts]; [auto|]. left.
      destruct t; [left|..]; exfalso; auto using list_elem_of_here.
Qed.

Lemma confidences_positive valid :
  filter (λ c, Is_true (JS.gt c 0)) ((λ r, JS.orElse (confidence' r) 0) <$> valid)
  = positiveConfidences valid.
Proof.
  unfold positiveConfidences. induction valid as [|r valid IH]; [reflexivity|].
  cbn [fmap list_fmap omap list_omap].
  pose proof (orElse_positive (confidence' r)) as Hpos.
  destruct (confidence' r) as [c|] eqn:Hc.
  - change (0 <? c)%float with (JS.gt c 0). destruct (JS.gt c 0) eqn:Hgt.
    + rewrite filter_cons_True by (rewrite Hpos; exact I).
      rewrite IH. f_equal. unfold JS.orElse.
      destruct (JS.truthy c) eqn:Ht; [reflexivity|].
      rewrite (falsy_not_positive c Ht) in Hgt. discriminate.
    + rewrite filter_cons_False by (rewrite Hpos; exact id). exact IH.
  - rewrite filter_cons_False by (rewrite Hpos; exact id). exact IH.
Qed.

Lemma validOf_succeeded {T} (results : list (Settled T)) :
  validOf results = succeeded results.
Proof.
  unfold validOf. induction results as [|[value|] results IH]; cbn; by rewrite ?IH.
Qed.

Lemma positiveConfidences_positive providers c :
  c ∈ positiveConfidences providers → (0 <? c)%float = true.
Proof.
  unfold positiveConfidences. rewrite list_elem_of_omap.
  intros (r & _ & Hr). destruct (confidence' r) as [c'|]; [|discriminate].
  destruct (0 <? c')%float eqn:Hpos; [|discriminate]. by injection Hr as <-.
Qed.

(** Adding a positive number to zero leaves the number. *)
Lemma add_zero_positive (c : float) : (0 <? c)%float = true → (0 + c)%float = c.
Proof.
  intros Hpos. apply Prim2SF_inj. rewrite add_spec.
  rewrite ltb_spec in Hpos. change (Prim2SF 0) with (S754_zero false) in *.
  destruct (Prim2SF c) as [[]| | |]; (reflexivity || discriminate).
Qed.

(** [reduce] without an initial value starts from the first number; the sum
    started from zero is the same when the first number is positive. *)
Lemma sumLeft_sumFrom (cs : list float) :
  cs ≠ [] → (∀ c, c ∈ cs → (0 <? c)%float = true) → sumLeft cs = sumFrom 0 cs.
Proof.
  destruct cs as [|c cs]; [done|]. intros _ Hpos. cbn [sumLeft sumFrom].
  rewrite add_zero_positive by (apply Hpos; left).
  clear Hpos. revert c.
  induction cs as [|c' cs IH]; intros acc; [reflexivity|]. cbn. apply IH.
Qed.

Lemma aggregateThreatData_merge results address clock k :
  validOf results ≠ [] →
  Clock.run (aggregateThreatData results address) clock k
  = let valid := validOf results in
    let cs := positiveConfidences valid in
    {| risk := getHighestRisk (omap risk' valid);
       categories := JS.setOf (valid ≫= (λ r, default [] (categories' r)));
       confidence := if decide (0 < length cs)
                     then (sumLeft cs / JS.ofNat (length cs))%float else 0%float;
       lastUpdated := clock k;
       sources := JS.setOf (valid ≫= (λ r, default [] (sources' r))) |}.
Proof.
  intros Hvalid. unfold aggregateThreatData. cbv zeta.
  rewrite decide_False by (destruct (validOf results); [done|cbn; lia]).
  rewrite confidences_positive. reflexivity.
Qed.

Lemma aggregateThreatData_fallback results address clock k :
  validOf results = [] →
  Clock.run (aggregateThreatData results address) clock k
  = {| risk := staticRiskCheck address; categories := []; confidence := 0.3;
       lastUpdated := clock k; sources := ["Static Analysis"] |}.
Proof.
  intros Hvalid. unfold aggregateThreatData. cbv zeta. rewrite Hvalid. reflexivity.
Qed.

Lemma if_decide_or {A} (P : Prop) `{!Decision P} (b : bool) (x y : A) :
  (if decide (P ∨ b) then x else y) = if bool_decide P || b then x else y.
Proof.
  destruct (decide (P ∨ b)) as [Hor|Hnor].
  - destruct Hor as [HP|Hb].
    + rewrite (bool_decide_eq_true_2 _ HP). reflexivity.
    + destruct b; [|destruct Hb]. rewrite orb_true_r. reflexivity.
  - rewrite bool_decide_eq_false_2 by tauto.
    destruct b; [|reflexivity]. exfalso. apply Hnor. right. exact I.
Qed.

Lemma if_decide_bool {A} (b : bool) (x y : A) :
  (if decide (Is_true b) then x else y) = if b then x else y.
Proof. destruct b; reflexivity. Qed.

(** C3. The combined level follows the rule: critical if the tier is critical
    or the score is at least 80, otherwise high if the tier is high or the
    score is at least 60, otherwise medium if the score is at least 30,
    otherwise low.  A critical tier always yields critical and a high tier at
    least high, whatever the score; the score-only thresholds of
    [FreeThreatAnalyzer.calculateRiskLevel] are the same. *)
Theorem combined_level_follows_rule (score : float) (tier : Risk) :
  calculateOverallRiskLevel score tier = combinedLevelRule score tier
  ∧ calculateOverallRiskLevel score critical = critical
  ∧ tierRank high ≤ tierRank (calculateOverallRiskLevel score high)
  ∧ FreeThreat.calculateRiskLevel score = combinedLevelRule score low.
Proof.
  unfold calculateOverallRiskLevel, FreeThreat.calculateRiskLevel, combinedLevelRule.
  rewrite !if_decide_or, !if_decide_bool.
  split_and!.
  - reflexivity.
  - reflexivity.
  - destruct (JS.ge score 80); vm_compute; lia.
  - reflexivity.
Qed.

(** C4. When at least one provider succeeded, the merged verdict has the
    highest tier among those the providers that succeeded reported, the union
    without duplicates of their category tags, the union of their source
    names, and as confidence the arithmetic mean of the confidences that were
    reported strictly positive (0 when none was). *)
Theorem merged_verdict (results : list (Settled PartialThreatLevel)) (address : string)
    (clock : nat → float) (k : nat) :
  succeeded results ≠ [] →
  let providers := succeeded results in
  let v := Clock.run (aggregateThreatData results address) clock k in
  highestOf (risk v) (omap risk' providers)
  ∧ unionOf (categories v) categories' providers
  ∧ confidence v = match positiveConfidences providers with
                   | [] => 0%float
                   | cs => mean cs
                   end
  ∧ unionOf (sources v) sources' providers.
Proof.
  intros Hsome providers v. subst providers v.
  rewrite <- validOf_succeeded in *.
  rewrite (aggregateThreatData_merge _ _ _ _ Hsome). cbv zeta.
  cbn [risk categories confidence sources].
  split_and!.
  - apply getHighestRisk_highest.
  - apply setOf_union.
  - pose proof (positiveConfidences_positive (validOf results)) as Hpos.
    destruct (positiveConfidences (validOf results)) as [|c cs]; [reflexivity|].
    rewrite decide_True by (cbn; lia). unfold mean.
    rewrite sumLeft_sumFrom; [reflexivity|discriminate|exact Hpos].
  - apply setOf_union.
Qed.

(** Three providers answer; one reports no confidence and one a zero. *)
Definition sampleResults : list (Settled PartialThreatLevel) :=
  [ fulfilled {| risk' := Some medium; categories' := Some ["mixer"; "scam"];
                 confidence' := Some 0.5%float; lastUpdated' := None;
                 sources' := Some ["Chainalysis"] |};
    rejected;
    fulfilled {| risk' := Some high; categories' := Some ["scam"];
                 confidence' := Some 0%float; lastUpdated' := None;
                 sources' := Some ["Community DB"] |};
    fulfilled {| risk' := None; categories' := None;
                 confidence' := Some 0.25%float; lastUpdated' := None;
                 sources' := Some ["Chainalysis"] |} ].

Example sampleResults_merge :
  Clock.run (aggregateThreatData sampleResults "0xabc") (λ _, 1700000000000%float) 0
  = {| risk := high; categories := ["mixer"; "scam"]; confidence := 0.375;
       lastUpdated := 1700000000000; sources := ["Chainalysis"; "Community DB"] |}.
Proof. vm_compute. reflexivity. Qed.

Lemma merged_verdict_witness :
  succeeded sampleResults ≠ []
  ∧ let v := Clock.run (aggregateThreatData sampleResults "0xabc")
                       (λ _, 1700000000000%float) 0 in
    highestOf (risk v) (omap risk' (succeeded sampleResults))
    ∧ unionOf (categories v) categories' (succeeded sampleResults)
    ∧ confidence v = match positiveConfidences (succeeded sampleResults) with
                     | [] => 0%float
                     | cs => mean cs
                     end
    ∧ unionOf (sources v) sources' (succeeded sampleResults).
Proof.
  split; [discriminate|].
  apply (merged_verdict sampleResults "0xabc" (λ _, 1700000000000%float) 0).
  discriminate.
Defined.

(** *** Total failure of the providers *)

Lemma analyzeAddress_all_fail self env address clock k :
  FreeThreat.allFail env →
  FreeThreat.abuseCache self !! ("abuseipdb:" +:+ address) = None →
  Clock.run (FreeThreat.analyzeAddress self env address) clock k
  = ({| FreeThreat.riskScore := 0; FreeThreat.riskLevel := low;
        FreeThreat.sources := [];
        FreeThreat.findings := [FreeThreat.NoImmediateThreats];
        FreeThreat.confidence := 0.3 |}, self).
Proof.
  intros (Hip & Hph & Hdl & Hab & Hsc & Hst) Hcache.
  unfold Clock.run, FreeThreat.analyzeAddress, FreeThreat.fetchThreatLists,
    FreeThreat.checkWithScamDatabase, FreeThreat.checkStarknetAddress,
    FreeThreat.checkWithAbuseIPDB.
  rewrite Hip, Hsc, Hst, Hab, Hcache. cbv zeta.
  destruct (JS.truthyStr (JS.orElseStr (FreeThreat.ABUSEIPDB_API_KEY env) ""));
    reflexivity.
Qed.

(** C5, as amended.  When every provider result handed to
    [aggregateThreatData] is a rejection, the verdict is the static fallback:
    its sources are exactly ["Static Analysis"], its confidence exactly 0.3 and
    its tier the one of the static pattern check.  When every network call of
    [FreeThreatAnalyzer.analyzeAddress] fails (and nothing is cached for the
    address) it still returns a verdict, of confidence exactly 0.3 and level
    low, but with no source at all. *)
Theorem total_failure_verdicts
    (results : list (Settled PartialThreatLevel)) (address : string)
    (self : FreeThreat.Analyzer) (env : FreeThreat.Env)
    (clock : nat → float) (k : nat) :
  validOf results = [] →
  FreeThreat.allFail env →
  FreeThreat.abuseCache self !! ("abuseipdb:" +:+ address) = None →
  let v := Clock.run (aggregateThreatData results address) clock k in
  let w := (Clock.run (FreeThreat.analyzeAddress self env address) clock k).1 in
  (sources v = ["Static Analysis"]
   ∧ confidence v = 0.3%float
   ∧ categories v = []
   ∧ risk v = staticRiskCheck address)
  ∧ (FreeThreat.sources w = []
     ∧ FreeThreat.confidence w = 0.3%float
     ∧ FreeThreat.riskLevel w = low
     ∧ FreeThreat.findings w = [FreeThreat.NoImmediateThreats]).
Proof.
  intros Hvalid Hfail Hcache v w. subst v w.
  rewrite (aggregateThreatData_fallback _ _ _ _ Hvalid).
  rewrite (analyzeAddress_all_fail _ _ _ _ _ Hfail Hcache).
  split; split_and!; reflexivity.
Qed.

(** A world where nothing answers, with and without an AbuseIPDB key. *)
Definition deadEnv (key : option string) : FreeThreat.Env :=
  {| FreeThreat.ipBlocklist := FreeThreat.failed;
     FreeThreat.phishingDomains := FreeThreat.failed;
     FreeThreat.darklist := FreeThreat.failed;
     FreeThreat.ABUSEIPDB_API_KEY := key;
     FreeThreat.abuseipdb := FreeThreat.failed;
     FreeThreat.scamDatabase := FreeThreat.failed;
     FreeThreat.starkscan := FreeThreat.failed |}.

Definition freshAnalyzer : FreeThreat.Analyzer := {| FreeThreat.abuseCache := ∅ |}.

Lemma deadEnv_allFail key : FreeThreat.allFail (deadEnv key).
Proof. repeat split. Qed.

Definition allRejected : list (Settled PartialThreatLevel) :=
  [rejected; rejected; rejected; rejected].

Lemma total_failure_verdicts_witness :
  validOf allRejected = []
  ∧ FreeThreat.allFail (deadEnv (Some "key"))
  ∧ sources (Clock.run (aggregateThreatData allRejected "0x0000dead")
                       (λ _, 1700000000000%float) 0)
    = ["Static Analysis"].
Proof.
  split_and!; [reflexivity | apply deadEnv_allFail |].
  apply (total_failure_verdicts allRejected "0x0000dead"
           freshAnalyzer (deadEnv (Some "key")) (λ _, 1700000000000%float) 0);
    [reflexivity | apply deadEnv_allFail | reflexivity].
Defined.

(** C5, as stated, fails on the function that bears the name: with every
    source failing, [analyzeAddress] answers confidence 0.3 with an empty list
    of sources, not ["Static Analysis"]. *)
Lemma analyzeAddress_names_no_source :
  let w := (Clock.run (FreeThreat.analyzeAddress freshAnalyzer (deadEnv (Some "key"))
                         "0x0000dead")
                      (λ _, 1700000000000%float) 0).1 in
  FreeThreat.allFail (deadEnv (Some "key"))
  ∧ FreeThreat.confidence w = 0.3%float
  ∧ FreeThreat.sources w = []
  ∧ FreeThreat.sources w ≠ ["Static Analysis"].
Proof.
  cbv zeta. split_and!; [apply deadEnv_allFail | reflexivity | reflexivity |].
  vm_compute. discriminate.
Qed.

(** With the providers of the source, three of the four always answer: a
    lookup that misses the cache merges them and never reaches the fallback. *)
Example checkAddress_without_key :
  let self := {| apiKey := None; cache := ∅ |} in
  let v := (Clock.run (checkAddress self networkError "0x0000dead")
                      (λ _, 1700000000000%float) 0).1 in
  sources v = ["Elliptic"; "TRM Labs"; "Community DB"] ∧ risk v = low.
Proof. vm_compute. split; reflexivity. Qed.

End ThreatSpec.

(** ** Further properties of the threat lookups *)

Module ThreatExtra.
Import JSFacts FloatFacts ThreatIntel ThreatSpec.

(** What Chainalysis contributes to a lookup: its tier and its name when it
    answers, nothing when it does not. *)
Definition chainalysisTier (c : Settled PartialThreatLevel) : Risk :=
  match c with
  | fulfilled p => default low (risk' p)
  | rejected => low
  end.

Definition chainalysisName (c : Settled PartialThreatLevel) : list string :=
  match c with
  | fulfilled _ => ["Chainalysis"]
  | rejected => []
  end.

Lemma getHighestRisk_with_low t :
  getHighestRisk [t; low; low; low] = t.
Proof. by destruct t. Qed.

Lemma checkChainalysis_fulfilled key net address p :
  checkChainalysis key net address = fulfilled p →
  is_Some (risk' p) ∧ sources' p = Some ["Chainalysis"].
Proof.
  unfold checkChainalysis. destruct (negb _); [discriminate|].
  destruct net as [|[] [data|]]; try discriminate.
  intros [= <-]. cbn. eauto.
Qed.

Lemma fetchThreatData_run self net address clock k :
  let c := checkChainalysis (apiKey self) net address in
  let r := Clock.run (fetchThreatData self net address) clock k in
  risk r = chainalysisTier c
  ∧ sources r = chainalysisName c ++ ["Elliptic"; "TRM Labs"; "Community DB"]
  ∧ lastUpdated r = clock k.
Proof.
  cbv zeta. unfold fetchThreatData.
  rewrite aggregateThreatData_merge
    by (destruct (checkChainalysis _ _ _); discriminate).
  cbv zeta. cbn [risk sources lastUpdated].
  destruct (checkChainalysis _ _ _) as [p|] eqn:Hc; [|by vm_compute].
  apply checkChainalysis_fulfilled in Hc as [[t Ht] Hs].
  unfold checkElliptic, checkTRMLabs, checkCommunityDatabase.
  cbn [validOf omap list_omap mbind list_bind risk' sources' chainalysisTier
       chainalysisName default app].
  rewrite Ht, Hs. cbn [default app from_option id].
  split_and!; [apply getHighestRisk_with_low|by vm_compute|reflexivity].
Qed.

(** X9. A lookup that misses the cache never reaches the static fallback: the
    three providers that need no network always answer.  The tier returned is
    the one Chainalysis gives, or low when Chainalysis does not answer (in
    particular without an API key); the sources are the three fixed providers,
    after Chainalysis when it answers, and never "Static Analysis"; and for
    the same network answer the result is the same for every address. *)
Theorem fetchThreatData_never_falls_back
    (self : StarknetThreatIntelligence) (net : FetchOutcome) (address : string)
    (clock : nat → float) (k : nat) :
  let c := checkChainalysis (apiKey self) net address in
  let r := Clock.run (fetchThreatData self net address) clock k in
  risk r = chainalysisTier c
  ∧ sources r = chainalysisName c ++ ["Elliptic"; "TRM Labs"; "Community DB"]
  ∧ ¬ "Static Analysis" ∈ sources r
  ∧ (JS.truthyStr (JS.orElseStr (apiKey self) "") = false → risk r = low)
  ∧ (∀ address', Clock.run (fetchThreatData self net address') clock k = r).
Proof.
  cbv zeta.
  destruct (fetchThreatData_run self net address clock k) as (Hrisk & Hsrc & _).
  cbv zeta in Hrisk, Hsrc.
  split_and!; [exact Hrisk|exact Hsrc| | |].
  - rewrite Hsrc. destruct (checkChainalysis _ _ _); cbn; set_solver.
  - intros Hkey. rewrite Hrisk. unfold checkChainalysis. by rewrite Hkey.
  - intros address'. unfold fetchThreatData.
    rewrite !aggregateThreatData_merge
      by (destruct (checkChainalysis _ _ _); discriminate).
    reflexivity.
Qed.

(** A lookup without an API key, for an address the static patterns flag. *)
Definition coldCache : StarknetThreatIntelligence := {| apiKey := None; cache := ∅ |}.

Lemma fetchThreatData_never_falls_back_witness :
  JS.truthyStr (JS.orElseStr (apiKey coldCache) "") = false
  ∧ risk (Clock.run (fetchThreatData coldCache networkError "0x0000dead")
                    (λ _, 1700000000000%float) 0) = low.
Proof.
  split; [reflexivity|].
  destruct (fetchThreatData_never_falls_back coldCache networkError "0x0000dead"
              (λ _, 1700000000000%float) 0) as (_ & _ & _ & Hlow & _).
  apply Hlow. reflexivity.
Defined.

Ltac run_clock :=
  unfold Clock.run, mbind, eff_bind, Clock.bind, Clock.now, mret, eff_ret, Clock.ret.

(** X10. The cache of [checkAddress].  After a lookup the cache holds the
    result returned, under the address, and the entries of the other addresses
    are as before.  While the expiry recorded is later than the clock, a
    further lookup of the address returns that same result and leaves the
    cache alone, whatever the network answers; once it is not, the lookup asks
    the providers again. *)
Theorem checkAddress_cache_round_trip
    (self : StarknetThreatIntelligence) (net : FetchOutcome) (address : string)
    (clock : nat → float) (k : nat) :
  let r := (Clock.run (checkAddress self net address) clock k).1 in
  let self' := (Clock.run (checkAddress self net address) clock k).2 in
  apiKey self' = apiKey self
  ∧ (∀ a, a ≠ address → cache self' !! a = cache self !! a)
  ∧ ∃ expiry,
      cache self' !! address = Some (r, expiry)
      ∧ (∀ net' clock' k', JS.gt expiry (clock' k') = true →
           Clock.run (checkAddress self' net' address) clock' k' = (r, self'))
      ∧ (∀ net' clock' k', JS.gt expiry (clock' k') = false →
           (Clock.run (checkAddress self' net' address) clock' k').1
           = Clock.run (fetchThreatData self' net' address) clock' (S k')).
Proof.
  cbv zeta.
  assert (Hagain : ∀ (s : StarknetThreatIntelligence) d e,
    cache s !! address = Some (d, e) →
    (∀ net' clock' k', JS.gt e (clock' k') = true →
       Clock.run (checkAddress s net' address) clock' k' = (d, s))
    ∧ (∀ net' clock' k', JS.gt e (clock' k') = false →
         (Clock.run (checkAddress s net' address) clock' k').1
         = Clock.run (fetchThreatData s net' address) clock' (S k'))).
  { intros s d e Hs. split; intros net' clock' k' Hgt;
      unfold checkAddress; rewrite Hs; run_clock; rewrite Hgt; [reflexivity|].
    by destruct (fetchThreatData s net' address clock' (S k')). }
  assert (Hmiss : ∀ k0,
    let out := (let '(a, k') := fetchThreatData self net address clock k0 in
                (a, {| apiKey := apiKey self;
                       cache := <[address := (a, (clock k' + CACHE_TTL)%float)]>
                                  (cache self) |}, S k')).1 in
    apiKey out.2 = apiKey self
    ∧ (∀ a, a ≠ address → cache out.2 !! a = cache self !! a)
    ∧ ∃ expiry, cache out.2 !! address = Some (out.1, expiry)).
  { intros k0. destruct (fetchThreatData self net address clock k0) as [a k'].
    cbn. split_and!; [reflexivity| |].
    - intros a' Ha'. by rewrite lookup_insert_ne.
    - eexists. by rewrite lookup_insert_eq. }
  unfold checkAddress.
  destruct (cache self !! address) as [[data expiry]|] eqn:Hc; run_clock.
  - destruct (JS.gt expiry (clock k)) eqn:Hgt.
    + cbn. split_and!; [reflexivity|done|].
      exists expiry. split; [exact Hc|]. by apply Hagain.
    + destruct (Hmiss (S k)) as (Hkey & Hother & e & He). cbv zeta in *.
      split_and!; [exact Hkey|exact Hother|].
      exists e. split; [exact He|]. by apply Hagain.
  - destruct (Hmiss k) as (Hkey & Hother & e & He). cbv zeta in *.
    split_and!; [exact Hkey|exact Hother|].
    exists e. split; [exact He|]. by apply Hagain.
Qed.

(** A first lookup, and a second one a minute later. *)
Definition firstLookup : ThreatLevel * StarknetThreatIntelligence :=
  Clock.run (checkAddress coldCache networkError "0x1") (λ _, 1700000000000%float) 0.

Lemma checkAddress_cache_round_trip_witness :
  Clock.run (checkAddress firstLookup.2 (response true None) "0x1")
            (λ _, 1700000060000%float) 0
  = firstLookup.
Proof.
  destruct (checkAddress_cache_round_trip coldCache networkError "0x1"
              (λ _, 1700000000000%float) 0) as (_ & _ & expiry & Hentry & Hhit & _).
  fold firstLookup in Hentry, Hhit.
  rewrite (Hhit (response true None) (λ _, 1700000060000%float) 0).
  - symmetry. apply surjective_pairing.
  - assert (Hexpiry : Some (firstLookup.1, expiry)
                      = Some (firstLookup.1, 1700003600000%float))
      by (rewrite <- Hentry; vm_compute; reflexivity).
    injection Hexpiry as ->. reflexivity.
Defined.

End ThreatExtra.

(** ** Further properties of the free-source analyzer *)

Module FreeThreatExtra.
Import JSFacts FloatFacts ThreatIntel FreeThreat.

(** *** The score and its level *)

(** A number that is not below [b] is at least [a], for two positive finite
    numbers [a <= b] given by their mantissas and exponents. *)
Lemma leb_of_not_ltb (a b t : float) (ma mb : positive) (ea eb : Z) :
  Prim2SF a = S754_finite false ma ea →
  Prim2SF b = S754_finite false mb eb →
  (ea < eb ∨ (ea = eb ∧ (ma <= mb)%positive))%Z →
  is_nan t = false →
  (t <? b)%float = false →
  (a <=? t)%float = true.
Proof.
  intros Ha Hb Hab Hnan Hlt.
  assert (Hnot : Prim2SF t ≠ S754_nan)
    by (intros H%is_nan_spec; congruence).
  rewrite FloatAxioms.ltb_spec, Hb in Hlt. rewrite FloatAxioms.leb_spec, Ha.
  unfold SFltb, SFleb in *.
  destruct (Prim2SF t) as [s|s| |s m e]; cbn in *;
    try destruct s; try discriminate; try reflexivity; try contradiction.
  rewrite Pos.compare_cont_spec in Hlt. rewrite Pos.compare_cont_spec.
  cbn [Pos.switch_Eq] in *.
  destruct (Z.compare_spec e eb) as [Heq|He|He]; try discriminate.
  - destruct (Z.compare_spec ea e) as [Heq'|He'|He']; [|reflexivity|lia].
    destruct (Pos.compare_spec m mb) as [Hm|Hm|Hm]; try discriminate;
      destruct (Pos.compare_spec ma m); try reflexivity; lia.
  - destruct (Z.compare_spec ea e); [lia|reflexivity|lia].
Qed.

Lemma ge_80_of_not_lt_100 (t : float) :
  is_nan t = false → (t <? 100)%float = false → JS.ge t 80 = true.
Proof.
  intros Hnan Hlt. unfold JS.ge.
  eapply (leb_of_not_ltb 80 100 t); [reflexivity|reflexivity| |exact Hnan|exact Hlt].
  right. split; [reflexivity|]. by vm_compute.
Qed.

Lemma mathMin_100 (t : float) :
  JS.gt (JS.mathMin t 100) 100 = false
  ∧ calculateRiskLevel (JS.mathMin t 100) = calculateRiskLevel t.
Proof.
  unfold JS.mathMin. destruct (is_nan t) eqn:Hnan.
  { split; [|reflexivity]. unfold JS.gt. by apply ltb_nan_r. }
  change (is_nan 100) with false. cbv iota.
  destruct (t <? 100)%float eqn:Hlt.
  { split; [|reflexivity]. unfold JS.gt. by apply ltb_asym. }
  assert (Hcrit : calculateRiskLevel t = critical).
  { unfold calculateRiskLevel. by rewrite ge_80_of_not_lt_100. }
  destruct (100 <? t)%float eqn:Hgt; [by rewrite Hcrit|].
  destruct (classify t); try by rewrite Hcrit.
  all: split; [exact Hgt|reflexivity].
Qed.

(** *** The findings *)

(** The accumulators at the end of [analyzeAddress], from what the checks
    answered: whether the address is on the community list, the confidence of
    a blacklisting by AbuseIPDB, and the answer of the scam database. *)
Definition tallyOf (inList : bool) (flag : option float) (scam : bool) (n : float)
  : Tally :=
  let t0 := {| tFindings := []; tSources := []; totalRisk := 0; tConfidence := 0 |} in
  let t1 := if inList
            then note t0 FoundInCommunityScamDatabase "GitHub Community Lists" 60 0.7
            else t0 in
  let t2 := match flag with
            | Some c => note t1 (FlaggedByAbuseIPDB (c * 100)) "AbuseIPDB" (c * 50) 0.8
            | None => t1
            end in
  if scam
  then note t2 (ReportedAsScam n) "Scam Database" (JS.mathMin (n * 10) 40) 0.6
  else t2.

Definition verdictOf (t : Tally) : Verdict :=
  {| riskScore := JS.mathMin (totalRisk t) 100;
     riskLevel := calculateRiskLevel (totalRisk t);
     sources := tSources t;
     findings := if decide (0 < length (tFindings t)) then tFindings t
                 else [NoImmediateThreats];
     confidence := if JS.gt (tConfidence t) 0
                   then (tConfidence t / JS.ofNat (length (tSources t)))%float
                   else 0.3%float |}.

(** [isContract] is [!!class_hash] and [classHash] is [class_hash || null]:
    the test for an unverified contract never succeeds. *)
Lemma unverified_never env address :
  let starknetCheck := checkStarknetAddress env address in
  isContract starknetCheck && negb (bool_decide (is_Some (classHash starknetCheck)))
  = false.
Proof.
  cbv zeta. unfold checkStarknetAddress.
  destruct (starkscan env) as [data|]; [|reflexivity].
  cbn [isContract classHash]. by destruct (bool_decide _).
Qed.

Ltac run_clock :=
  unfold Clock.run, mbind, eff_bind, Clock.bind, Clock.now, mret, eff_ret, Clock.ret.

Lemma analyzeAddress_tally self env address clock k :
  ∃ flag : option float,
    (JS.truthyStr (JS.orElseStr (ABUSEIPDB_API_KEY env) "") = false → flag = None)
    ∧ (Clock.run (analyzeAddress self env address) clock k).1
      = verdictOf
          (tallyOf (JS.includes (scamAddresses (fetchThreatLists env))
                                (JS.toLowerCase address))
                   flag
                   (isScam (checkWithScamDatabase env address))
                   (reportCount (checkWithScamDatabase env address))).
Proof.
  unfold analyzeAddress. cbv zeta.
  pose proof (unverified_never env address) as Hnever. cbv zeta in Hnever.
  run_clock.
  destruct (JS.truthyStr (JS.orElseStr (ABUSEIPDB_API_KEY env) "")) eqn:Hkey.
  - destruct (checkWithAbuseIPDB self env address clock k) as [[abuseCheck self'] k'].
    destruct abuseCheck as [check|].
    + destruct (isBlacklisted check) eqn:Hblack.
      * exists (Some (abuseConfidence check)). split; [discriminate|].
        cbn [fst]. rewrite Hnever. reflexivity.
      * exists None. split; [reflexivity|]. cbn [fst]. rewrite Hnever. reflexivity.
    + exists None. split; [reflexivity|]. cbn [fst]. rewrite Hnever. reflexivity.
  - exists None. split; [reflexivity|]. cbn [fst]. rewrite Hnever. reflexivity.
Qed.

Lemma includes_elem (arr : list string) (s : string) :
  JS.includes arr s = true ↔ s ∈ arr.
Proof.
  unfold JS.includes. induction arr as [|x arr IH]; cbn.
  - split; [discriminate|]. intros []%elem_of_nil.
  - rewrite orb_true_iff, IH, elem_of_cons, String.eqb_eq. reflexivity.
Qed.

Lemma scamAddresses_fetched env x :
  x ∈ scamAddresses (fetchThreatLists env)
  ↔ ∃ ips domains keys,
      ipBlocklist env = resolved ips ∧ phishingDomains env = resolved domains
      ∧ darklist env = resolved keys ∧ x ∈ keys.
Proof.
  unfold fetchThreatLists, fetchScamAddresses.
  destruct (ipBlocklist env) as [ips|], (phishingDomains env) as [domains|],
    (darklist env) as [keys|]; cbn [scamAddresses].
  1: { split; [eauto 10|]. by intros (? & ? & ? & _ & _ & [= <-] & ?). }
  all: split; [intros []%elem_of_nil|];
    intros (? & ? & ? & H1 & H2 & H3 & _); discriminate.
Qed.

Lemma checkWithScamDatabase_scam env address n :
  (isScam (checkWithScamDatabase env address) = true
   ∧ n = reportCount (checkWithScamDatabase env address))
  ↔ ∃ data, scamDatabase env = resolved data ∧ is_scam data = Some true
            ∧ n = JS.orElse (report_count data) 0.
Proof.
  unfold checkWithScamDatabase. destruct (scamDatabase env) as [data|];
    cbn [isScam reportCount].
  - split.
    + intros [Hscam ->]. exists data. split_and!; [reflexivity| |reflexivity].
      by destruct (is_scam data) as [[]|].
    + intros (? & [= <-] & -> & ->). done.
  - split; [intros [? _]; discriminate|]. by intros (? & ? & _).
Qed.

Lemma asciiLower_idem (c : ascii) : JS.asciiLower (JS.asciiLower c) = JS.asciiLower c.
Proof. by destruct c as [[] [] [] [] [] [] [] []]. Qed.

Lemma toLowerCase_idem (s : string) : JS.toLowerCase (JS.toLowerCase s) = JS.toLowerCase s.
Proof.
  induction s as [|c s IH]; [reflexivity|]. cbn. by rewrite asciiLower_idem, IH.
Qed.

Lemma tallyOf_findings inList flag scam n :
  let v := verdictOf (tallyOf inList flag scam n) in
  (FoundInCommunityScamDatabase ∈ findings v ↔ inList = true)
  ∧ (∀ p, FlaggedByAbuseIPDB p ∈ findings v → is_Some flag)
  ∧ (∀ m, ReportedAsScam m ∈ findings v ↔ scam = true ∧ m = n)
  ∧ ¬ UnverifiedContract ∈ findings v
  ∧ ¬ AnalysisFailed ∈ findings v
  ∧ ¬ "Starknet Explorer" ∈ sources v
  ∧ (NoImmediateThreats ∈ findings v ↔ sources v = [])
  ∧ length (findings v) = max 1 (length (sources v)).
Proof.
  destruct inList, flag as [c|], scam; cbn;
    rewrite ?decide_True by lia; rewrite ?decide_False by lia;
    (split_and!; [| | | | | | |reflexivity]);
    repeat setoid_rewrite elem_of_cons; repeat setoid_rewrite elem_of_nil;
    naive_solver.
Qed.

Lemma tallyOf_confidence inList flag scam n :
  let v := verdictOf (tallyOf inList flag scam n) in
  JS.ge (confidence v) 0.3 = true ∧ JS.le (confidence v) 0.8 = true.
Proof. by destruct inList, flag as [c|], scam; vm_compute. Qed.

(** X11. What [analyzeAddress] reports on an address made of ASCII characters.
    The community finding appears exactly when the three list downloads all
    succeed and the address, its letters A to Z lowered, is a key of the dark
    list (a failed download of the IP or of the phishing list hides the dark
    list, and a list whose keys all hold one of the letters A to Z matches no
    address); the scam-database finding, with its count, exactly when that
    service answers [is_scam]; an AbuseIPDB finding only with an API key.  The
    unverified-contract finding and the source "Starknet Explorer" never
    appear, nor the failure message; "No immediate threats" is reported
    exactly when no source is named, and otherwise there is one finding for
    each source. *)
Theorem analyzeAddress_findings (self : Analyzer) (env : Env) (address : string)
    (clock : nat → float) (k : nat) :
  JS.isAscii address = true →
  let v := (Clock.run (analyzeAddress self env address) clock k).1 in
  (FoundInCommunityScamDatabase ∈ findings v
   ↔ ∃ ips domains keys,
       ipBlocklist env = resolved ips ∧ phishingDomains env = resolved domains
       ∧ darklist env = resolved keys ∧ JS.toLowerCase address ∈ keys)
  ∧ (∀ keys, darklist env = resolved keys →
             (∀ key, key ∈ keys → JS.toLowerCase key ≠ key) →
             ¬ FoundInCommunityScamDatabase ∈ findings v)
  ∧ (∀ p, FlaggedByAbuseIPDB p ∈ findings v →
          JS.truthyStr (JS.orElseStr (ABUSEIPDB_API_KEY env) "") = true)
  ∧ (∀ m, ReportedAsScam m ∈ findings v
          ↔ ∃ data, scamDatabase env = resolved data ∧ is_scam data = Some true
                    ∧ m = JS.orElse (report_count data) 0)
  ∧ ¬ UnverifiedContract ∈ findings v
  ∧ ¬ AnalysisFailed ∈ findings v
  ∧ ¬ "Starknet Explorer" ∈ sources v
  ∧ (NoImmediateThreats ∈ findings v ↔ sources v = [])
  ∧ length (findings v) = max 1 (length (sources v)).
Proof.
  intros _. cbv zeta.
  destruct (analyzeAddress_tally self env address clock k) as (flag & Hflag & ->).
  destruct (tallyOf_findings
              (JS.includes (scamAddresses (fetchThreatLists env)) (JS.toLowerCase address))
              flag (isScam (checkWithScamDatabase env address))
              (reportCount (checkWithScamDatabase env address)))
    as (Hfound & Hflagged & Hscam & Hun & Hfail & Hname & Hnone & Hlen).
  cbv zeta in *.
  assert (Hlist : FoundInCommunityScamDatabase
                  ∈ findings (verdictOf (tallyOf
                      (JS.includes (scamAddresses (fetchThreatLists env))
                                   (JS.toLowerCase address))
                      flag (isScam (checkWithScamDatabase env address))
                      (reportCount (checkWithScamDatabase env address))))
                  ↔ ∃ ips domains keys,
                      ipBlocklist env = resolved ips
                      ∧ phishingDomains env = resolved domains
                      ∧ darklist env = resolved keys ∧ JS.toLowerCase address ∈ keys)
    by (by rewrite Hfound, includes_elem, scamAddresses_fetched).
  split_and!; [exact Hlist| | | |exact Hun|exact Hfail|exact Hname|exact Hnone|exact Hlen].
  - intros keys Hkeys Hupper (ips & domains & keys' & _ & _ & Hkeys' & Hin)%Hlist.
    rewrite Hkeys in Hkeys'. injection Hkeys' as <-.
    apply (Hupper _ Hin), toLowerCase_idem.
  - intros p Hp. destruct (JS.truthyStr _); [reflexivity|].
    destruct (Hflagged p Hp) as [c Hc]. by rewrite Hflag in Hc.
  - intros m. by rewrite Hscam, checkWithScamDatabase_scam.
Qed.

(** The three lists are fetched, and the dark list names the address. *)
Definition listedEnv : Env :=
  {| ipBlocklist := resolved []; phishingDomains := resolved [];
     darklist := resolved ["0xbad"]; ABUSEIPDB_API_KEY := None;
     abuseipdb := failed; scamDatabase := failed; starkscan := failed |}.

Lemma analyzeAddress_findings_witness :
  JS.isAscii "0xBAD" = true
  ∧ (∃ ips domains keys,
     ipBlocklist listedEnv = resolved ips ∧ phishingDomains listedEnv = resolved domains
     ∧ darklist listedEnv = resolved keys ∧ JS.toLowerCase "0xBAD" ∈ keys)
  ∧ FoundInCommunityScamDatabase
    ∈ findings (Clock.run (analyzeAddress {| abuseCache := ∅ |} listedEnv "0xBAD")
                          (λ _, 0%float) 0).1.
Proof.
  assert (H : ∃ ips domains keys,
     ipBlocklist listedEnv = resolved ips ∧ phishingDomains listedEnv = resolved domains
     ∧ darklist listedEnv = resolved keys ∧ JS.toLowerCase "0xBAD" ∈ keys).
  { exists [], [], ["0xbad"]. split_and!; [reflexivity..|]. by left. }
  split; [reflexivity|]. split; [exact H|].
  exact (proj2 (proj1 (analyzeAddress_findings {| abuseCache := ∅ |} listedEnv "0xBAD"
                         (λ _, 0%float) 0 eq_refl)) H).
Defined.

(** X12. The score [analyzeAddress] reports is never above 100, and the level
    it reports, computed before the score is capped, is always the level of
    the score reported.  The confidence it reports is always a number from 0.3
    to 0.8. *)
Theorem analyzeAddress_score_and_level (self : Analyzer) (env : Env) (address : string)
    (clock : nat → float) (k : nat) :
  let v := (Clock.run (analyzeAddress self env address) clock k).1 in
  JS.gt (riskScore v) 100 = false
  ∧ riskLevel v = calculateRiskLevel (riskScore v)
  ∧ JS.ge (confidence v) 0.3 = true
  ∧ JS.le (confidence v) 0.8 = true.
Proof.
  cbv zeta.
  destruct (analyzeAddress_tally self env address clock k) as (flag & _ & ->).
  cbn [verdictOf riskScore riskLevel].
  destruct (mathMin_100 (totalRisk (tallyOf
              (JS.includes (scamAddresses (fetchThreatLists env)) (JS.toLowerCase address))
              flag (isScam (checkWithScamDatabase env address))
              (reportCount (checkWithScamDatabase env address))))) as [Hle Hlevel].
  split_and!; [exact Hle|symmetry; exact Hlevel|apply tallyOf_confidence..].
Qed.

End FreeThreatExtra.

(** ** The order of the levels *)

Module ThreatOrder.
Import JSFacts FloatFacts ThreatIntel ThreatSpec.

(** *** Higher scores, more answers *)

(** [c <= s] and [s <= s'] give [c <= s'], for a positive finite [c]. *)
Lemma leb_trans_const (c s s' : float) (mc : positive) (ec : Z) :
  Prim2SF c = S754_finite false mc ec →
  (c <=? s)%float = true → (s <=? s')%float = true → (c <=? s')%float = true.
Proof.
  intros Hc. rewrite !FloatAxioms.leb_spec, Hc. unfold SFleb.
  destruct (Prim2SF s) as [[]|[]| |[] ms es], (Prim2SF s') as [[]|[]| |[] ms' es'];
    cbn; try discriminate; try reflexivity.
  rewrite !Pos.compare_cont_spec. cbn [Pos.switch_Eq].
  destruct (Z.compare_spec ec es), (Z.compare_spec es es'), (Z.compare_spec ec es');
    try discriminate; try reflexivity; try lia;
    destruct (Pos.compare_spec mc ms), (Pos.compare_spec ms ms'),
      (Pos.compare_spec mc ms'); try discriminate; try reflexivity; lia.
Qed.

Lemma ge_mono (s s' c : float) (mc : positive) (ec : Z) :
  Prim2SF c = S754_finite false mc ec →
  JS.le s s' = true → JS.ge s c = true → JS.ge s' c = true.
Proof.
  unfold JS.le, JS.ge. intros Hc Hss Hcs. by eapply leb_trans_const.
Qed.

Lemma calculateOverallRiskLevel_mono (s s' : float) (t t' : Risk) :
  JS.le s s' = true → tierRank t ≤ tierRank t' →
  tierRank (calculateOverallRiskLevel s t) ≤ tierRank (calculateOverallRiskLevel s' t').
Proof.
  intros Hs Ht. unfold calculateOverallRiskLevel.
  pose proof (ge_mono s s' 80 _ _ eq_refl Hs) as H80.
  pose proof (ge_mono s s' 60 _ _ eq_refl Hs) as H60.
  pose proof (ge_mono s s' 30 _ _ eq_refl Hs) as H30.
  destruct (JS.ge s 80); [rewrite (H80 eq_refl)|];
    (destruct (JS.ge s 60); [rewrite (H60 eq_refl)|]);
    (destruct (JS.ge s 30); [rewrite (H30 eq_refl)|]);
    destruct t, t'; try (cbn in Ht; lia);
    repeat (match goal with |- context [JS.ge s' ?c] => destruct (JS.ge s' c) end);
    vm_compute; lia.
Qed.

Lemma calculateRiskLevel_score_only (s : float) :
  FreeThreat.calculateRiskLevel s = calculateOverallRiskLevel s low.
Proof.
  unfold FreeThreat.calculateRiskLevel, calculateOverallRiskLevel.
  by destruct (JS.ge s 80), (JS.ge s 60), (JS.ge s 30).
Qed.

(** X17. A higher score or a higher tier never lowers the combined level, and
    a higher score never lowers the level of the free-source analyzer.  The
    score [mapThreatLevelToScore] gives to a tier is, on its own, enough for
    that tier and no more. *)
Theorem combined_level_monotone :
  (∀ (s s' : float) (t t' : Risk),
     JS.le s s' = true → tierRank t ≤ tierRank t' →
     tierRank (calculateOverallRiskLevel s t)
     ≤ tierRank (calculateOverallRiskLevel s' t')
     ∧ tierRank (FreeThreat.calculateRiskLevel s)
       ≤ tierRank (FreeThreat.calculateRiskLevel s'))
  ∧ (∀ t : Risk,
       calculateOverallRiskLevel (mapThreatLevelToScore t) low = t
       ∧ FreeThreat.calculateRiskLevel (mapThreatLevelToScore t) = t).
Proof.
  split.
  - intros s s' t t' Hs Ht. split.
    + by apply calculateOverallRiskLevel_mono.
    + rewrite !calculateRiskLevel_score_only.
      by apply calculateOverallRiskLevel_mono.
  - intros t. by destruct t; vm_compute.
Qed.

Lemma combined_level_monotone_witness :
  JS.le 10 70 = true
  ∧ tierRank low ≤ tierRank medium
  ∧ tierRank (calculateOverallRiskLevel 10 low)
    ≤ tierRank (calculateOverallRiskLevel 70 medium).
Proof.
  assert (Hs : JS.le 10 70 = true) by reflexivity.
  assert (Ht : tierRank low ≤ tierRank medium) by (cbn; lia).
  split_and!; [exact Hs|exact Ht|].
  exact (proj1 (proj1 combined_level_monotone 10%float 70%float low medium Hs Ht)).
Defined.

Lemma getHighestRisk_mono (ts ts' : list Risk) :
  ts ⊆ ts' → tierRank (getHighestRisk ts) ≤ tierRank (getHighestRisk ts').
Proof.
  intros Hsub.
  destruct (getHighestRisk_highest ts) as [_ [Hin|[_ ->]]]; [|cbn; lia].
  destruct (getHighestRisk_highest ts') as [Hmax _]. by apply Hmax, Hsub.
Qed.

(** All providers failed, for an address the static patterns flag; then one
    that answers low. *)
Definition flaggedAddress : string := "0xdeadbeef".

Definition lowAnswer : Settled PartialThreatLevel := checkElliptic flaggedAddress.

(** X18. Once a provider has answered, more answers never lower the merged
    tier: when every answer merged in one call is merged in another, the tier
    of the second is at least as high, and its sources and categories hold
    those of the first.  Against the fallback this fails: an address the
    static check rates medium when no provider answers is rated low as soon
    as one provider answers low. *)
Theorem more_answers_never_lower :
  (∀ (results results' : list (Settled PartialThreatLevel)) (address : string)
     (clock : nat → float) (k k' : nat),
     validOf results ≠ [] →
     validOf results ⊆ validOf results' →
     let v := Clock.run (aggregateThreatData results address) clock k in
     let v' := Clock.run (aggregateThreatData results' address) clock k' in
     tierRank (risk v) ≤ tierRank (risk v')
     ∧ sources v ⊆ sources v'
     ∧ categories v ⊆ categories v')
  ∧ (let fallback := Clock.run (aggregateThreatData [rejected] flaggedAddress)
                               (λ _, 0%float) 0 in
     let answered := Clock.run (aggregateThreatData [rejected; lowAnswer] flaggedAddress)
                               (λ _, 0%float) 0 in
     risk fallback = medium ∧ risk answered = low).
Proof.
  split; [|by vm_compute].
  intros results results' address clock k k' Hvalid Hsub. cbv zeta.
  assert (Hvalid' : validOf results' ≠ []).
  { destruct (validOf results) as [|p ps]; [done|].
    intros Hnil. specialize (Hsub p ltac:(left)). rewrite Hnil in Hsub.
    by apply elem_of_nil in Hsub. }
  rewrite !aggregateThreatData_merge by assumption. cbv zeta.
  cbn [risk sources categories]. split_and!.
  - apply getHighestRisk_mono. intros t (p & Hp & Ht)%list_elem_of_omap.
    apply list_elem_of_omap. exists p. split; [by apply Hsub|exact Ht].
  - intros s. rewrite !setOf_elem, !list_elem_of_bind.
    intros (p & Hs & Hp). exists p. split; [exact Hs|by apply Hsub].
  - intros c. rewrite !setOf_elem, !list_elem_of_bind.
    intros (p & Hc & Hp). exists p. split; [exact Hc|by apply Hsub].
Qed.

Lemma more_answers_never_lower_witness :
  validOf [lowAnswer] ≠ []
  ∧ validOf [lowAnswer] ⊆ validOf [rejected; lowAnswer; lowAnswer]
  ∧ tierRank (risk (Clock.run (aggregateThreatData [lowAnswer] flaggedAddress)
                              (λ _, 0%float) 0))
    ≤ tierRank (risk (Clock.run (aggregateThreatData [rejected; lowAnswer; lowAnswer]
                                                     flaggedAddress)
                                (λ _, 0%float) 1)).
Proof.
  assert (Hvalid : validOf [lowAnswer] ≠ []) by discriminate.
  assert (Hsub : validOf [lowAnswer] ⊆ validOf [rejected; lowAnswer; lowAnswer]).
  { intros p Hp. cbn in *. set_solver. }
  split_and!; [exact Hvalid|exact Hsub|].
  exact (proj1 (proj1 more_answers_never_lower [lowAnswer]
                  [rejected; lowAnswer; lowAnswer] flaggedAddress (λ _, 0%float) 0 1
                  Hvalid Hsub)).
Defined.

End ThreatOrder.

(** ** Transaction clustering ([getClusters] in [app/risk-factors.ts]) *)

Module Clusters.

Record Node : Type := { id : string }.

Record Link : Type := { source : string; target : string }.

(** How a call ends.  The loops of [getClusters] are run with a bound on the
    number of iterations; [exhausted] is the bound reached, which
    [getClusters_objects_terminate] shows never happens. *)
Inductive Outcome (A : Type) : Type :=
  | returns (a : A)
  | throws
  | exhausted.
Arguments returns {A} a.
Arguments throws {A}.
Arguments exhausted {A}.

(** What follows a call that returned; a throw leaves the function. *)
Definition andThen {A B} (o : Outcome A) (f : A → Outcome B) : Outcome B :=
  match o with
  | returns a => f a
  | throws => throws
  | exhausted => exhausted
  end.

(** *** The adjacency list *)

(** [adj], an object created by [{}]: the sets stored under the keys it owns,
    and its prototype.  A node named "__proto__" gives it no key: the
    assignment [adj["__proto__"] = new Set()] makes the new set the prototype
    of [adj], in place of [Object.prototype].  [proto] is the set that became
    the prototype, if any. *)
Record Adjacency : Type := {
  sets : gmap string (list string);
  proto : option (list string)
}.

(** [adj[n.id] = new Set()]. *)
Definition addNode (adj : Adjacency) (n : Node) : Adjacency :=
  if decide (id n = "__proto__") then {| sets := sets adj; proto := Some [] |}
  else {| sets := <[id n := []]> (sets adj); proto := proto adj |}.

(** What [adj[key]] reads. *)
Inductive Entry : Type :=
  | ownSet (members : list string)
      (* the set stored under a key that [adj] owns *)
  | protoSet (members : list string)
      (* the set that became the prototype, read at "__proto__" *)
  | notASet
      (* what is inherited and is no set: a function, [Object.prototype],
         or the getter of [Set.prototype.size], which throws when read *)
  | nothing.
      (* [undefined] *)

Definition entry {engine : Engine} (adj : Adjacency) (key : string) : Entry :=
  match sets adj !! key with
  | Some members => ownSet members
  | None =>
      if decide (key = "__proto__") then
        match proto adj with
        | Some members => protoSet members
        | None => notASet
        end
      else if JS.inherited key then notASet
      else if bool_decide (is_Some (proto adj)) && bool_decide (key ∈ setPrototype)
           then notASet
      else nothing
  end.

(** [adj[a]?.add(b)]: nothing is done when [adj[a]] is [undefined]; what is
    no set has no method [add], and the call throws a [TypeError]. *)
Definition addNeighbor {engine : Engine} (adj : Adjacency) (a b : string)
  : Outcome Adjacency :=
  match entry adj a with
  | ownSet members =>
      returns {| sets := <[a := JS.setAdd members b]> (sets adj); proto := proto adj |}
  | protoSet members =>
      returns {| sets := sets adj; proto := Some (JS.setAdd members b) |}
  | notASet => throws
  | nothing => returns adj
  end.

Definition addLink {engine : Engine} (adj : Adjacency) (l : Link) : Outcome Adjacency :=
  andThen (addNeighbor adj (source l) (target l))
          (λ adj, addNeighbor adj (target l) (source l)).

Definition adjacency {engine : Engine} (nodes : list Node) (links : list Link)
  : Outcome Adjacency :=
  let adj := foldl addNode {| sets := ∅; proto := None |} nodes in
  foldl (λ adj l, andThen adj (λ adj, addLink adj l)) (returns adj) links.

(** *** The traversal *)

(** [visited], an object created by [{}], is only ever tested ([visited[k]])
    and set ([visited[k] = true]): it is kept as the set of the keys at which
    it reads a truthy value.  Before any key is set these are the keys it
    inherits. *)
Definition noneVisited : gset string := list_to_set JS.objectPrototype.

(** [clusterMap[key] = clusterId], on the keys that [clusterMap] owns: the
    key "__proto__" is an accessor, which ignores a number. *)
Definition setCluster (clusterMap : gmap string nat) (key : string) (clusterId : nat)
  : gmap string nat :=
  if decide (key = "__proto__") then clusterMap else <[key := clusterId]> clusterMap.

(** The [for ... of adj[curr]] loop: the neighbours not yet visited are pushed
    in the order of the set.  The array [queue] is kept with its last element
    first, so that [pop] takes the head and [push] conses. *)
Definition pushUnvisited (visited : gset string) (queue neighbors : list string)
  : list string :=
  foldl (λ queue neighbor, if decide (neighbor ∈ visited) then queue
                           else neighbor :: queue)
        queue neighbors.

(** The [while (queue.length)] loop.  [for ... of] throws a [TypeError] on
    what cannot be iterated: [undefined], which is what [adj[curr]] reads when
    [curr] has no entry in [adj], or something inherited that is no set. *)
Fixpoint explore {engine : Engine} (fuel : nat) (adj : Adjacency) (clusterId : nat)
    (visited : gset string) (clusterMap : gmap string nat) (queue : list string)
  : Outcome (gset string * gmap string nat) :=
  match fuel with
  | 0 => exhausted
  | S fuel =>
      match queue with
      | [] => returns (visited, clusterMap)
      | curr :: queue =>
          if decide (curr ∈ visited)
          then explore fuel adj clusterId visited clusterMap queue
          else
            let visited := {[curr]} ∪ visited in
            let clusterMap := setCluster clusterMap curr clusterId in
            match entry adj curr with
            | ownSet neighbors | protoSet neighbors =>
                explore fuel adj clusterId visited clusterMap
                        (pushUnvisited visited queue neighbors)
            | notASet | nothing => throws
            end
      end
  end.

(** The variables of the outer loop. *)
Record State : Type := {
  visited : gset string;
  clusterMap : gmap string nat;
  clusterId : nat
}.

(** One turn of [for (const node of nodes)]. *)
Definition visitNode {engine : Engine} (fuel : nat) (adj : Adjacency)
    (st : Outcome State) (node : Node) : Outcome State :=
  match st with
  | returns s =>
      if decide (id node ∈ visited s) then returns s
      else match explore fuel adj (clusterId s) (visited s) (clusterMap s) [id node] with
           | returns (visited', clusterMap') =>
               returns {| visited := visited'; clusterMap := clusterMap';
                          clusterId := S (clusterId s) |}
           | throws => throws
           | exhausted => exhausted
           end
  | throws => throws
  | exhausted => exhausted
  end.

(** Enough turns for one traversal: each turn pops one entry of the queue, and
    no more entries are ever pushed than the sets of [adj] have members. *)
Definition turns (adj : Adjacency) : nat :=
  2 + sum_list_with (λ e : string * list string, 1 + length e.2)
                    (map_to_list (sets adj)).

(** The object returned: the keys that [clusterMap] owns, and the count. *)
Record Clustering : Type := {
  clusterMapOf : gmap string nat;
  numClusters : nat
}.

Definition getClusters {engine : Engine} (nodes : list Node) (links : list Link)
  : Outcome Clustering :=
  andThen (adjacency nodes links) (λ adj,
    let start := {| visited := noneVisited; clusterMap := ∅; clusterId := 0 |} in
    match foldl (visitNode (turns adj) adj) (returns start) nodes with
    | returns s => returns {| clusterMapOf := clusterMap s; numClusters := clusterId s |}
    | throws => throws
    | exhausted => exhausted
    end).

End Clusters.

(** ** The clustering on own keys

    The loops of [getClusters] as they run when no id names a property that
    objects inherit: [adj], [visited] and [clusterMap] then hold nothing but
    the keys they own.  [getClusters_ownKeys] shows that this is what
    [Clusters.getClusters] computes on such ids; the properties of the
    clustering are proved on these loops and carried over. *)

Module OwnKeys.
Import Clusters.

(** *** The adjacency list *)

(** [adj[a]?.add(b)], where [adj] reads nothing but the keys it owns. *)
Definition addNeighbor (adj : gmap string (list string)) (a b : string)
  : gmap string (list string) :=
  match adj !! a with
  | Some neighbors => <[a := JS.setAdd neighbors b]> adj
  | None => adj
  end.

Definition addLink (adj : gmap string (list string)) (l : Link)
  : gmap string (list string) :=
  addNeighbor (addNeighbor adj (source l) (target l)) (target l) (source l).

Definition adjacency (nodes : list Node) (links : list Link)
  : gmap string (list string) :=
  let adj := foldl (λ adj n, <[id n := []]> adj) ∅ nodes in
  foldl addLink adj links.

(** *** The traversal *)

(** The [while (queue.length)] loop, where [visited] and [adj] read nothing but
    the keys they own. *)
Fixpoint explore (fuel : nat) (adj : gmap string (list string)) (clusterId : nat)
    (visited : gset string) (clusterMap : gmap string nat) (queue : list string)
  : Outcome (gset string * gmap string nat) :=
  match fuel with
  | 0 => exhausted
  | S fuel =>
      match queue with
      | [] => returns (visited, clusterMap)
      | curr :: queue =>
          if decide (curr ∈ visited)
          then explore fuel adj clusterId visited clusterMap queue
          else
            let visited := {[curr]} ∪ visited in
            let clusterMap := <[curr := clusterId]> clusterMap in
            match adj !! curr with
            | None => throws
            | Some neighbors =>
                explore fuel adj clusterId visited clusterMap
                        (pushUnvisited visited queue neighbors)
            end
      end
  end.

(** One turn of [for (const node of nodes)]. *)
Definition visitNode (fuel : nat) (adj : gmap string (list string))
    (st : Outcome State) (node : Node) : Outcome State :=
  match st with
  | returns s =>
      if decide (id node ∈ visited s) then returns s
      else match explore fuel adj (clusterId s) (visited s) (clusterMap s) [id node] with
           | returns (visited', clusterMap') =>
               returns {| visited := visited'; clusterMap := clusterMap';
                          clusterId := S (clusterId s) |}
           | throws => throws
           | exhausted => exhausted
           end
  | throws => throws
  | exhausted => exhausted
  end.

(** Enough turns for one traversal: each turn pops one entry of the queue, and
    no more entries are ever pushed than the sets of [adj] have members. *)
Definition turns (adj : gmap string (list string)) : nat :=
  2 + sum_list_with (λ e : string * list string, 1 + length e.2) (map_to_list adj).

Definition getClusters (nodes : list Node) (links : list Link) : Outcome Clustering :=
  let adj := adjacency nodes links in
  let start := {| visited := ∅; clusterMap := ∅; clusterId := 0 |} in
  match foldl (visitNode (turns adj) adj) (returns start) nodes with
  | returns s => returns {| clusterMapOf := clusterMap s; numClusters := clusterId s |}
  | throws => throws
  | exhausted => exhausted
  end.

End OwnKeys.

(** ** Properties of the clustering *)

Module ClustersSpec.
Import JSFacts Clusters OwnKeys.

(** The ids of the nodes, in iteration order. *)
Definition ids (nodes : list Node) : list string := id <$> nodes.

(** Two ids are linked when some link joins them, in either direction. *)
Definition linked (links : list Link) (a b : string) : Prop :=
  ∃ l, l ∈ links
       ∧ ((source l = a ∧ target l = b) ∨ (source l = b ∧ target l = a)).

(** Two ids are connected when a path of links leads from one to the other;
    the empty path connects an id to itself. *)
Definition connected (links : list Link) : relation string := rtc (linked links).

(** Every link joins two nodes of the list. *)
Definition wellFormed (nodes : list Node) (links : list Link) : Prop :=
  ∀ l, l ∈ links → source l ∈ ids nodes ∧ target l ∈ ids nodes.

(** [leadersFrom R seen todo ls]: going through [todo] after [seen], [ls] are
    the ids that are related to no id met before them, in the order they are
    met: the first node of each component. *)
Inductive leadersFrom (R : relation string)
  : list string → list string → list string → Prop :=
  | leaders_done seen : leadersFrom R seen [] []
  | leaders_old seen x todo ls :
      (∃ y, y ∈ seen ∧ R y x) →
      leadersFrom R (seen ++ [x]) todo ls →
      leadersFrom R seen (x :: todo) ls
  | leaders_new seen x todo ls :
      (∀ y, y ∈ seen → ¬ R y x) →
      leadersFrom R (seen ++ [x]) todo ls →
      leadersFrom R seen (x :: todo) (x :: ls).

(** [n] is the number of connected components of the graph: some [n] nodes,
    no two of them connected, reach every node. *)
Definition componentCount (nodes : list Node) (links : list Link) (n : nat) : Prop :=
  ∃ reps : list string,
    length reps = n
    ∧ (∀ r, r ∈ reps → r ∈ ids nodes)
    ∧ (∀ i j r r', reps !! i = Some r → reps !! j = Some r' →
                   connected links r r' → i = j)
    ∧ (∀ x, x ∈ ids nodes → ∃ r, r ∈ reps ∧ connected links r x).

(** A node that no link touches. *)
Definition isolated (links : list Link) (x : string) : Prop :=
  ∀ l, l ∈ links → source l ≠ x ∧ target l ≠ x.

(** No node is named after a property that objects inherit. *)
Definition ordinaryNodes (nodes : list Node) : Prop :=
  ∀ x, x ∈ ids nodes → ¬ x ∈ JS.objectPrototype.

(** No end of a link is named after a property that objects inherit. *)
Definition ordinaryLinks (links : list Link) : Prop :=
  ∀ l, l ∈ links → ¬ source l ∈ JS.objectPrototype ∧ ¬ target l ∈ JS.objectPrototype.

(** The state of the outer loop, its visited keys seen through the object
    [visited]: the keys marked, and the keys inherited. *)
Definition throughObject (st : State) : State :=
  {| visited := visited st ∪ noneVisited; clusterMap := clusterMap st;
     clusterId := clusterId st |}.

(** *** The adjacency list *)

Lemma addNeighbor_lookup (adj : gmap string (list string)) a b x :
  addNeighbor adj a b !! x
  = (λ ns, if decide (x = a) then JS.setAdd ns b else ns) <$> adj !! x.
Proof.
  unfold addNeighbor. destruct (adj !! a) as [ns|] eqn:Ha.
  - rewrite lookup_insert. case_decide as Hx.
    + subst x. rewrite Ha. cbn. rewrite decide_True by done. reflexivity.
    + destruct (adj !! x); cbn; [|reflexivity]. rewrite decide_False by done.
      reflexivity.
  - destruct (decide (x = a)) as [->|Hx].
    + rewrite Ha. reflexivity.
    + destruct (adj !! x); reflexivity.
Qed.

Lemma initial_adjacency nodes (acc : gmap string (list string)) a :
  foldl (λ (adj : gmap string (list string)) n, <[id n := []]> adj) acc nodes !! a
  = if decide (a ∈ ids nodes) then Some [] else acc !! a.
Proof.
  revert acc. induction nodes as [|n nodes IH]; intros acc; cbn.
  - rewrite decide_False by apply not_elem_of_nil. reflexivity.
  - rewrite IH. unfold ids in *. case_decide as Hin.
    + rewrite decide_True by (by right). reflexivity.
    + rewrite lookup_insert. case_decide as Hn.
      * subst a. rewrite decide_True by left. reflexivity.
      * rewrite decide_False; [reflexivity|].
        intros [->|?]%elem_of_cons; contradiction.
Qed.

(** What the adjacency list holds once [done] has been folded in. *)
Definition adjacencyOf (nodes : list Node) (done : list Link)
    (adj : gmap string (list string)) : Prop :=
  ∀ a, match adj !! a with
       | Some ns => a ∈ ids nodes ∧ ∀ b, b ∈ ns ↔ linked done a b
       | None => a ∉ ids nodes
       end.

Lemma linked_snoc done l a b :
  linked (done ++ [l]) a b
  ↔ linked done a b
    ∨ (source l = a ∧ target l = b) ∨ (source l = b ∧ target l = a).
Proof.
  unfold linked. split.
  - intros (l' & [Hl'|Hl']%elem_of_app & H); [left; eauto|].
    apply list_elem_of_singleton in Hl'. subst l'. right. exact H.
  - intros [(l' & Hl' & H)|H].
    + exists l'. split; [apply elem_of_app; auto|exact H].
    + exists l. split; [apply elem_of_app; right; apply list_elem_of_singleton; done|].
      exact H.
Qed.

Lemma addLink_adjacencyOf nodes done adj l :
  adjacencyOf nodes done adj → adjacencyOf nodes (done ++ [l]) (addLink adj l).
Proof.
  intros Hadj a. specialize (Hadj a). unfold addLink.
  rewrite !addNeighbor_lookup. destruct (adj !! a) as [ns|]; cbn; [|exact Hadj].
  destruct Hadj as [Ha Hns]. split; [exact Ha|]. intros b.
  rewrite linked_snoc, <- Hns.
  repeat case_decide; rewrite ?setAdd_elem; intuition congruence.
Qed.

Lemma foldl_addLink_adjacencyOf nodes links done adj :
  adjacencyOf nodes done adj →
  adjacencyOf nodes (done ++ links) (foldl addLink adj links).
Proof.
  revert done adj. induction links as [|l links IH]; intros done adj Hadj; cbn.
  - rewrite app_nil_r. exact Hadj.
  - rewrite cons_middle, (assoc_L (++)). apply IH, addLink_adjacencyOf, Hadj.
Qed.

Lemma adjacency_spec nodes links : adjacencyOf nodes links (adjacency nodes links).
Proof.
  unfold adjacency. apply (foldl_addLink_adjacencyOf nodes links []).
  intros a. rewrite initial_adjacency, lookup_empty. case_decide as Ha; [|exact Ha].
  split; [exact Ha|]. intros b. split.
  - intros []%elem_of_nil.
  - intros (l & []%elem_of_nil & _).
Qed.

(** *** One traversal

    The facts about the two loops are proved over any adjacency list that is
    symmetric: every neighbour has an entry of its own that points back. *)

Section Traversal.
Context (adj : gmap string (list string)).

Definition adjacent (a b : string) : Prop :=
  ∃ ns, adj !! a = Some ns ∧ b ∈ ns.

Definition reaches : relation string := rtc adjacent.

Definition symmetricGraph : Prop := ∀ a b, adjacent a b → adjacent b a.

(** The entries still to be pushed: what bounds the turns of a traversal. *)
Definition weight (V : gset string) : nat :=
  sum_list_with (λ e : string * list string,
                   if decide (e.1 ∈ V) then 0 else 1 + length e.2)
                (map_to_list adj).

Lemma sum_list_with_le {A} (f g : A → nat) (l : list A) :
  (∀ x, f x ≤ g x) → sum_list_with f l ≤ sum_list_with g l.
Proof.
  intros Hfg. induction l as [|x l IH]; cbn; [lia|]. specialize (Hfg x). lia.
Qed.

Lemma sum_list_with_ext_in {A} (f g : A → nat) (l : list A) :
  (∀ x, x ∈ l → f x = g x) → sum_list_with f l = sum_list_with g l.
Proof.
  intros Hfg. induction l as [|x l IH]; cbn; [reflexivity|].
  rewrite (Hfg x) by left. rewrite IH; [reflexivity|].
  intros y Hy. apply Hfg. by right.
Qed.

Lemma weight_turns V : weight V + 2 ≤ turns adj.
Proof.
  unfold weight, turns.
  pose proof (sum_list_with_le
                (λ e : string * list string,
                   if decide (e.1 ∈ V) then 0 else 1 + length e.2)
                (λ e, 1 + length e.2) (map_to_list adj)) as Hle.
  cbn beta in Hle. pose proof (Hle (λ e, ltac:(case_decide; lia))). lia.
Qed.

Lemma weight_visit V curr ns :
  adj !! curr = Some ns → curr ∉ V →
  weight ({[curr]} ∪ V) + (1 + length ns) = weight V.
Proof.
  intros Hcurr HV. unfold weight.
  rewrite <- !(map_to_list_delete adj curr ns Hcurr). cbn [sum_list_with fst snd].
  rewrite decide_True by set_solver. rewrite (decide_False (P := curr ∈ V)) by done.
  rewrite (sum_list_with_ext_in _
             (λ e : string * list string,
                if decide (e.1 ∈ V) then 0 else 1 + length e.2)); [lia|].
  intros [k ks] Hk. apply elem_of_map_to_list, lookup_delete_Some in Hk as [Hne _].
  cbn [fst snd]. destruct (decide (k ∈ V)).
  - rewrite decide_True by set_solver. reflexivity.
  - rewrite decide_False by set_solver. reflexivity.
Qed.

Lemma pushUnvisited_elem V q ns x :
  x ∈ pushUnvisited V q ns ↔ x ∈ q ∨ (x ∈ ns ∧ x ∉ V).
Proof.
  unfold pushUnvisited. revert q. induction ns as [|n ns IH]; intros q; cbn.
  - rewrite elem_of_nil. tauto.
  - rewrite IH. case_decide as Hn; rewrite !elem_of_cons; intuition congruence.
Qed.

Lemma pushUnvisited_length V q ns :
  length (pushUnvisited V q ns) ≤ length q + length ns.
Proof.
  unfold pushUnvisited. revert q. induction ns as [|n ns IH]; intros q; cbn; [lia|].
  case_decide; etrans; [apply IH|lia|apply IH|cbn; lia].
Qed.

Lemma reaches_sym a b : symmetricGraph → reaches a b → reaches b a.
Proof.
  intros adjacent_sym H. induction H as [|a b c Hab _ IH]; [reflexivity|].
  eapply rtc_r; [exact IH|]. apply adjacent_sym, Hab.
Qed.

Lemma reaches_has_entry s x :
  symmetricGraph → is_Some (adj !! s) → reaches s x → is_Some (adj !! x).
Proof.
  intros adjacent_sym Hs H. apply rtc_inv_r in H as [<-|(y & _ & Hyx)]; [exact Hs|].
  apply adjacent_sym in Hyx as (ns & Hx & _). eauto.
Qed.

(** The invariant of the [while] loop started on [s] with cluster id [c], the
    visited set being [V0] and the cluster map [M0] at the start. *)
Record exploring (s : string) (c : nat) (V0 : gset string) (M0 : gmap string nat)
    (V : gset string) (M : gmap string nat) (Q : list string) : Prop := {
  ex_mono : V0 ⊆ V;
  ex_reach : ∀ x, x ∈ V → x ∉ V0 → reaches s x;
  ex_queue : ∀ x, x ∈ Q → reaches s x;
  ex_front : ∀ x y, x ∈ V → x ∉ V0 → adjacent x y → y ∈ V ∨ y ∈ Q;
  ex_start : s ∈ V ∨ s ∈ Q;
  ex_new : ∀ x, x ∈ V → x ∉ V0 → M !! x = Some c;
  ex_old : ∀ x, ¬ (x ∈ V ∧ x ∉ V0) → M !! x = M0 !! x
}.

Lemma exploring_skip s c V0 M0 V M curr q :
  curr ∈ V → exploring s c V0 M0 V M (curr :: q) → exploring s c V0 M0 V M q.
Proof.
  intros Hcurr [Hmono Hreach Hqueue Hfront Hstart Hnew Hold]. split; try done.
  - intros x Hx. apply Hqueue. by right.
  - intros x y Hx Hx0 Hxy.
    destruct (Hfront x y Hx Hx0 Hxy) as [?|[->|?]%elem_of_cons]; auto.
  - destruct Hstart as [?|[->|?]%elem_of_cons]; auto.
Qed.

Lemma exploring_visit s c V0 M0 V M curr q ns :
  curr ∉ V → adj !! curr = Some ns →
  exploring s c V0 M0 V M (curr :: q) →
  exploring s c V0 M0 ({[curr]} ∪ V) (<[curr := c]> M)
            (pushUnvisited ({[curr]} ∪ V) q ns).
Proof.
  intros Hcurr Hns [Hmono Hreach Hqueue Hfront Hstart Hnew Hold].
  assert (Hsc : reaches s curr) by (apply Hqueue; left).
  assert (Hcurr0 : curr ∉ V0) by set_solver.
  split.
  - set_solver.
  - intros x [->%elem_of_singleton|Hx]%elem_of_union Hx0; auto.
  - intros x [Hx|[Hx _]]%pushUnvisited_elem.
    + apply Hqueue. by right.
    + eapply rtc_r; [exact Hsc|]. exists ns. auto.
  - intros x y [->%elem_of_singleton|Hx]%elem_of_union Hx0 Hxy.
    + destruct Hxy as (ns' & Hns' & Hy). rewrite Hns in Hns'. injection Hns' as <-.
      destruct (decide (y ∈ {[curr]} ∪ V)) as [?|Hy']; [auto|].
      right. apply pushUnvisited_elem. auto.
    + destruct (Hfront x y Hx Hx0 Hxy) as [?|[->|?]%elem_of_cons].
      * left. set_solver.
      * left. set_solver.
      * right. apply pushUnvisited_elem. auto.
  - destruct Hstart as [?|[->|?]%elem_of_cons].
    + left. set_solver.
    + left. set_solver.
    + right. apply pushUnvisited_elem. auto.
  - intros x Hx Hx0. rewrite lookup_insert. case_decide; [reflexivity|].
    apply Hnew; [set_solver|done].
  - intros x Hx. rewrite lookup_insert_ne; [apply Hold|]; set_solver.
Qed.

Lemma explore_exploring s c V0 M0 fuel V M Q :
  symmetricGraph →
  is_Some (adj !! s) →
  exploring s c V0 M0 V M Q →
  length Q + weight V < fuel →
  ∃ V' M', explore fuel adj c V M Q = returns (V', M')
           ∧ exploring s c V0 M0 V' M' [].
Proof.
  intros Hsym Hs. revert V M Q. induction fuel as [|fuel IH]; intros V M Q Hinv Hfuel; [lia|].
  destruct Q as [|curr q]; cbn [explore]; [eauto|].
  cbn [length] in Hfuel. case_decide as Hcurr.
  - apply IH; [eapply exploring_skip; eassumption|lia].
  - destruct (reaches_has_entry s curr Hsym Hs) as [ns Hns]; [eapply ex_queue; [eassumption|left]|].
    rewrite Hns. apply IH; [apply exploring_visit; assumption|].
    pose proof (weight_visit V curr ns Hns Hcurr).
    pose proof (pushUnvisited_length ({[curr]} ∪ V) q ns). lia.
Qed.

Lemma explore_not_exhausted fuel c V M Q :
  length Q + weight V < fuel → explore fuel adj c V M Q ≠ exhausted.
Proof.
  revert V M Q. induction fuel as [|fuel IH]; intros V M Q Hfuel; [lia|].
  destruct Q as [|curr q]; cbn [explore]; [discriminate|].
  cbn [length] in Hfuel. case_decide as Hcurr; [apply IH; lia|].
  destruct (adj !! curr) as [ns|] eqn:Hns; [|discriminate].
  apply IH.
  pose proof (weight_visit V curr ns Hns Hcurr).
  pose proof (pushUnvisited_length ({[curr]} ∪ V) q ns). lia.
Qed.

Lemma visitNode_not_exhausted st n :
  st ≠ exhausted → visitNode (turns adj) adj st n ≠ exhausted.
Proof.
  intros Hst. destruct st as [s| |]; cbn [visitNode]; [|discriminate|done].
  case_decide; [discriminate|].
  pose proof (explore_not_exhausted (turns adj) (clusterId s) (visited s)
                (clusterMap s) [id n]) as Hex.
  pose proof (weight_turns (visited s)). cbn [length] in Hex.
  destruct (explore _ _ _ _ _ _) as [[V' M']| |]; [discriminate..|].
  exfalso. apply Hex; [lia|reflexivity].
Qed.

Lemma visitAll_not_exhausted todo st :
  st ≠ exhausted → foldl (visitNode (turns adj) adj) st todo ≠ exhausted.
Proof.
  revert st. induction todo as [|n todo IH]; intros st Hst; cbn [foldl]; [exact Hst|].
  apply IH, visitNode_not_exhausted, Hst.
Qed.

(** A set of ids closed under adjacency. *)
Definition closedSet (V : gset string) : Prop :=
  ∀ a b, a ∈ V → adjacent a b → b ∈ V.

Lemma closedSet_reaches V a b : closedSet V → a ∈ V → reaches a b → b ∈ V.
Proof. intros HV Ha H. induction H as [|a b c Hab _ IH]; eauto. Qed.

(** A traversal started on an unvisited node visits its component, and
    nothing else. *)
Lemma explore_component s c V0 M0 :
  symmetricGraph → closedSet V0 → s ∉ V0 → is_Some (adj !! s) →
  ∃ V' M',
    explore (turns adj) adj c V0 M0 [s] = returns (V', M')
    ∧ (∀ x, x ∈ V' ↔ x ∈ V0 ∨ reaches s x)
    ∧ (∀ x, x ∈ V0 → ¬ reaches s x)
    ∧ (∀ x, reaches s x → M' !! x = Some c)
    ∧ (∀ x, ¬ reaches s x → M' !! x = M0 !! x).
Proof.
  intros Hsym Hclosed Hs0 Hs.
  assert (Hinit : exploring s c V0 M0 V0 M0 [s]).
  { split.
    - done.
    - intros x Hx Hx0. contradiction.
    - intros x ->%list_elem_of_singleton. reflexivity.
    - intros x y Hx Hx0. contradiction.
    - right. by left.
    - intros x Hx Hx0. contradiction.
    - intros x _. reflexivity. }
  pose proof (weight_turns V0) as Hw.
  destruct (explore_exploring s c V0 M0 (turns adj) V0 M0 [s] Hsym Hs Hinit)
    as (V' & M' & Hrun & [Hmono Hreach _ Hfront Hstart Hnew Hold]);
    [cbn [length]; lia|].
  assert (Hdisj : ∀ x, x ∈ V0 → ¬ reaches s x).
  { intros x Hx Hsx. apply Hs0.
    eapply closedSet_reaches; [exact Hclosed|exact Hx|]. apply reaches_sym; assumption. }
  assert (Hall : ∀ x, reaches s x → x ∈ V').
  { apply (rtc_ind_r (λ x, x ∈ V') s).
    - destruct Hstart as [?|[]%elem_of_nil]. assumption.
    - intros y z Hsy Hyz IH. destruct (decide (y ∈ V0)) as [Hy0|Hy0].
      + apply Hmono. eapply Hclosed; eassumption.
      + destruct (Hfront y z IH Hy0 Hyz) as [?|[]%elem_of_nil]. assumption. }
  exists V', M'. split_and!.
  - exact Hrun.
  - intros x. split.
    + intros Hx. destruct (decide (x ∈ V0)); [by left|right; by apply Hreach].
    + intros [Hx|Hx]; [by apply Hmono|by apply Hall].
  - exact Hdisj.
  - intros x Hsx. apply Hnew; [by apply Hall|]. intros Hx0. by apply (Hdisj x).
  - intros x Hsx. apply Hold. intros [Hx Hx0]. apply Hsx. by apply Hreach.
Qed.

(** The invariant of the [for] loop, the nodes of [seen] being done. *)
Record clustered (seen : list string) (st : State) : Prop := {
  cl_visited : ∀ x, x ∈ visited st ↔ ∃ d, d ∈ seen ∧ reaches d x;
  cl_dom : ∀ x, is_Some (clusterMap st !! x) ↔ x ∈ visited st;
  cl_same : ∀ x y i j,
    clusterMap st !! x = Some i → clusterMap st !! y = Some j →
    (i = j ↔ reaches x y);
  cl_below : ∀ x i, clusterMap st !! x = Some i → i < clusterId st
}.

Lemma clustered_closed seen st : clustered seen st → closedSet (visited st).
Proof.
  intros Hcl a b Ha Hab. apply (cl_visited _ _ Hcl) in Ha as (d & Hd & Hda).
  apply (cl_visited _ _ Hcl). exists d. split; [exact Hd|].
  eapply rtc_r; eassumption.
Qed.

Lemma clustered_start : clustered [] {| visited := ∅; clusterMap := ∅; clusterId := 0 |}.
Proof.
  split; cbn.
  - intros x. split; [set_solver|]. intros (d & []%elem_of_nil & _).
  - intros x. rewrite lookup_empty. split; [intros []%is_Some_None|set_solver].
  - intros x y i j. rewrite lookup_empty. discriminate.
  - intros x i. rewrite lookup_empty. discriminate.
Qed.

(** One turn of the [for] loop on a node that is already visited... *)
Lemma clustered_skip seen st x :
  symmetricGraph → x ∈ visited st → clustered seen st → clustered (seen ++ [x]) st.
Proof.
  intros Hsym Hx Hcl. destruct Hcl as [Hvis Hdom Hsame Hbelow]. split; try done.
  intros y. rewrite Hvis. split.
  - intros (d & Hd & Hdy). exists d. split; [apply elem_of_app; by left|exact Hdy].
  - intros (d & [Hd| ->%list_elem_of_singleton]%elem_of_app & Hdy); [eauto|].
    apply Hvis in Hx as (d & Hd & Hdx). exists d. split; [exact Hd|].
    etrans; eassumption.
Qed.

(** ... and on a node that starts a new cluster. *)
Lemma clustered_new seen st s V' M' :
  symmetricGraph → s ∉ visited st → clustered seen st →
  (∀ x, x ∈ V' ↔ x ∈ visited st ∨ reaches s x) →
  (∀ x, x ∈ visited st → ¬ reaches s x) →
  (∀ x, reaches s x → M' !! x = Some (clusterId st)) →
  (∀ x, ¬ reaches s x → M' !! x = clusterMap st !! x) →
  clustered (seen ++ [s])
            {| visited := V'; clusterMap := M'; clusterId := S (clusterId st) |}.
Proof.
  intros Hsym Hs [Hvis Hdom Hsame Hbelow] HV' Hdisj Hnew Hold.
  assert (Hcase : ∀ x, x ∈ V' → (x ∈ visited st ∧ ¬ reaches s x) ∨ reaches s x).
  { intros x Hx. destruct (decide (x ∈ visited st)) as [Hx0|Hx0]; [left; auto|].
    right. apply HV' in Hx as [?|?]; [contradiction|assumption]. }
  assert (Hentry : ∀ x i, M' !! x = Some i →
            (reaches s x ∧ i = clusterId st)
            ∨ (¬ reaches s x ∧ clusterMap st !! x = Some i)).
  { intros x i Hx. destruct (decide (x ∈ V')) as [HxV|HxV].
    - destruct (Hcase x HxV) as [[_ Hnr]|Hr].
      + right. split; [exact Hnr|]. rewrite <- Hold; assumption.
      + left. split; [exact Hr|]. rewrite (Hnew x Hr) in Hx. congruence.
    - assert (Hnr : ¬ reaches s x) by (intros Hr; apply HxV, HV'; auto).
      right. split; [exact Hnr|]. rewrite <- Hold; assumption. }
  split; cbn [visited clusterMap clusterId].
  - intros x. rewrite HV', Hvis. split.
    + intros [(d & Hd & Hdx)|Hsx].
      * exists d. split; [apply elem_of_app; by left|exact Hdx].
      * exists s. split; [apply elem_of_app; right; by apply list_elem_of_singleton|done].
    + intros (d & [Hd| ->%list_elem_of_singleton]%elem_of_app & Hdx); eauto.
  - intros x. split.
    + intros [i Hi]. apply HV'. destruct (Hentry x i Hi) as [[Hr _]|[_ Hx]]; [auto|].
      left. apply Hdom. eauto.
    + intros Hx. destruct (Hcase x Hx) as [[Hx0 Hnr]|Hr].
      * rewrite (Hold x Hnr). by apply Hdom.
      * rewrite (Hnew x Hr). eauto.
  - intros x y i j Hx Hy.
    destruct (Hentry x i Hx) as [[Hrx ->]|[Hnx Hx0]],
             (Hentry y j Hy) as [[Hry ->]|[Hny Hy0]].
    + split; [intros _|done]. etrans; [apply reaches_sym; eassumption|assumption].
    + split.
      * intros <-. apply Hbelow in Hy0. lia.
      * intros Hxy. exfalso. apply Hny. etrans; eassumption.
    + split.
      * intros ->. apply Hbelow in Hx0. lia.
      * intros Hxy. exfalso. apply Hnx. etrans; [eassumption|].
        apply reaches_sym; assumption.
    + by apply Hsame.
  - intros x i Hx. destruct (Hentry x i Hx) as [[_ ->]|[_ Hx0]]; [lia|].
    apply Hbelow in Hx0. lia.
Qed.

Lemma visitAll_clustered todo seen st :
  symmetricGraph →
  (∀ n, n ∈ todo → is_Some (adj !! id n)) →
  clustered seen st →
  ∃ st' ls,
    foldl (visitNode (turns adj) adj) (returns st) todo = returns st'
    ∧ clustered (seen ++ ids todo) st'
    ∧ leadersFrom reaches seen (ids todo) ls
    ∧ clusterId st' = clusterId st + length ls
    ∧ (∀ i l, ls !! i = Some l → clusterMap st' !! l = Some (clusterId st + i))
    ∧ (∀ x, x ∈ visited st → clusterMap st' !! x = clusterMap st !! x).
Proof.
  intros Hsym. revert seen st.
  induction todo as [|n todo IH]; intros seen st Hentries Hcl; cbn [foldl].
  - exists st, []. unfold ids. cbn. rewrite app_nil_r.
    split_and!; [reflexivity | exact Hcl | constructor | lia | | reflexivity].
    intros i l. rewrite lookup_nil. discriminate.
  - assert (Htodo : ∀ m, m ∈ todo → is_Some (adj !! id m))
      by (intros m Hm; apply Hentries; by right).
    assert (Hn : is_Some (adj !! id n)) by (apply Hentries; by left).
    unfold ids. cbn [fmap list_fmap]. fold (ids todo).
    rewrite (cons_middle (id n) seen), (assoc_L (++)).
    cbn [visitNode]. case_decide as Hvisited.
    + destruct (IH (seen ++ [id n]) st Htodo (clustered_skip _ _ _ Hsym Hvisited Hcl))
        as (st' & ls & Hrun & Hcl' & Hls & Hid & Hlead & Hkeep).
      exists st', ls. split_and!; [exact Hrun | exact Hcl' | | exact Hid | exact Hlead | exact Hkeep].
      apply leaders_old; [|exact Hls]. by apply (cl_visited _ _ Hcl).
    + destruct (explore_component (id n) (clusterId st) (visited st) (clusterMap st)
                  Hsym (clustered_closed _ _ Hcl) Hvisited Hn)
        as (V' & M' & Hrun1 & HV' & Hdisj & Hnew & Hold).
      rewrite Hrun1.
      pose proof (clustered_new seen st (id n) V' M' Hsym Hvisited Hcl HV' Hdisj Hnew Hold)
        as Hcl1.
      destruct (IH (seen ++ [id n]) _ Htodo Hcl1)
        as (st' & ls & Hrun & Hcl' & Hls & Hid & Hlead & Hkeep).
      cbn [visited clusterMap clusterId] in Hid, Hlead, Hkeep.
      exists st', (id n :: ls). split_and!; [exact Hrun | exact Hcl' | ..].
      * apply leaders_new; [|exact Hls]. intros y Hy Hyn. apply Hvisited.
        apply (cl_visited _ _ Hcl). eauto.
      * cbn [length]. lia.
      * intros [|i] l Hl; cbn in Hl.
        -- injection Hl as <-. rewrite Hkeep by (apply HV'; right; reflexivity).
           rewrite Nat.add_0_r. apply Hnew. reflexivity.
        -- rewrite (Hlead i l Hl). f_equal. lia.
      * intros x Hx. rewrite Hkeep by (apply HV'; by left).
        apply Hold. by apply Hdisj.
Qed.

End Traversal.

(** *** The graph of the links *)

Lemma linked_sym links a b : linked links a b → linked links b a.
Proof. intros (l & Hl & H). exists l. split; [exact Hl|]. tauto. Qed.

Lemma linked_ids nodes links a b :
  wellFormed nodes links → linked links a b → a ∈ ids nodes ∧ b ∈ ids nodes.
Proof.
  intros Hwf (l & Hl & H). destruct (Hwf l Hl) as [Hs Ht].
  destruct H as [[<- <-]|[<- <-]]; auto.
Qed.

Lemma adjacency_entry nodes links x :
  is_Some (adjacency nodes links !! x) ↔ x ∈ ids nodes.
Proof.
  pose proof (adjacency_spec nodes links x) as H.
  destruct (adjacency nodes links !! x) as [ns|].
  - split; [intros _; apply H|eauto].
  - split; [intros []%is_Some_None|intros Hx; contradiction].
Qed.

Lemma adjacent_linked nodes links a b :
  wellFormed nodes links →
  adjacent (adjacency nodes links) a b ↔ linked links a b.
Proof.
  intros Hwf. unfold adjacent. pose proof (adjacency_spec nodes links a) as H. split.
  - intros (ns & Hns & Hb). rewrite Hns in H. by apply H.
  - intros Hab. destruct (adjacency nodes links !! a) as [ns|].
    + exists ns. split; [reflexivity|]. by apply H.
    + exfalso. apply H. by destruct (linked_ids nodes links a b Hwf Hab).
Qed.

Lemma adjacency_symmetric nodes links :
  wellFormed nodes links → symmetricGraph (adjacency nodes links).
Proof.
  intros Hwf a b Hab. apply adjacent_linked; [exact Hwf|].
  apply linked_sym. by apply (adjacent_linked nodes links).
Qed.

Lemma reaches_connected nodes links a b :
  wellFormed nodes links →
  reaches (adjacency nodes links) a b ↔ connected links a b.
Proof.
  intros Hwf. unfold reaches, connected. split.
  - intros H. induction H as [|x y z Hxy _ IH]; [reflexivity|].
    eapply rtc_l; [|exact IH]. by apply (adjacent_linked nodes links).
  - intros H. induction H as [|x y z Hxy _ IH]; [reflexivity|].
    eapply rtc_l; [|exact IH]. by apply (adjacent_linked nodes links).
Qed.

Lemma connected_sym links a b : connected links a b → connected links b a.
Proof.
  intros H. induction H as [|x y z Hxy _ IH]; [reflexivity|].
  eapply rtc_r; [exact IH|]. by apply linked_sym.
Qed.

Lemma connected_ids nodes links a b :
  wellFormed nodes links → a ∈ ids nodes → connected links a b → b ∈ ids nodes.
Proof.
  intros Hwf Ha H. apply rtc_inv_r in H as [<-|(y & _ & Hyb)]; [exact Ha|].
  by destruct (linked_ids nodes links y b Hwf Hyb).
Qed.

Lemma connected_isolated links x y : isolated links x → connected links y x → y = x.
Proof.
  intros Hx H. apply rtc_inv_r in H as [->|(z & _ & l & Hl & Hzx)]; [reflexivity|].
  destruct (Hx l Hl) as [Hs Ht]. destruct Hzx as [[_ ?]|[? _]]; contradiction.
Qed.

Lemma leadersFrom_iff (R R' : relation string) seen todo ls :
  (∀ a b, R a b ↔ R' a b) → leadersFrom R seen todo ls → leadersFrom R' seen todo ls.
Proof.
  intros HR H. induction H as [seen|seen x todo ls (y & Hy & Hyx) _ IH|seen x todo ls Hx _ IH].
  - constructor.
  - apply leaders_old; [|exact IH]. exists y. split; [exact Hy|]. by apply HR.
  - apply leaders_new; [|exact IH]. intros y Hy Hyx. apply (Hx y Hy). by apply HR.
Qed.

Lemma leadersFrom_todo (R : relation string) seen todo ls l :
  leadersFrom R seen todo ls → l ∈ ls → l ∈ todo.
Proof.
  intros H. induction H as [seen|seen x todo ls _ _ IH|seen x todo ls _ _ IH].
  - intros []%elem_of_nil.
  - intros Hl. right. by apply IH.
  - intros [->|Hl]%elem_of_cons; [by left|right; by apply IH].
Qed.

(** *** Termination *)

(** On own keys the bound on the turns is never reached. *)
Lemma getClusters_terminates nodes links : getClusters nodes links ≠ exhausted.
Proof.
  unfold getClusters. cbv zeta.
  pose proof (visitAll_not_exhausted (adjacency nodes links) nodes
                (returns {| visited := ∅; clusterMap := ∅; clusterId := 0 |})) as H.
  destruct (foldl _ _ _) as [s| |]; [discriminate..|].
  exfalso. apply H; [discriminate|reflexivity].
Qed.

(** *** The clustering of a well-formed graph *)

Lemma getClusters_clustered nodes links :
  wellFormed nodes links →
  ∃ r ls,
    getClusters nodes links = returns r
    ∧ (∀ x, is_Some (clusterMapOf r !! x) ↔ x ∈ ids nodes)
    ∧ (∀ x y i j, clusterMapOf r !! x = Some i → clusterMapOf r !! y = Some j →
                  (i = j ↔ connected links x y))
    ∧ (∀ x i, clusterMapOf r !! x = Some i → i < numClusters r)
    ∧ leadersFrom (connected links) [] (ids nodes) ls
    ∧ numClusters r = length ls
    ∧ (∀ i l, ls !! i = Some l → clusterMapOf r !! l = Some i).
Proof.
  intros Hwf. set (adj := adjacency nodes links).
  destruct (visitAll_clustered adj nodes []
              {| visited := ∅; clusterMap := ∅; clusterId := 0 |}
              (adjacency_symmetric nodes links Hwf))
    as (st & ls & Hrun & [Hvis Hdom Hsame Hbelow] & Hls & Hid & Hlead & _).
  { intros n Hn. apply adjacency_entry. unfold ids. apply list_elem_of_fmap. eauto. }
  { apply clustered_start. }
  cbn [app clusterId] in *.
  exists {| clusterMapOf := clusterMap st; numClusters := clusterId st |}, ls.
  split_and!; cbn [clusterMapOf numClusters].
  - unfold getClusters. cbv zeta. fold adj. rewrite Hrun. reflexivity.
  - intros x. rewrite Hdom, Hvis. split.
    + intros (d & Hd & Hdx). eapply connected_ids; [exact Hwf|exact Hd|].
      by apply (reaches_connected nodes links).
    + intros Hx. exists x. split; [exact Hx|reflexivity].
  - intros x y i j Hx Hy. rewrite (Hsame x y i j Hx Hy).
    by apply reaches_connected.
  - exact Hbelow.
  - eapply leadersFrom_iff; [|exact Hls]. intros a b. by apply reaches_connected.
  - exact Hid.
  - exact Hlead.
Qed.

(** *** From own keys to the objects of [getClusters] *)

Lemma noneVisited_elem x : x ∈ noneVisited ↔ x ∈ JS.objectPrototype.
Proof. unfold noneVisited. apply elem_of_list_to_set. Qed.

Lemma proto_inherited : "__proto__" ∈ JS.objectPrototype.
Proof. apply (bool_decide_unpack _). by vm_compute. Qed.

Lemma inherited_false x : ¬ x ∈ JS.objectPrototype → JS.inherited x = false.
Proof. unfold JS.inherited. apply bool_decide_eq_false_2. Qed.

Lemma setCluster_ordinary M key c :
  ¬ key ∈ JS.objectPrototype → setCluster M key c = <[key := c]> M.
Proof.
  intros Hkey. unfold setCluster.
  rewrite decide_False; [reflexivity|]. intros ->. apply Hkey, proto_inherited.
Qed.

Lemma pushUnvisited_through V q ns :
  (∀ b, b ∈ ns → ¬ b ∈ JS.objectPrototype) →
  pushUnvisited (V ∪ noneVisited) q ns = pushUnvisited V q ns.
Proof.
  unfold pushUnvisited. revert q.
  induction ns as [|n ns IH]; intros q Hns; [reflexivity|]. cbn [foldl].
  assert (Hn : ¬ n ∈ JS.objectPrototype) by (apply Hns; left).
  assert (Hrest : ∀ b, b ∈ ns → ¬ b ∈ JS.objectPrototype)
    by (intros b Hb; apply Hns; by right).
  destruct (decide (n ∈ V)) as [HV|HV].
  - rewrite decide_True by set_solver. by apply IH.
  - rewrite decide_False by (rewrite elem_of_union, noneVisited_elem; tauto).
    by apply IH.
Qed.

Lemma foldl_addLink_throws {engine : Engine} links :
  foldl (λ adj l, andThen adj (λ adj, Clusters.addLink adj l)) throws links = throws.
Proof. induction links as [|l links IH]; [reflexivity|exact IH]. Qed.

Lemma visitAll_objects_throws {engine : Engine} (adj : Adjacency) fuel todo :
  foldl (Clusters.visitNode fuel adj) throws todo = throws.
Proof. induction todo as [|n todo IH]; [reflexivity|exact IH]. Qed.

Lemma visitAll_objects_exhausted {engine : Engine} (adj : Adjacency) fuel todo :
  foldl (Clusters.visitNode fuel adj) exhausted todo = exhausted.
Proof. induction todo as [|n todo IH]; [reflexivity|exact IH]. Qed.

Section Objects.
Context {engine : Engine}.

Lemma entry_own (adj : Adjacency) key members :
  sets adj !! key = Some members → entry adj key = ownSet members.
Proof. unfold entry. by intros ->. Qed.

Lemma entry_missing (adj : Adjacency) key :
  sets adj !! key = None → ¬ key ∈ JS.objectPrototype →
  entry adj key = notASet ∨ entry adj key = nothing.
Proof.
  intros Hnone Hkey. unfold entry. rewrite Hnone.
  rewrite decide_False by (intros ->; apply Hkey, proto_inherited).
  rewrite inherited_false by done. destruct (_ && _); auto.
Qed.

Lemma entry_protoSet (adj : Adjacency) key members :
  entry adj key = protoSet members → key = "__proto__".
Proof.
  unfold entry. destruct (sets adj !! key); [discriminate|].
  case_decide; [done|]. destruct (JS.inherited key); [discriminate|].
  destruct (_ && _); discriminate.
Qed.

Lemma entry_ownSet (adj : Adjacency) key members :
  entry adj key = ownSet members → sets adj !! key = Some members.
Proof.
  unfold entry. destruct (sets adj !! key); [by intros [= ->]|].
  case_decide; [destruct (proto adj); discriminate|].
  destruct (JS.inherited key); [discriminate|]. destruct (_ && _); discriminate.
Qed.

(** On a graph whose ids are ordinary, the traversal of [getClusters] is the
    traversal on own keys: the keys that [visited] inherits are never met. *)
Lemma explore_ownKeys (adj : Adjacency) fuel c V M Q :
  (∀ a ns b, sets adj !! a = Some ns → b ∈ ns → ¬ b ∈ JS.objectPrototype) →
  (∀ q, q ∈ Q → ¬ q ∈ JS.objectPrototype) →
  Clusters.explore fuel adj c (V ∪ noneVisited) M Q
  = match OwnKeys.explore fuel (sets adj) c V M Q with
    | returns (V', M') => returns (V' ∪ noneVisited, M')
    | throws => throws
    | exhausted => exhausted
    end.
Proof.
  intros Hmem. revert V M Q.
  induction fuel as [|fuel IH]; intros V M Q HQ; [reflexivity|].
  destruct Q as [|curr q]; [reflexivity|].
  cbn [Clusters.explore OwnKeys.explore].
  assert (Hcurr : ¬ curr ∈ JS.objectPrototype) by (apply HQ; left).
  assert (Hq : ∀ x, x ∈ q → ¬ x ∈ JS.objectPrototype)
    by (intros x Hx; apply HQ; by right).
  destruct (decide (curr ∈ V)) as [HV|HV].
  - rewrite decide_True by set_solver. by apply IH.
  - rewrite decide_False by (rewrite elem_of_union, noneVisited_elem; tauto).
    rewrite setCluster_ordinary by done. rewrite (assoc_L (∪)).
    destruct (sets adj !! curr) as [ns|] eqn:Hns.
    + rewrite (entry_own _ _ _ Hns). rewrite pushUnvisited_through by eauto.
      apply IH. intros x [Hx|[Hx _]]%pushUnvisited_elem; eauto.
    + destruct (entry_missing adj curr Hns Hcurr) as [-> | ->]; reflexivity.
Qed.

Definition outcomeThroughObject (o : Outcome State) : Outcome State :=
  match o with
  | returns st => returns (throughObject st)
  | throws => throws
  | exhausted => exhausted
  end.

Lemma visitNode_ownKeys (adj : Adjacency) fuel o n :
  (∀ a ns b, sets adj !! a = Some ns → b ∈ ns → ¬ b ∈ JS.objectPrototype) →
  ¬ id n ∈ JS.objectPrototype →
  Clusters.visitNode fuel adj (outcomeThroughObject o) n
  = outcomeThroughObject (OwnKeys.visitNode fuel (sets adj) o n).
Proof.
  intros Hmem Hn. destruct o as [st| |]; [|reflexivity..].
  cbn [outcomeThroughObject Clusters.visitNode OwnKeys.visitNode throughObject
       visited clusterMap clusterId].
  destruct (decide (id n ∈ visited st)) as [HV|HV].
  - rewrite decide_True by set_solver. reflexivity.
  - rewrite decide_False by (rewrite elem_of_union, noneVisited_elem; tauto).
    rewrite explore_ownKeys; [|exact Hmem|by intros q ->%list_elem_of_singleton].
    destruct (OwnKeys.explore _ _ _ _ _ _) as [[V' M']| |]; reflexivity.
Qed.

Lemma visitAll_ownKeys (adj : Adjacency) fuel todo o :
  (∀ a ns b, sets adj !! a = Some ns → b ∈ ns → ¬ b ∈ JS.objectPrototype) →
  (∀ n, n ∈ todo → ¬ id n ∈ JS.objectPrototype) →
  foldl (Clusters.visitNode fuel adj) (outcomeThroughObject o) todo
  = outcomeThroughObject (foldl (OwnKeys.visitNode fuel (sets adj)) o todo).
Proof.
  intros Hmem. revert o. induction todo as [|n todo IH]; intros o Htodo; [reflexivity|].
  cbn [foldl]. rewrite visitNode_ownKeys; [|exact Hmem|apply Htodo; left].
  apply IH. intros m Hm. apply Htodo. by right.
Qed.

(** The nodes give [adj] its keys; none changes its prototype. *)
Lemma addNodes_ownKeys nodes (acc : gmap string (list string)) :
  ordinaryNodes nodes →
  foldl addNode {| sets := acc; proto := None |} nodes
  = {| sets := foldl (λ adj n, <[id n := []]> adj) acc nodes; proto := None |}.
Proof.
  revert acc. induction nodes as [|n nodes IH]; intros acc Hord; [reflexivity|].
  cbn [foldl]. unfold addNode at 2. cbn [sets proto].
  rewrite decide_False.
  - apply IH. intros x Hx. apply Hord. unfold ids. cbn. by right.
  - intros Hn. apply (Hord (id n)); [unfold ids; cbn; by left|].
    rewrite Hn. apply proto_inherited.
Qed.

(** [adj[a]?.add(b)] while the prototype of [adj] is [Object.prototype]. *)
Lemma addNeighbor_ownKeys (m : gmap string (list string)) a b :
  Clusters.addNeighbor {| sets := m; proto := None |} a b
  = if decide (is_Some (m !! a) ∨ ¬ a ∈ JS.objectPrototype)
    then returns {| sets := OwnKeys.addNeighbor m a b; proto := None |}
    else throws.
Proof.
  unfold Clusters.addNeighbor, OwnKeys.addNeighbor, entry. cbn [sets proto].
  destruct (m !! a) as [ns|] eqn:Ha.
  - rewrite decide_True by eauto. reflexivity.
  - destruct (decide (a ∈ JS.objectPrototype)) as [Hin|Hout].
    + rewrite (decide_False (P := _ ∨ _)) by (intros [[]%is_Some_None|?]; done).
      case_decide; [reflexivity|].
      unfold JS.inherited. by rewrite bool_decide_eq_true_2.
    + rewrite (decide_True (P := _ ∨ _)) by auto.
      rewrite decide_False by (intros ->; apply Hout, proto_inherited).
      rewrite inherited_false by done. reflexivity.
Qed.

Lemma addNeighbor_keys (m : gmap string (list string)) a b x :
  is_Some (OwnKeys.addNeighbor m a b !! x) ↔ is_Some (m !! x).
Proof. rewrite addNeighbor_lookup, fmap_is_Some. reflexivity. Qed.

#[local] Instance ordinaryLink_dec (l : Link) :
  Decision (¬ source l ∈ JS.objectPrototype ∧ ¬ target l ∈ JS.objectPrototype).
Proof. apply _. Defined.

(** A link adds each end to the set of the other, unless an end names an
    inherited property: what [adj] reads there is no set, and the call
    throws. *)
Lemma addLink_objects nodes (m : gmap string (list string)) (l : Link) :
  ordinaryNodes nodes →
  (∀ k, is_Some (m !! k) → k ∈ ids nodes) →
  Clusters.addLink {| sets := m; proto := None |} l
  = if decide (¬ source l ∈ JS.objectPrototype ∧ ¬ target l ∈ JS.objectPrototype)
    then returns {| sets := OwnKeys.addLink m l; proto := None |}
    else throws.
Proof.
  intros Hord Hkeys. unfold Clusters.addLink. rewrite addNeighbor_ownKeys.
  destruct (decide (source l ∈ JS.objectPrototype)) as [Hs|Hs].
  { rewrite decide_False.
    - cbn [andThen]. rewrite decide_False; [reflexivity|]. by intros [? _].
    - intros [Hsome|?]; [|done]. by apply (Hord _ (Hkeys _ Hsome)). }
  rewrite decide_True by auto. cbn [andThen]. rewrite addNeighbor_ownKeys.
  destruct (decide (target l ∈ JS.objectPrototype)) as [Ht|Ht].
  { rewrite decide_False.
    - rewrite decide_False; [reflexivity|]. by intros [_ ?].
    - intros [Hsome|?]; [|done]. apply addNeighbor_keys in Hsome.
      by apply (Hord _ (Hkeys _ Hsome)). }
  rewrite decide_True by auto. rewrite decide_True by auto. reflexivity.
Qed.

Lemma foldl_addLink_objects nodes links (m : gmap string (list string)) :
  ordinaryNodes nodes →
  (∀ k, is_Some (m !! k) → k ∈ ids nodes) →
  foldl (λ adj l, andThen adj (λ adj, Clusters.addLink adj l))
        (returns {| sets := m; proto := None |}) links
  = if decide (Forall (λ l, ¬ source l ∈ JS.objectPrototype
                            ∧ ¬ target l ∈ JS.objectPrototype) links)
    then returns {| sets := foldl OwnKeys.addLink m links; proto := None |}
    else throws.
Proof.
  intros Hord. revert m. induction links as [|l links IH]; intros m Hkeys.
  - rewrite decide_True by constructor. reflexivity.
  - cbn [foldl andThen]. rewrite (addLink_objects nodes) by assumption.
    destruct (decide (¬ source l ∈ JS.objectPrototype ∧ ¬ target l ∈ JS.objectPrototype))
      as [Hl|Hl].
    + rewrite IH.
      * destruct (decide (Forall _ links)) as [Hall|Hnot].
        -- rewrite decide_True by (constructor; auto). reflexivity.
        -- rewrite decide_False; [reflexivity|]. by intros [_ ?]%Forall_cons.
      * intros k Hk. apply Hkeys. unfold OwnKeys.addLink in Hk.
        by rewrite !addNeighbor_keys in Hk.
    + rewrite foldl_addLink_throws.
      rewrite decide_False; [reflexivity|]. by intros [? _]%Forall_cons.
Qed.

Lemma adjacency_objects nodes links :
  ordinaryNodes nodes →
  Clusters.adjacency nodes links
  = if decide (Forall (λ l, ¬ source l ∈ JS.objectPrototype
                            ∧ ¬ target l ∈ JS.objectPrototype) links)
    then returns {| sets := OwnKeys.adjacency nodes links; proto := None |}
    else throws.
Proof.
  intros Hord. unfold Clusters.adjacency, OwnKeys.adjacency. cbv zeta.
  rewrite addNodes_ownKeys by exact Hord.
  apply (foldl_addLink_objects nodes); [exact Hord|].
  intros k. rewrite initial_adjacency, lookup_empty.
  case_decide; [done|]. by intros []%is_Some_None.
Qed.

(** On ordinary ids [getClusters] is the clustering on own keys. *)
Lemma getClusters_ownKeys nodes links :
  ordinaryNodes nodes → ordinaryLinks links →
  Clusters.getClusters nodes links = OwnKeys.getClusters nodes links.
Proof.
  intros Hnodes Hlinks. unfold Clusters.getClusters, OwnKeys.getClusters.
  rewrite adjacency_objects by exact Hnodes.
  rewrite decide_True by (apply Forall_forall; exact Hlinks).
  cbn [andThen]. cbv zeta.
  change (returns {| visited := noneVisited; clusterMap := ∅; clusterId := 0 |})
    with (outcomeThroughObject
            (returns {| visited := ∅; clusterMap := ∅; clusterId := 0 |})).
  - change (Clusters.turns {| sets := OwnKeys.adjacency nodes links; proto := None |})
      with (OwnKeys.turns (OwnKeys.adjacency nodes links)).
    rewrite visitAll_ownKeys; cbn [sets].
    + by destruct (foldl _ _ nodes) as [st| |].
    + intros a ns b Hns Hb.
      pose proof (adjacency_spec nodes links a) as Hspec. rewrite Hns in Hspec.
      destruct Hspec as [_ Hlinked]. apply Hlinked in Hb as (l & Hl & Hab).
      destruct (Hlinks l Hl) as [Hs Ht].
      destruct Hab as [[_ <-]|[<- _]]; assumption.
    + intros n Hn. apply Hnodes. unfold ids. apply list_elem_of_fmap. eauto.
Qed.

(** A link one end of which names an inherited property makes it throw. *)
Lemma getClusters_inherited_end nodes links :
  ordinaryNodes nodes → ¬ ordinaryLinks links →
  Clusters.getClusters nodes links = throws.
Proof.
  intros Hnodes Hlinks. unfold Clusters.getClusters.
  rewrite adjacency_objects by exact Hnodes.
  rewrite decide_False; [reflexivity|].
  intros Hall. apply Hlinks. exact (proj1 (Forall_forall _ _) Hall).
Qed.

(** *** Termination *)

Lemma explore_grows (adj : Adjacency) fuel c V M Q V' M' :
  Clusters.explore fuel adj c V M Q = returns (V', M') → V ⊆ V'.
Proof.
  revert V M Q. induction fuel as [|fuel IH]; intros V M Q Hrun; [discriminate|].
  destruct Q as [|curr q]; cbn [Clusters.explore] in Hrun.
  - by injection Hrun as <- <-.
  - case_decide; [by eapply IH|].
    destruct (entry adj curr); try discriminate;
      apply IH in Hrun; set_solver.
Qed.

Lemma explore_objects_not_exhausted (adj : Adjacency) fuel c V M Q :
  noneVisited ⊆ V → length Q + weight (sets adj) V < fuel →
  Clusters.explore fuel adj c V M Q ≠ exhausted.
Proof.
  revert V M Q. induction fuel as [|fuel IH]; intros V M Q Hbase Hfuel; [lia|].
  destruct Q as [|curr q]; cbn [Clusters.explore]; [discriminate|].
  cbn [length] in Hfuel. case_decide as Hcurr; [apply IH; [done|lia]|].
  destruct (entry adj curr) as [ns|ns| |] eqn:Hentry; [| |discriminate..].
  - apply entry_ownSet in Hentry.
    apply IH; [set_solver|].
    pose proof (weight_visit (sets adj) V curr ns Hentry Hcurr).
    pose proof (pushUnvisited_length ({[curr]} ∪ V) q ns). lia.
  - apply entry_protoSet in Hentry. exfalso. apply Hcurr, Hbase.
    apply noneVisited_elem. rewrite Hentry. apply proto_inherited.
Qed.

Lemma visitAll_objects_not_exhausted (adj : Adjacency) todo st :
  noneVisited ⊆ visited st →
  foldl (Clusters.visitNode (Clusters.turns adj) adj) (returns st) todo ≠ exhausted.
Proof.
  revert st. induction todo as [|n todo IH]; intros st Hbase; cbn [foldl];
    [discriminate|].
  cbn [Clusters.visitNode]. case_decide; [by apply IH|].
  pose proof (explore_objects_not_exhausted adj (Clusters.turns adj) (clusterId st)
                (visited st) (clusterMap st) [id n] Hbase) as Hex.
  pose proof (weight_turns (sets adj) (visited st)) as Hw.
  change (OwnKeys.turns (sets adj)) with (Clusters.turns adj) in Hw.
  cbn [length] in Hex.
  destruct (Clusters.explore _ _ _ _ _ _) as [[V' M']| |] eqn:Hrun.
  - apply IH. cbn [visited]. apply explore_grows in Hrun. set_solver.
  - by rewrite visitAll_objects_throws.
  - exfalso. apply Hex; [lia|reflexivity].
Qed.

(** The bound on the turns is never reached, whatever the engine, the nodes
    and the links: [getClusters] returns or throws. *)
Lemma getClusters_objects_terminate nodes links :
  Clusters.getClusters nodes links ≠ exhausted.
Proof.
  unfold Clusters.getClusters.
  assert (Hadj : Clusters.adjacency nodes links ≠ exhausted).
  { unfold Clusters.adjacency. cbv zeta.
    generalize (foldl addNode {| sets := ∅; proto := None |} nodes).
    assert (Hfold : ∀ o, o ≠ exhausted →
              foldl (λ adj l, andThen adj (λ adj, Clusters.addLink adj l)) o links
              ≠ exhausted).
    { induction links as [|l links IH]; intros o Ho; [exact Ho|]. cbn [foldl].
      apply IH. destruct o as [adj| |]; [|discriminate|done]. cbn [andThen].
      unfold Clusters.addLink, Clusters.addNeighbor.
      destruct (entry adj (source l)); cbn [andThen]; try discriminate;
        match goal with |- context [entry ?a ?k] => destruct (entry a k) end;
        discriminate. }
    intros adj. by apply Hfold. }
  destruct (Clusters.adjacency nodes links) as [adj| |]; [|discriminate|done].
  cbn [andThen]. cbv zeta.
  pose proof (visitAll_objects_not_exhausted adj nodes
                {| visited := noneVisited; clusterMap := ∅; clusterId := 0 |}) as H.
  destruct (foldl _ _ nodes) as [s| |]; [discriminate..|].
  exfalso. by apply H.
Qed.

(** *** The clustering of a well-formed graph of ordinary ids *)

Lemma wellFormed_ordinary nodes links :
  wellFormed nodes links → ordinaryNodes nodes → ordinaryLinks links.
Proof. intros Hwf Hord l Hl. destruct (Hwf l Hl). split; by apply Hord. Qed.

Lemma getClusters_objects_clustered nodes links :
  wellFormed nodes links → ordinaryNodes nodes →
  ∃ r ls,
    Clusters.getClusters nodes links = returns r
    ∧ (∀ x, is_Some (clusterMapOf r !! x) ↔ x ∈ ids nodes)
    ∧ (∀ x y i j, clusterMapOf r !! x = Some i → clusterMapOf r !! y = Some j →
                  (i = j ↔ connected links x y))
    ∧ (∀ x i, clusterMapOf r !! x = Some i → i < numClusters r)
    ∧ leadersFrom (connected links) [] (ids nodes) ls
    ∧ numClusters r = length ls
    ∧ (∀ i l, ls !! i = Some l → clusterMapOf r !! l = Some i).
Proof.
  intros Hwf Hord.
  rewrite (getClusters_ownKeys nodes links Hord (wellFormed_ordinary _ _ Hwf Hord)).
  by apply getClusters_clustered.
Qed.

End Objects.

(** *** The failing graphs *)

(** The graph of the design document: a subject S and two counterparties A
    and B that never transact with each other. *)
Definition starNodes : list Node := [ {| id := "S" |}; {| id := "A" |}; {| id := "B" |} ].

Definition starLinks : list Link :=
  [ {| source := "A"; target := "S" |}; {| source := "S"; target := "B" |} ].



Lemma star_wellFormed : wellFormed starNodes starLinks.
Proof.
  unfold wellFormed. apply (Forall_forall (λ l, source l ∈ ids starNodes ∧ target l ∈ ids starNodes)).
  unfold starLinks.
  repeat apply Forall_cons_2; [..|apply Forall_nil_2];
    (split; apply (bool_decide_unpack _); vm_compute; exact I).
Qed.

Lemma star_ordinary : ordinaryNodes starNodes.
Proof.
  intros x Hx. revert x Hx. apply Forall_forall.
  repeat apply Forall_cons_2; [..|apply Forall_nil_2];
    apply (bool_decide_unpack _); by vm_compute.
Qed.


Example star_is_one_cluster {engine : Engine} :
  ∃ r, Clusters.getClusters starNodes starLinks = returns r
       ∧ numClusters r = 1
       ∧ clusterMapOf r !! "S" = Some 0
       ∧ clusterMapOf r !! "A" = Some 0
       ∧ clusterMapOf r !! "B" = Some 0.
Proof. eexists. split; [vm_compute; reflexivity|]. vm_compute. auto. Qed.


(** A link to an id that is not a node: the traversal reaches the id, finds
    no entry for it in the adjacency list, and [for ... of undefined] throws. *)
Definition danglingLinks : list Link := [ {| source := "S"; target := "Z" |} ].

Example dangling_link_throws {engine : Engine} :
  Clusters.getClusters starNodes danglingLinks = throws.
Proof. vm_compute. reflexivity. Qed.

Lemma dangling_not_wellFormed : ¬ wellFormed starNodes danglingLinks.
Proof.
  intros Hwf. destruct (Hwf {| source := "S"; target := "Z" |}) as [_ Hz]; [by left|].
  revert Hz. apply (bool_decide_unpack _). vm_compute. exact I.
Qed.


(** *** Ordinary ids *)

(** X21. On a graph whose nodes are not named after properties that objects
    inherit and whose links all join nodes of the list, [getClusters] returns,
    and two nodes have the same cluster id exactly when a path of links, taken
    in either direction, connects them: connected nodes share their id, nodes
    that are not connected have different ids, and the two ends of any link
    are in the same cluster. *)
Theorem same_cluster_iff_connected {engine : Engine}
    (nodes : list Node) (links : list Link) :
  wellFormed nodes links →
  ordinaryNodes nodes →
  ∃ r, Clusters.getClusters nodes links = returns r
       ∧ (∀ a b, a ∈ ids nodes → b ∈ ids nodes →
            ∃ i j, clusterMapOf r !! a = Some i
                   ∧ clusterMapOf r !! b = Some j
                   ∧ (i = j ↔ connected links a b))
       ∧ (∀ l, l ∈ links →
            ∃ i, clusterMapOf r !! source l = Some i
                 ∧ clusterMapOf r !! target l = Some i).
Proof.
  intros Hwf Hord.
  destruct (getClusters_objects_clustered nodes links Hwf Hord)
    as (r & ls & Hrun & Hdom & Hsame & _).
  exists r. split_and!; [exact Hrun| |].
  - intros a b Ha Hb.
    destruct (proj2 (Hdom a) Ha) as [i Hi], (proj2 (Hdom b) Hb) as [j Hj].
    exists i, j. split_and!; [exact Hi|exact Hj|]. by apply Hsame.
  - intros l Hl. destruct (Hwf l Hl) as [Hs Ht].
    destruct (proj2 (Hdom (source l)) Hs) as [i Hi],
             (proj2 (Hdom (target l)) Ht) as [j Hj].
    exists i. split; [exact Hi|]. rewrite Hj. f_equal. symmetry.
    apply (Hsame (source l) (target l) i j Hi Hj).
    apply rtc_once. exists l. split; [exact Hl|]. left. done.
Qed.

Lemma same_cluster_iff_connected_witness :
  wellFormed starNodes starLinks
  ∧ ordinaryNodes starNodes
  ∧ ∃ r, Clusters.getClusters (engine := referenceEngine) starNodes starLinks = returns r
         ∧ (∀ a b, a ∈ ids starNodes → b ∈ ids starNodes →
              ∃ i j, clusterMapOf r !! a = Some i
                     ∧ clusterMapOf r !! b = Some j
                     ∧ (i = j ↔ connected starLinks a b))
         ∧ (∀ l, l ∈ starLinks →
              ∃ i, clusterMapOf r !! source l = Some i
                   ∧ clusterMapOf r !! target l = Some i).
Proof.
  split; [exact star_wellFormed|]. split; [exact star_ordinary|].
  exact (same_cluster_iff_connected (engine := referenceEngine) starNodes starLinks
           star_wellFormed star_ordinary).
Defined.

(** X22. When no node is named after a property that objects inherit and
    every link joins two nodes of the list, [getClusters] returns a map that
    gives a cluster id to every node, and to nodes only; the ids are
    0, 1, ..., numClusters-1, the i-th id going to the component of the i-th
    node that iteration finds unvisited; numClusters is the number of
    connected components; and a node that no link touches is alone in its
    cluster.  A link to an id that is not a node can break this: the call
    then throws. *)
Theorem clusters_numbered_in_visit_order {engine : Engine} :
  (∀ (nodes : list Node) (links : list Link),
     wellFormed nodes links →
     ordinaryNodes nodes →
     ∃ r ls,
       Clusters.getClusters nodes links = returns r
       ∧ (∀ x, is_Some (clusterMapOf r !! x) ↔ x ∈ ids nodes)
       ∧ leadersFrom (connected links) [] (ids nodes) ls
       ∧ numClusters r = length ls
       ∧ (∀ x i, x ∈ ids nodes →
            clusterMapOf r !! x = Some i
            ↔ ∃ l, ls !! i = Some l ∧ connected links l x)
       ∧ componentCount nodes links (numClusters r)
       ∧ (∀ x y, x ∈ ids nodes → isolated links x →
            clusterMapOf r !! y = clusterMapOf r !! x → y = x))
  ∧ (∃ (nodes : list Node) (links : list Link),
       ordinaryNodes nodes ∧ ¬ wellFormed nodes links
       ∧ Clusters.getClusters nodes links = throws).
Proof.
  split; [|exists starNodes, danglingLinks;
            split_and!; [exact star_ordinary|exact dangling_not_wellFormed
                        |exact dangling_link_throws]].
  intros nodes links Hwf Hord.
  destruct (getClusters_objects_clustered nodes links Hwf Hord)
    as (r & ls & Hrun & Hdom & Hsame & Hbelow & Hls & Hnum & Hlead).
  assert (Hleader : ∀ x i, clusterMapOf r !! x = Some i →
            ∃ l, ls !! i = Some l ∧ connected links l x).
  { intros x i Hx. destruct (lookup_lt_is_Some_2 ls i) as [l Hl].
    - rewrite <- Hnum. by apply (Hbelow x).
    - exists l. split; [exact Hl|].
      by apply (Hsame l x i i (Hlead i l Hl) Hx). }
  exists r, ls. split_and!; [exact Hrun|exact Hdom|exact Hls|exact Hnum| | |].
  - intros x i Hx. split; [apply Hleader|].
    intros (l & Hl & Hlx). destruct (proj2 (Hdom x) Hx) as [j Hj].
    rewrite Hj. f_equal. symmetry. by apply (Hsame l x i j (Hlead i l Hl) Hj).
  - exists ls. split_and!.
    + symmetry. exact Hnum.
    + intros l Hl. eapply leadersFrom_todo; eassumption.
    + intros i j l l' Hl Hl' Hll'.
      by apply (Hsame l l' i j (Hlead i l Hl) (Hlead j l' Hl')).
    + intros x Hx. destruct (proj2 (Hdom x) Hx) as [i Hi].
      destruct (Hleader x i Hi) as (l & Hl & Hlx).
      exists l. split; [|exact Hlx]. eapply list_elem_of_lookup_2; eassumption.
  - intros x y Hx Hiso Hyx. destruct (proj2 (Hdom x) Hx) as [i Hi].
    rewrite Hi in Hyx. apply (connected_isolated links x y Hiso).
    by apply (Hsame y x i i Hyx Hi).
Qed.

Lemma clusters_numbered_in_visit_order_witness :
  wellFormed starNodes starLinks
  ∧ ordinaryNodes starNodes
  ∧ ∃ r ls,
      Clusters.getClusters (engine := referenceEngine) starNodes starLinks = returns r
      ∧ (∀ x, is_Some (clusterMapOf r !! x) ↔ x ∈ ids starNodes)
      ∧ leadersFrom (connected starLinks) [] (ids starNodes) ls
      ∧ numClusters r = length ls
      ∧ (∀ x i, x ∈ ids starNodes →
           clusterMapOf r !! x = Some i
           ↔ ∃ l, ls !! i = Some l ∧ connected starLinks l x)
      ∧ componentCount starNodes starLinks (numClusters r)
      ∧ (∀ x y, x ∈ ids starNodes → isolated starLinks x →
           clusterMapOf r !! y = clusterMapOf r !! x → y = x).
Proof.
  split; [exact star_wellFormed|]. split; [exact star_ordinary|].
  exact (proj1 (clusters_numbered_in_visit_order (engine := referenceEngine))
               starNodes starLinks star_wellFormed star_ordinary).
Defined.

End ClustersSpec.

(** ** Further properties of the clustering *)

Module ClustersExtra.
Import JSFacts Clusters OwnKeys ClustersSpec.

(** A link with exactly one end among the nodes. *)
Definition halfDangling (nodes : list Node) (l : Link) : Prop :=
  (source l ∈ ids nodes ∧ ¬ target l ∈ ids nodes)
  ∨ (¬ source l ∈ ids nodes ∧ target l ∈ ids nodes).

(** The links that touch a node. *)
Definition touching (nodes : list Node) (links : list Link) : list Link :=
  filter (λ l, source l ∈ ids nodes ∨ target l ∈ ids nodes) links.

(** A link with an end named after a property that objects inherit. *)
Definition inheritedEnd (l : Link) : Prop :=
  source l ∈ JS.objectPrototype ∨ target l ∈ JS.objectPrototype.

(** The links that matter: those that touch a node or have such an end. *)
Definition relevantLinks (nodes : list Node) (links : list Link) : list Link :=
  filter (λ l, (source l ∈ ids nodes ∨ target l ∈ ids nodes) ∨ inheritedEnd l) links.

(** *** What a traversal that returns has visited *)

Lemma explore_returns_closed (adj : gmap string (list string)) fuel c V M Q V' M' :
  explore fuel adj c V M Q = returns (V', M') →
  (∀ x, x ∈ V → is_Some (adj !! x)) →
  (∀ x y, x ∈ V → adjacent adj x y → y ∈ V ∨ y ∈ Q) →
  (∀ x, x ∈ V' → is_Some (adj !! x))
  ∧ closedSet adj V'
  ∧ V ⊆ V'
  ∧ (∀ q, q ∈ Q → q ∈ V').
Proof.
  revert V M Q. induction fuel as [|fuel IH]; intros V M Q Hrun Hentry Hfront;
    [discriminate|].
  destruct Q as [|curr q]; cbn [explore] in Hrun.
  - injection Hrun as <- <-. split_and!; [exact Hentry| |done|].
    + intros x y Hx Hxy. destruct (Hfront x y Hx Hxy) as [?|[]%elem_of_nil].
      assumption.
    + intros x []%elem_of_nil.
  - case_decide as Hcurr.
    + destruct (IH V M q Hrun Hentry) as (He & Hc & Hsub & Hq).
      * intros x y Hx Hxy.
        destruct (Hfront x y Hx Hxy) as [?|[-> |?]%elem_of_cons]; auto.
      * split_and!; [exact He|exact Hc|exact Hsub|].
        intros x [-> |Hx]%elem_of_cons; [by apply Hsub|by apply Hq].
    + destruct (adj !! curr) as [ns|] eqn:Hns; [|discriminate].
      destruct (IH _ _ _ Hrun) as (He & Hc & Hsub & Hq).
      * intros x [->%elem_of_singleton|Hx]%elem_of_union; [eauto|by apply Hentry].
      * intros x y [->%elem_of_singleton|Hx]%elem_of_union Hxy.
        -- destruct Hxy as (ns' & Hns' & Hy). rewrite Hns in Hns'.
           injection Hns' as <-.
           destruct (decide (y ∈ {[curr]} ∪ V)); [by left|].
           right. apply pushUnvisited_elem. auto.
        -- destruct (Hfront x y Hx Hxy) as [?|[-> |?]%elem_of_cons].
           ++ left. set_solver.
           ++ left. set_solver.
           ++ right. apply pushUnvisited_elem. auto.
      * split_and!; [exact He|exact Hc|set_solver|].
        intros x [-> |Hx]%elem_of_cons.
        -- apply Hsub. set_solver.
        -- apply Hq, pushUnvisited_elem. auto.
Qed.

Lemma visitAll_throws (adj : gmap string (list string)) fuel todo :
  foldl (visitNode fuel adj) throws todo = throws.
Proof. induction todo as [|n todo IH]; [reflexivity|exact IH]. Qed.

Lemma visitAll_exhausted (adj : gmap string (list string)) fuel todo :
  foldl (visitNode fuel adj) exhausted todo = exhausted.
Proof. induction todo as [|n todo IH]; [reflexivity|exact IH]. Qed.

Lemma visitAll_returns_closed (adj : gmap string (list string)) fuel todo st st' :
  foldl (visitNode fuel adj) (returns st) todo = returns st' →
  (∀ x, x ∈ visited st → is_Some (adj !! x)) →
  closedSet adj (visited st) →
  (∀ x, x ∈ visited st' → is_Some (adj !! x))
  ∧ closedSet adj (visited st')
  ∧ visited st ⊆ visited st'
  ∧ (∀ n, n ∈ todo → id n ∈ visited st').
Proof.
  revert st. induction todo as [|n todo IH]; intros st Hrun Hentry Hclosed;
    cbn [foldl] in Hrun.
  - injection Hrun as <-. split_and!; [exact Hentry|exact Hclosed|done|].
    intros n []%elem_of_nil.
  - cbn [visitNode] in Hrun. case_decide as Hn.
    + destruct (IH st Hrun Hentry Hclosed) as (He & Hc & Hsub & Hall).
      split_and!; [exact He|exact Hc|exact Hsub|].
      intros m [-> |Hm]%elem_of_cons; [by apply Hsub|by apply Hall].
    + destruct (explore fuel adj (clusterId st) (visited st) (clusterMap st) [id n])
        as [[V1 M1]| |] eqn:Hrun1;
        [|by rewrite visitAll_throws in Hrun|by rewrite visitAll_exhausted in Hrun].
      destruct (explore_returns_closed adj _ _ _ _ _ _ _ Hrun1 Hentry)
        as (He1 & Hc1 & Hsub1 & Hq1).
      { intros x y Hx Hxy. left. eapply Hclosed; eassumption. }
      destruct (IH _ Hrun He1 Hc1) as (He & Hc & Hsub & Hall).
      cbn [visited] in *.
      split_and!; [exact He|exact Hc|set_solver|].
      intros m [-> |Hm]%elem_of_cons; [|by apply Hall].
      apply Hsub, Hq1. by left.
Qed.

(** *** Links that touch no node *)

Lemma addLink_entry (adj : gmap string (list string)) l x :
  is_Some (addLink adj l !! x) ↔ is_Some (adj !! x).
Proof.
  unfold addLink. rewrite !addNeighbor_lookup, !fmap_is_Some. reflexivity.
Qed.

Lemma addLink_outside (adj : gmap string (list string)) l :
  adj !! source l = None → adj !! target l = None → addLink adj l = adj.
Proof.
  intros Hs Ht. unfold addLink, addNeighbor. rewrite Hs, Ht. reflexivity.
Qed.

Lemma foldl_addLink_touching nodes links (adj : gmap string (list string)) :
  (∀ x, is_Some (adj !! x) ↔ x ∈ ids nodes) →
  foldl addLink adj links = foldl addLink adj (touching nodes links).
Proof.
  unfold touching. revert adj. induction links as [|l links IH]; intros adj Hdom;
    [reflexivity|].
  cbn [foldl].
  destruct (decide (source l ∈ ids nodes ∨ target l ∈ ids nodes)) as [Hl|Hl].
  - rewrite filter_cons_True by exact Hl. cbn [foldl]. apply IH.
    intros x. rewrite addLink_entry. apply Hdom.
  - rewrite filter_cons_False by exact Hl. rewrite addLink_outside; [by apply IH| |].
    + apply eq_None_not_Some. rewrite Hdom. tauto.
    + apply eq_None_not_Some. rewrite Hdom. tauto.
Qed.

Lemma adjacency_touching nodes links :
  adjacency nodes links = adjacency nodes (touching nodes links).
Proof.
  unfold adjacency. cbv zeta. apply foldl_addLink_touching.
  intros x. rewrite initial_adjacency, lookup_empty.
  case_decide as Hx; split; intros H.
  - exact Hx.
  - eauto.
  - by destruct H.
  - contradiction.
Qed.

Lemma getClusters_touching nodes links :
  getClusters nodes links = getClusters nodes (touching nodes links).
Proof. unfold getClusters. by rewrite <- adjacency_touching. Qed.

Lemma touching_wellFormed nodes links :
  (∀ l, l ∈ links → ¬ halfDangling nodes l) →
  wellFormed nodes (touching nodes links).
Proof.
  intros Hnone l [Hl Hin]%list_elem_of_filter. specialize (Hnone l Hin).
  unfold halfDangling in Hnone.
  destruct (decide (source l ∈ ids nodes)), (decide (target l ∈ ids nodes)); tauto.
Qed.

#[global] Instance halfDangling_dec nodes l : Decision (halfDangling nodes l).
Proof. unfold halfDangling. apply _. Defined.

Lemma getClusters_returns_sound nodes links r :
  getClusters nodes links = returns r →
  ∀ l, l ∈ links → ¬ halfDangling nodes l.
Proof.
  unfold getClusters. cbv zeta. set (adj := adjacency nodes links).
  destruct (foldl _ _ nodes) as [st| |] eqn:Hrun; [|discriminate..]. intros _.
  destruct (visitAll_returns_closed adj _ nodes _ st Hrun) as (He & Hc & _ & Hall).
  { intros x Hx. cbn in Hx. set_solver. }
  { intros x y Hx. cbn in Hx. set_solver. }
  assert (Hvisited : ∀ x, x ∈ ids nodes → x ∈ visited st).
  { intros x (n & -> & Hn)%list_elem_of_fmap. by apply Hall. }
  assert (Hreach : ∀ a b, a ∈ ids nodes → linked links a b → b ∈ ids nodes).
  { intros a b Ha Hab. apply (adjacency_entry nodes links), He.
    apply (Hc a b); [by apply Hvisited|].
    pose proof (adjacency_spec nodes links a) as Hspec. subst adj.
    destruct (adjacency nodes links !! a) as [ns|] eqn:Hns; [|contradiction].
    exists ns. split; [exact Hns|]. by apply Hspec. }
  intros l Hl [[Hs Ht]|[Hs Ht]].
  - apply Ht, (Hreach (source l)); [exact Hs|]. exists l. auto.
  - apply Hs, (Hreach (target l)); [exact Ht|]. exists l. auto.
Qed.

Lemma ownKeys_throws_iff (nodes : list Node) (links : list Link) :
  (getClusters nodes links = throws ↔ ∃ l, l ∈ links ∧ halfDangling nodes l)
  ∧ ((∀ l, l ∈ links → ¬ halfDangling nodes l) →
     ∃ r, getClusters nodes links = returns r).
Proof.
  assert (Hreturns : (∀ l, l ∈ links → ¬ halfDangling nodes l) →
                     ∃ r, getClusters nodes links = returns r).
  { intros Hnone. rewrite getClusters_touching.
    destruct (getClusters_clustered nodes (touching nodes links)
                (touching_wellFormed nodes links Hnone)) as (r & _ & Hr & _).
    eauto. }
  split; [|exact Hreturns].
  split.
  - intros Hthrows.
    destruct (decide (Exists (halfDangling nodes) links)) as [Hex|Hnex].
    + by apply Exists_exists in Hex.
    + destruct Hreturns as [r Hr]; [|congruence].
      intros l Hl Hhalf. apply Hnex, Exists_exists. eauto.
  - intros (l & Hl & Hhalf).
    destruct (getClusters nodes links) as [r| |] eqn:Hrun; [|reflexivity|].
    + exfalso. by apply (getClusters_returns_sound nodes links r Hrun l Hl).
    + exfalso. by apply (getClusters_terminates nodes links).
Qed.

#[global] Instance inheritedEnd_dec l : Decision (inheritedEnd l).
Proof. unfold inheritedEnd. apply _. Defined.

Lemma ordinaryLinks_none links :
  ordinaryLinks links ↔ ∀ l, l ∈ links → ¬ inheritedEnd l.
Proof.
  unfold ordinaryLinks, inheritedEnd.
  split; intros H l Hl; specialize (H l Hl); tauto.
Qed.

Lemma relevantLinks_ordinary nodes links :
  ordinaryLinks links → relevantLinks nodes links = touching nodes links.
Proof.
  intros Hord. unfold relevantLinks, touching.
  induction links as [|l links IH]; [reflexivity|].
  assert (Hl : ¬ inheritedEnd l)
    by (apply (proj1 (ordinaryLinks_none _) Hord); left).
  assert (Hrest : ordinaryLinks links) by (intros l' Hl'; apply Hord; by right).
  rewrite !filter_cons, (IH Hrest).
  destruct (decide (source l ∈ ids nodes ∨ target l ∈ ids nodes)) as [Ht|Ht].
  - rewrite decide_True by auto. reflexivity.
  - rewrite decide_False by tauto. reflexivity.
Qed.

Lemma relevantLinks_inherited nodes links :
  ordinaryLinks (relevantLinks nodes links) → ordinaryLinks links.
Proof.
  intros Hord l Hl.
  destruct (decide (inheritedEnd l)) as [Hin|Hout]; [|unfold inheritedEnd in Hout; tauto].
  exfalso. assert (Hrel : l ∈ relevantLinks nodes links)
    by (apply list_elem_of_filter; auto).
  by apply (proj1 (ordinaryLinks_none _) Hord l Hrel).
Qed.

#[local] Instance ordinaryLinks_dec links : Decision (ordinaryLinks links).
Proof.
  refine (cast_if (decide (Forall (λ l, ¬ source l ∈ JS.objectPrototype
                                        ∧ ¬ target l ∈ JS.objectPrototype) links)));
    unfold ordinaryLinks; by rewrite <- Forall_forall.
Defined.

(** X6. When no node is named after a property that objects inherit,
    [getClusters] throws exactly when some link has one end among the nodes
    and the other not (the traversal reaches the foreign id and finds no
    adjacency entry for it), or has an end named after an inherited property
    ([adj[end]?.add(...)] reads a function there: [?.] lets it through, since
    it is neither [null] nor [undefined], and it has no method [add]).  The
    other links with no end among the nodes are ignored: dropping them changes
    nothing; and when no link is of the two kinds the call returns. *)
Theorem getClusters_throws_iff {engine : Engine} (nodes : list Node) (links : list Link) :
  ordinaryNodes nodes →
  (Clusters.getClusters nodes links = throws
   ↔ ∃ l, l ∈ links ∧ (halfDangling nodes l ∨ inheritedEnd l))
  ∧ Clusters.getClusters nodes links
    = Clusters.getClusters nodes (relevantLinks nodes links)
  ∧ ((∀ l, l ∈ links → ¬ halfDangling nodes l ∧ ¬ inheritedEnd l) →
     ∃ r, Clusters.getClusters nodes links = returns r).
Proof.
  intros Hnodes.
  destruct (decide (ordinaryLinks links)) as [Hlinks|Hlinks].
  - rewrite (getClusters_ownKeys nodes links Hnodes Hlinks).
    assert (Hrel : ordinaryLinks (relevantLinks nodes links))
      by (intros l [_ Hl]%list_elem_of_filter; by apply Hlinks).
    rewrite (getClusters_ownKeys nodes _ Hnodes Hrel).
    rewrite (relevantLinks_ordinary nodes links Hlinks).
    destruct (ownKeys_throws_iff nodes links) as [Hiff Hreturns].
    split_and!.
    + rewrite Hiff. split.
      * intros (l & Hl & Hhalf). eauto.
      * intros (l & Hl & [Hhalf|Hin]); [eauto|].
        exfalso. by apply (proj1 (ordinaryLinks_none _) Hlinks l Hl).
    + apply getClusters_touching.
    + intros Hnone. apply Hreturns. intros l Hl. by apply Hnone.
  - rewrite (getClusters_inherited_end nodes links Hnodes Hlinks).
    assert (Hrel : ¬ ordinaryLinks (relevantLinks nodes links))
      by (intros Hrel; by apply Hlinks, (relevantLinks_inherited nodes)).
    rewrite (getClusters_inherited_end nodes _ Hnodes Hrel).
    assert (Hex : ∃ l, l ∈ links ∧ inheritedEnd l).
    { destruct (decide (Exists inheritedEnd links)) as [Hex|Hnex].
      - by apply Exists_exists in Hex.
      - exfalso. apply Hlinks, ordinaryLinks_none. intros l Hl Hin.
        apply Hnex, Exists_exists. eauto. }
    destruct Hex as (l & Hl & Hin).
    split_and!; [|reflexivity|].
    + split; [eauto|done].
    + intros Hnone. by destruct (Hnone l Hl).
Qed.

(** The star of [starNodes] with a link to "Z", which is no node. *)
Lemma getClusters_throws_iff_witness :
  ordinaryNodes starNodes
  ∧ (∃ l, l ∈ danglingLinks ∧ (halfDangling starNodes l ∨ inheritedEnd l))
  ∧ Clusters.getClusters (engine := referenceEngine) starNodes danglingLinks = throws.
Proof.
  assert (H : ∃ l, l ∈ danglingLinks ∧ (halfDangling starNodes l ∨ inheritedEnd l)).
  { exists {| source := "S"; target := "Z" |}. split; [by left|]. left. left.
    split; apply (bool_decide_unpack _); by vm_compute. }
  split; [exact star_ordinary|]. split; [exact H|].
  exact (proj2 (proj1 (getClusters_throws_iff (engine := referenceEngine)
                         starNodes danglingLinks star_ordinary)) H).
Defined.

(** A link from the node S to "toString", which is no node: the set of S
    takes "toString", and [adj["toString"]?.add("S")] throws. *)
Example inherited_end_throws {engine : Engine} :
  Clusters.getClusters [ {| id := "S" |} ] [ {| source := "S"; target := "toString" |} ]
  = throws.
Proof. by vm_compute. Qed.

(** *** The leaders of a traversal *)

Lemma leadersFrom_unique (R : relation string) seen todo ls ls' :
  leadersFrom R seen todo ls → leadersFrom R seen todo ls' → ls = ls'.
Proof.
  intros H. revert ls'.
  induction H as [seen|seen x todo ls Hold _ IH|seen x todo ls Hnew _ IH];
    intros ls' H'; inversion H' as [|? ? ? ? Hold' Hrest|? ? ? ? Hnew' Hrest]; subst.
  - reflexivity.
  - by apply IH.
  - destruct Hold as (y & Hy & Hyx). destruct (Hnew' y Hy Hyx).
  - destruct Hold' as (y & Hy & Hyx). destruct (Hnew y Hy Hyx).
  - f_equal. by apply IH.
Qed.

Lemma leadersFrom_length (R : relation string) seen todo ls :
  leadersFrom R seen todo ls → length ls ≤ length todo.
Proof.
  intros H. induction H as [seen|seen x todo ls _ _ IH|seen x todo ls _ _ IH];
    cbn [length]; lia.
Qed.

Lemma leadersFrom_head (R : relation string) x todo ls :
  leadersFrom R [] (x :: todo) ls → ls !! 0 = Some x.
Proof.
  intros H. inversion H as [|? ? ? ? Hold _|]; subst; [|reflexivity].
  destruct Hold as (y & []%elem_of_nil & _).
Qed.

Lemma getClusters_returns_clustered nodes links r :
  getClusters nodes links = returns r →
  ∃ ls,
    (∀ x, is_Some (clusterMapOf r !! x) ↔ x ∈ ids nodes)
    ∧ (∀ x i, clusterMapOf r !! x = Some i → i < numClusters r)
    ∧ leadersFrom (connected (touching nodes links)) [] (ids nodes) ls
    ∧ numClusters r = length ls
    ∧ (∀ i l, ls !! i = Some l → clusterMapOf r !! l = Some i).
Proof.
  intros Hrun.
  pose proof (getClusters_returns_sound nodes links r Hrun) as Hnone.
  destruct (getClusters_clustered nodes (touching nodes links)
              (touching_wellFormed nodes links Hnone))
    as (r' & ls & Hrun' & Hdom & _ & Hbelow & Hls & Hnum & Hlead).
  rewrite <- getClusters_touching, Hrun in Hrun'. injection Hrun' as <-.
  exists ls. split_and!; assumption.
Qed.

Lemma ownKeys_connectivity_only (nodes : list Node) (links links' : list Link) :
  wellFormed nodes links →
  wellFormed nodes links' →
  (∀ a b, connected links a b ↔ connected links' a b) →
  getClusters nodes links = getClusters nodes links'.
Proof.
  intros Hwf Hwf' Hsame.
  destruct (getClusters_clustered nodes links Hwf)
    as (r & ls & Hrun & Hdom & Hconn & _ & Hls & Hnum & Hlead).
  destruct (getClusters_clustered nodes links' Hwf')
    as (r' & ls' & Hrun' & Hdom' & Hconn' & Hbelow' & Hls' & Hnum' & Hlead').
  rewrite Hrun, Hrun'. f_equal.
  assert (ls = ls') as <-.
  { eapply leadersFrom_unique; [|exact Hls'].
    by apply (leadersFrom_iff (connected links)). }
  destruct r as [m k], r' as [m' k']; cbn [clusterMapOf numClusters] in *.
  f_equal; [|congruence].
  apply map_eq. intros x.
  destruct (m' !! x) as [j|] eqn:Hj.
  - assert (Hlt : j < length ls) by (rewrite <- Hnum'; by eapply Hbelow').
    destruct (lookup_lt_is_Some_2 ls j Hlt) as [l Hl].
    pose proof (Hlead j l Hl) as Hml. pose proof (Hlead' j l Hl) as Hml'.
    destruct (proj2 (Hdom x)) as [i Hi]; [apply Hdom'; eauto|].
    rewrite Hi. f_equal. symmetry.
    apply (Hconn l x j i Hml Hi), Hsame, (Hconn' l x j j Hml' Hj). reflexivity.
  - apply eq_None_not_Some. rewrite Hdom, <- Hdom', Hj. by intros [? ?].
Qed.

(** X7. On nodes that are not named after properties that objects inherit,
    the clustering depends on the links only through the connectivity they
    give: two lists of links between the same nodes that connect the same
    pairs of ids give the same map and the same count.  The order of the
    links, their direction, duplicates and links between nodes that are
    connected already make no difference. *)
Theorem getClusters_connectivity_only {engine : Engine}
    (nodes : list Node) (links links' : list Link) :
  ordinaryNodes nodes →
  wellFormed nodes links →
  wellFormed nodes links' →
  (∀ a b, connected links a b ↔ connected links' a b) →
  Clusters.getClusters nodes links = Clusters.getClusters nodes links'.
Proof.
  intros Hnodes Hwf Hwf' Hsame.
  rewrite (getClusters_ownKeys nodes links Hnodes (wellFormed_ordinary _ _ Hwf Hnodes)).
  rewrite (getClusters_ownKeys nodes links' Hnodes (wellFormed_ordinary _ _ Hwf' Hnodes)).
  by apply ownKeys_connectivity_only.
Qed.

(** X8. On nodes that are not named after properties that objects inherit,
    whenever [getClusters] returns, the map has an entry for every node and
    for nothing else, every cluster id in it is below [numClusters], every
    number below [numClusters] is the id of some node, there are at most as
    many clusters as nodes, none exactly when there is no node, and the first
    node of the list is in cluster 0. *)
Theorem getClusters_result_shape {engine : Engine} (nodes : list Node) (links : list Link)
    (r : Clustering) :
  ordinaryNodes nodes →
  Clusters.getClusters nodes links = returns r →
  (∀ x, is_Some (clusterMapOf r !! x) ↔ x ∈ ids nodes)
  ∧ (∀ x i, clusterMapOf r !! x = Some i → i < numClusters r)
  ∧ (∀ i, i < numClusters r →
       ∃ x, x ∈ ids nodes ∧ clusterMapOf r !! x = Some i)
  ∧ numClusters r ≤ length nodes
  ∧ (numClusters r = 0 ↔ nodes = [])
  ∧ (∀ n rest, nodes = n :: rest → clusterMapOf r !! id n = Some 0).
Proof.
  intros Hnodes Hrun.
  assert (Hlinks : ordinaryLinks links).
  { destruct (decide (ordinaryLinks links)) as [?|Hnot]; [assumption|].
    rewrite (getClusters_inherited_end nodes links Hnodes Hnot) in Hrun.
    discriminate. }
  rewrite (getClusters_ownKeys nodes links Hnodes Hlinks) in Hrun.
  destruct (getClusters_returns_clustered nodes links r Hrun)
    as (ls & Hdom & Hbelow & Hls & Hnum & Hlead).
  assert (Hfirst : ∀ n rest, nodes = n :: rest → clusterMapOf r !! id n = Some 0).
  { intros n rest ->. apply Hlead. by apply leadersFrom_head in Hls. }
  split_and!; [exact Hdom|exact Hbelow| | | |exact Hfirst].
  - intros i Hi. rewrite Hnum in Hi.
    destruct (lookup_lt_is_Some_2 ls i Hi) as [l Hl].
    exists l. split; [|by apply Hlead].
    apply (leadersFrom_todo _ _ _ _ _ Hls). by eapply list_elem_of_lookup_2.
  - rewrite Hnum. apply leadersFrom_length in Hls.
    unfold ids in Hls. by rewrite length_fmap in Hls.
  - split.
    + intros Hzero. destruct nodes as [|n rest]; [reflexivity|].
      pose proof (Hbelow _ _ (Hfirst n rest eq_refl)). lia.
    + intros ->. rewrite Hnum. apply leadersFrom_length in Hls. cbn in Hls. lia.
Qed.

(** Two link lists for the star of [starNodes]: the second reverses, repeats
    and reorders the links of the first. *)
Definition shuffledStarLinks : list Link :=
  reverse starLinks ++ ((λ l, {| source := target l; target := source l |}) <$> starLinks).

Lemma linked_shuffledStar a b :
  linked starLinks a b ↔ linked shuffledStarLinks a b.
Proof.
  unfold linked, shuffledStarLinks. split.
  - intros (l & Hl & Hab). exists l. split; [|exact Hab].
    apply elem_of_app. left. by apply elem_of_reverse.
  - intros (l & [Hl|Hl]%elem_of_app & Hab).
    + exists l. split; [by apply elem_of_reverse|exact Hab].
    + apply list_elem_of_fmap in Hl as (l0 & -> & Hl0). exists l0.
      split; [exact Hl0|]. cbn [source target] in Hab. tauto.
Qed.

Lemma connected_shuffledStar a b :
  connected starLinks a b ↔ connected shuffledStarLinks a b.
Proof.
  unfold connected. split; intros H.
  - induction H as [|x y z Hxy _ IH]; [reflexivity|].
    eapply rtc_l; [|exact IH]. by apply linked_shuffledStar.
  - induction H as [|x y z Hxy _ IH]; [reflexivity|].
    eapply rtc_l; [|exact IH]. by apply linked_shuffledStar.
Qed.

Lemma shuffledStar_wellFormed : wellFormed starNodes shuffledStarLinks.
Proof.
  intros l Hl. vm_compute in Hl.
  repeat (apply elem_of_cons in Hl as [-> |Hl]; [split; vm_compute; set_solver|]).
  by apply elem_of_nil in Hl.
Qed.

Lemma getClusters_connectivity_only_witness :
  ordinaryNodes starNodes
  ∧ wellFormed starNodes starLinks
  ∧ wellFormed starNodes shuffledStarLinks
  ∧ Clusters.getClusters (engine := referenceEngine) starNodes starLinks
    = Clusters.getClusters (engine := referenceEngine) starNodes shuffledStarLinks.
Proof.
  split_and!; [exact star_ordinary|exact star_wellFormed|exact shuffledStar_wellFormed|].
  exact (getClusters_connectivity_only (engine := referenceEngine)
           starNodes starLinks shuffledStarLinks
           star_ordinary star_wellFormed shuffledStar_wellFormed connected_shuffledStar).
Defined.

Lemma getClusters_result_shape_witness :
  ordinaryNodes starNodes
  ∧ ∃ r, Clusters.getClusters (engine := referenceEngine) starNodes starLinks = returns r
         ∧ numClusters r ≤ length starNodes.
Proof.
  split; [exact star_ordinary|].
  eexists. split; [vm_compute; reflexivity|].
  eapply (getClusters_result_shape (engine := referenceEngine) starNodes starLinks);
    [exact star_ordinary|vm_compute; reflexivity].
Defined.

End ClustersExtra.

(** ** The wallet graph ([createNetworkVisualization] in [app/page.tsx]) *)

(** An object created by [{}] and used as a table: the keys it owns, in the
    order they were created, each with its value. *)
Module JSObject.

(** The value of a key that the object owns. *)
Fixpoint get {V} (o : list (string * V)) (k : string) : option V :=
  match o with
  | [] => None
  | (k', v) :: o' => if decide (k' = k) then Some v else get o' k
  end.

(** [o[k]]: the value of a key that the object owns, or else what it
    inherits under that name. *)
Definition read {V} (o : list (string * V)) (k : string) : JS.Read V :=
  match get o k with
  | Some v => JS.ownValue v
  | None => if JS.inherited k then JS.inheritedValue else JS.undefined
  end.

(** [o[k] = v], for a key other than "__proto__": a new key goes last, a key
    already there keeps its place. *)
Fixpoint set {V} (o : list (string * V)) (k : string) (v : V)
  : list (string * V) :=
  match o with
  | [] => [(k, v)]
  | (k', v') :: o' => if decide (k' = k) then (k', v) :: o' else (k', v') :: set o' k v
  end.

Definition digit (c : ascii) : option N :=
  let n := N_of_ascii c in
  if ((48 <=? n) && (n <=? 57))%N then Some (n - 48)%N else None.

Fixpoint digits (acc : N) (s : string) : option N :=
  match s with
  | EmptyString => Some acc
  | String c rest =>
      match digit c with
      | Some d => digits (10 * acc + d)%N rest
      | None => None
      end
  end.

(** The keys that are array indices: the canonical decimal writing of an
    integer from 0 to 2^32 - 2. *)
Definition arrayIndex (k : string) : option N :=
  match k with
  | EmptyString => None
  | String "0" EmptyString => Some 0%N
  | String "0" _ => None
  | _ => match digits 0 k with
         | Some n => if (n <=? 4294967294)%N then Some n else None
         | None => None
         end
  end.

Fixpoint insertByIndex {A} (x : N * A) (l : list (N * A)) : list (N * A) :=
  match l with
  | [] => [x]
  | y :: l' => if (x.1 <=? y.1)%N then x :: l else y :: insertByIndex x l'
  end.

Definition sortByIndex {A} (l : list (N * A)) : list (N * A) :=
  foldr insertByIndex [] l.

(** [Object.entries(o)]: the array indices first, in ascending order, then the
    other keys in the order they were created. *)
Definition entries {V} (o : list (string * V)) : list (string * V) :=
  let indexed := omap (λ kv : string * V, (λ n, (n, kv)) <$> arrayIndex kv.1) o in
  (sortByIndex indexed).*2 ++ filter (λ kv : string * V, arrayIndex kv.1 = None) o.

End JSObject.

Module Page.

Record NodeDatum : Type := {
  id : string;
  nodeType : string;
  label : string;
  x : option float;
  y : option float;
  total : float;
  txCount : nat;
  clusterId : JS.Read nat;
  risk : RiskLevel;
  tokens : option (list string)
}.

Record LinkDatum : Type := {
  source : string;
  target : string;
  value : float;
  linkToken : string;
  linkType : string;
  linkTimestamp : float;
  linkHash : string
}.

(** An entry of [counterpartyMap]. *)
Record CounterpartyEntry : Type := {
  entryTotal : float;
  entryTxCount : nat;
  types : list string;
  entryTokens : list string
}.

(** [getClusters] reads the [id] of a node and the two ends of a link. *)
Definition asNode (n : NodeDatum) : Clusters.Node := {| Clusters.id := id n |}.

Definition asLink (l : LinkDatum) : Clusters.Link :=
  {| Clusters.source := source l; Clusters.target := target l |}.

(** [Math.max] on two numbers: NaN if either is, and [+0] above [-0]. *)
Definition mathMax (a b : float) : float :=
  if is_nan a then a
  else if is_nan b then b
  else if (b <? a)%float then a
  else if (a <? b)%float then b
  else match classify a with
       | PZero => a
       | _ => b
       end.

(** [tx.counterparty || tx.from || tx.to || "UNKNOWN"]. *)
Definition counterpartyOf (tx : Transaction) : string :=
  if JS.truthyStr (counterparty tx) then counterparty tx
  else JS.orElseStr (from tx) (JS.orElseStr (to tx) "UNKNOWN").

(** One call of the function given to [relevantTransactions.forEach].  For a
    counterparty that names a property of [Object.prototype],
    [counterpartyMap[counterparty]] reads what the table inherits: it is
    truthy, so no entry is made, and it has no property [types], so
    [.types.add(tx.type)] throws a [TypeError].  (The two statements before
    it have by then written [total] and [txCount] on the inherited object;
    the call builds nothing from them.) *)
Definition processTransaction (address : string)
    (acc : list (string * CounterpartyEntry) * list LinkDatum) (tx : Transaction)
  : Clusters.Outcome (list (string * CounterpartyEntry) * list LinkDatum) :=
  let '(counterpartyMap, links) := acc in
  let counterparty := counterpartyOf tx in
  if negb (JS.truthyStr counterparty) || bool_decide (counterparty = address)
  then Clusters.returns acc
  else
    let record (entry : CounterpartyEntry) :=
      let entry :=
        {| entryTotal := (entryTotal entry + amount tx)%float;
           entryTxCount := entryTxCount entry + 1;
           types := JS.setAdd (types entry) (typeName (type tx));
           entryTokens := JS.setAdd (entryTokens entry) (token tx) |} in
      (JSObject.set counterpartyMap counterparty entry,
       links ++ [ {| source := match type tx with
                               | incoming => counterparty
                               | outgoing => address
                               end;
                     target := match type tx with
                               | incoming => address
                               | outgoing => counterparty
                               end;
                     value := amount tx;
                     linkToken := token tx;
                     linkType := typeName (type tx);
                     linkTimestamp := timestamp tx;
                     linkHash := hash tx |} ]) in
    match JSObject.read counterpartyMap counterparty with
    | JS.ownValue entry => Clusters.returns (record entry)
    | JS.undefined =>
        Clusters.returns
          (record {| entryTotal := 0; entryTxCount := 0; types := []; entryTokens := [] |})
    | JS.inheritedValue => Clusters.throws
    end.

(** The node made from an entry of [counterpartyMap]. *)
Definition counterpartyNode (e : string * CounterpartyEntry) : NodeDatum :=
  let '(id, entry) := e in
  let isSuspicious :=
    bool_decide (10 < entryTxCount entry) || JS.gt (entryTotal entry) 1000
    || bool_decide (1 < length (types entry)) in
  {| id := id;
     nodeType := if isSuspicious then "suspicious" else "wallet";
     label := String.substring 0 8 id +:+ "..."
              +:+ String.substring (String.length id - 4) (String.length id) id;
     x := None;
     y := None;
     total := entryTotal entry;
     txCount := entryTxCount entry;
     clusterId := JS.undefined;
     risk := if isSuspicious then high else low;
     tokens := Some (entryTokens entry) |}.

(** [n.clusterId = clusterMap[n.id]]: for a node that was given no cluster
    and is named after an inherited property, what [clusterMap] inherits. *)
Definition withCluster (clusterMap : gmap string nat) (n : NodeDatum) : NodeDatum :=
  {| id := id n; nodeType := nodeType n; label := label n; x := x n; y := y n;
     total := total n; txCount := txCount n;
     clusterId := JS.read clusterMap (id n);
     risk := risk n; tokens := tokens n |}.

(** The data [createNetworkVisualization] builds before it draws, for a
    container of the given size: the nodes with their cluster, the links, and
    the number of clusters it records with [setNumClusters].  The second
    argument is the filtered list the page passes. *)
Definition createNetworkVisualization {engine : Engine}
    (containerWidth containerHeight : float)
    (data : WalletData) (filteredTransactions : list Transaction)
  : Clusters.Outcome (list NodeDatum * list LinkDatum * nat) :=
  let width := mathMax containerWidth 400 in
  let height := mathMax containerHeight 600 in
  let main :=
    {| id := address data; nodeType := "main"; label := "SUSPECT";
       x := Some (width / 2)%float; y := Some (height / 2)%float;
       total := 0; txCount := 0; clusterId := JS.undefined;
       risk := riskLevel data; tokens := None |} in
  let relevantTransactions :=
    if decide (0 < length filteredTransactions) then filteredTransactions
    else transactions data in
  Clusters.andThen
    (foldl (λ acc tx, Clusters.andThen acc (λ acc, processTransaction (address data) acc tx))
           (Clusters.returns ([], [])) relevantTransactions)
    (λ '(counterpartyMap, links),
       let nodes := main :: (counterpartyNode <$> JSObject.entries counterpartyMap) in
       Clusters.andThen (Clusters.getClusters (asNode <$> nodes) (asLink <$> links))
         (λ r, Clusters.returns (withCluster (Clusters.clusterMapOf r) <$> nodes, links,
                                 Clusters.numClusters r))).

End Page.

(** ** Properties of the wallet graph *)

Module PageSpec.
Import JSFacts Page.

(** The transactions the graph is drawn from: the filtered list, or every
    transaction of the wallet when the filter leaves none. *)
Definition relevant (data : WalletData) (filteredTransactions : list Transaction)
  : list Transaction :=
  match filteredTransactions with
  | [] => transactions data
  | _ => filteredTransactions
  end.

(** The counterparty a transaction is drawn with: the first of its fields
    counterparty, from and to that is there and not empty, and "UNKNOWN" when
    none is. *)
Definition firstNamed (tx : Transaction) : string :=
  default "UNKNOWN"
          (head (filter (λ name : string, name ≠ "")
                        ([counterparty tx] ++ option_list (from tx)
                                           ++ option_list (to tx)))).

(** Those of them that give a link: the wallet itself is no counterparty. *)
Definition kept (address : string) (txs : list Transaction) : list Transaction :=
  filter (λ tx, firstNamed tx ≠ address) txs.

(** No counterparty drawn is named after a property that objects inherit. *)
Definition ordinaryCounterparties (address : string) (txs : list Transaction) : Prop :=
  ∀ tx, tx ∈ kept address txs → ¬ firstNamed tx ∈ JS.objectPrototype.

(** What one turn of the pass leaves when it makes or updates an entry. *)
Definition recorded (address : string)
    (acc : list (string * CounterpartyEntry) * list LinkDatum) (tx : Transaction)
  : list (string * CounterpartyEntry) * list LinkDatum :=
  let entry :=
    default {| entryTotal := 0; entryTxCount := 0; types := []; entryTokens := [] |}
            (JSObject.get acc.1 (firstNamed tx)) in
  (JSObject.set acc.1 (firstNamed tx)
     {| entryTotal := (entryTotal entry + amount tx)%float;
        entryTxCount := entryTxCount entry + 1;
        types := JS.setAdd (types entry) (typeName (type tx));
        entryTokens := JS.setAdd (entryTokens entry) (token tx) |},
   acc.2 ++ [ {| source := match type tx with
                           | incoming => firstNamed tx
                           | outgoing => address
                           end;
                 target := match type tx with
                           | incoming => address
                           | outgoing => firstNamed tx
                           end;
                 value := amount tx;
                 linkToken := token tx;
                 linkType := typeName (type tx);
                 linkTimestamp := timestamp tx;
                 linkHash := hash tx |} ]).

(** The pass over the transactions: [forEach] stops at the first turn that
    throws. *)
Definition pass (address : string) (txs : list Transaction)
  : Clusters.Outcome (list (string * CounterpartyEntry) * list LinkDatum) :=
  foldl (λ acc tx, Clusters.andThen acc (λ acc, processTransaction address acc tx))
        (Clusters.returns ([], [])) txs.

(** *** Objects *)

Lemma set_keys {V} (o : list (string * V)) k v :
  (JSObject.set o k v).*1 = if decide (k ∈ o.*1) then o.*1 else o.*1 ++ [k].
Proof.
  induction o as [|[k' v'] o IH]; cbn.
  - rewrite decide_False; [reflexivity|]. intros []%elem_of_nil.
  - destruct (decide (k' = k)) as [->|Hk]; cbn.
    + rewrite decide_True; [reflexivity|]. by left.
    + rewrite IH. destruct (decide (k ∈ o.*1)) as [Hin|Hin].
      * rewrite decide_True; [reflexivity|]. by right.
      * rewrite decide_False; [reflexivity|].
        intros [->|?]%elem_of_cons; contradiction.
Qed.

Lemma get_set {V} (o : list (string * V)) k v k' :
  JSObject.get (JSObject.set o k v) k'
  = if decide (k = k') then Some v else JSObject.get o k'.
Proof.
  induction o as [|[k0 v0] o IH]; cbn.
  - destruct (decide (k = k')); reflexivity.
  - destruct (decide (k0 = k)) as [->|Hk]; cbn.
    + destruct (decide (k = k')); reflexivity.
    + rewrite IH. destruct (decide (k0 = k')) as [->|?]; [|reflexivity].
      by rewrite decide_False.
Qed.

Lemma get_Some_key {V} (o : list (string * V)) k :
  is_Some (JSObject.get o k) ↔ k ∈ o.*1.
Proof.
  induction o as [|[k0 v0] o IH]; cbn.
  - split; [intros []%is_Some_None|intros []%elem_of_nil].
  - destruct (decide (k0 = k)) as [->|Hk].
    + split; [intros _; by left|eauto].
    + rewrite IH, elem_of_cons. naive_solver.
Qed.

Lemma insertByIndex_perm {A} (x : N * A) l : JSObject.insertByIndex x l ≡ₚ x :: l.
Proof.
  induction l as [|y l IH]; cbn; [reflexivity|].
  destruct (x.1 <=? y.1)%N; [reflexivity|]. rewrite IH. apply Permutation_swap.
Qed.

Lemma sortByIndex_perm {A} (l : list (N * A)) : JSObject.sortByIndex l ≡ₚ l.
Proof.
  unfold JSObject.sortByIndex. induction l as [|x l IH]; cbn; [reflexivity|].
  by rewrite insertByIndex_perm, IH.
Qed.

(** [Object.entries] lists every entry once. *)
Lemma entries_perm {V} (o : list (string * V)) : JSObject.entries o ≡ₚ o.
Proof.
  unfold JSObject.entries. cbv zeta. rewrite sortByIndex_perm.
  induction o as [|kv o IH]; [reflexivity|].
  cbn [omap list_omap]. destruct (JSObject.arrayIndex kv.1) as [n|] eqn:Hn; cbn [fmap option_fmap option_map].
  - rewrite filter_cons, decide_False by (cbn; rewrite Hn; discriminate).
    cbn. by rewrite IH.
  - rewrite filter_cons, decide_True by exact Hn.
    rewrite <- Permutation_middle. by rewrite IH.
Qed.

(** *** The pass over the transactions *)

(** The link drawn for a transaction: from the sender to the receiver. *)
Definition linkOf (address : string) (tx : Transaction) : LinkDatum :=
  {| source := match type tx with incoming => firstNamed tx | outgoing => address end;
     target := match type tx with incoming => address | outgoing => firstNamed tx end;
     value := amount tx;
     linkToken := token tx;
     linkType := typeName (type tx);
     linkTimestamp := timestamp tx;
     linkHash := hash tx |}.

(** What the table holds for a counterparty: the sum and the number of its
    transactions, and the sets of their directions and tokens. *)
Definition entryOf (c : string) (txs : list Transaction) : CounterpartyEntry :=
  let own := filter (λ tx, firstNamed tx = c) txs in
  {| entryTotal := foldl (λ sum tx, (sum + amount tx)%float) 0%float own;
     entryTxCount := length own;
     types := JS.setOf ((λ tx, typeName (type tx)) <$> own);
     entryTokens := JS.setOf (token <$> own) |}.

Lemma orElseStr_truthy s d :
  JS.truthyStr d = true → JS.truthyStr (JS.orElseStr s d) = true.
Proof.
  intros Hd. unfold JS.orElseStr. destruct s as [v|]; [|exact Hd].
  by destruct (JS.truthyStr v) eqn:Hv.
Qed.

Lemma truthyStr_true (s : string) : JS.truthyStr s = true ↔ s ≠ "".
Proof. destruct s; cbn; split; (done || discriminate). Qed.

(** [tx.counterparty || tx.from || tx.to || "UNKNOWN"] is the first of the
    three fields that is there and not empty. *)
Lemma counterpartyOf_firstNamed tx : counterpartyOf tx = firstNamed tx.
Proof.
  unfold counterpartyOf, firstNamed, JS.orElseStr.
  destruct (counterparty tx) as [|c cs], (from tx) as [[|f fs]|],
    (to tx) as [[|t ts]|]; reflexivity.
Qed.

(** The counterparty of a transaction is never the empty string. *)
Lemma firstNamed_truthy tx : JS.truthyStr (firstNamed tx) = true.
Proof.
  rewrite <- counterpartyOf_firstNamed.
  unfold counterpartyOf. destruct (JS.truthyStr (counterparty tx)) eqn:Hc; [exact Hc|].
  by do 2 apply orElseStr_truthy.
Qed.

(** One turn of the pass: nothing for the wallet itself, a throw for a
    counterparty named after an inherited property that the table does not
    own, an entry made or updated otherwise. *)
Lemma processTransaction_turn address acc tx :
  processTransaction address acc tx
  = if decide (firstNamed tx = address) then Clusters.returns acc
    else if decide (firstNamed tx ∈ JS.objectPrototype
                    ∧ JSObject.get acc.1 (firstNamed tx) = None)
         then Clusters.throws
         else Clusters.returns (recorded address acc tx).
Proof.
  destruct acc as [m ls]. unfold processTransaction, recorded.
  rewrite counterpartyOf_firstNamed, firstNamed_truthy. cbn [negb orb fst snd].
  case_bool_decide as Hself; [by rewrite decide_True|]. rewrite decide_False by done.
  unfold JSObject.read. destruct (JSObject.get m (firstNamed tx)) as [entry|] eqn:Hget.
  - rewrite decide_False by (by intros [_ ?]). reflexivity.
  - unfold JS.inherited. case_bool_decide as Hin.
    + rewrite decide_True by done. reflexivity.
    + rewrite decide_False by (by intros [? _]). reflexivity.
Qed.

Lemma pass_snoc address txs tx :
  pass address (txs ++ [tx])
  = Clusters.andThen (pass address txs) (λ acc, processTransaction address acc tx).
Proof. unfold pass. by rewrite foldl_app. Qed.

Lemma kept_snoc address txs tx :
  kept address (txs ++ [tx])
  = kept address txs ++ (if decide (firstNamed tx = address) then [] else [tx]).
Proof.
  unfold kept. rewrite filter_app. f_equal.
  rewrite filter_cons, filter_nil. by destruct (decide (firstNamed tx = address));
    [rewrite decide_False by tauto|rewrite decide_True].
Qed.

Lemma setOf_snoc l x : JS.setOf (l ++ [x]) = JS.setAdd (JS.setOf l) x.
Proof. unfold JS.setOf. by rewrite foldl_app. Qed.

Lemma entryOf_snoc c txs tx :
  entryOf c (txs ++ [tx])
  = if decide (firstNamed tx = c)
    then {| entryTotal := (entryTotal (entryOf c txs) + amount tx)%float;
            entryTxCount := entryTxCount (entryOf c txs) + 1;
            types := JS.setAdd (types (entryOf c txs)) (typeName (type tx));
            entryTokens := JS.setAdd (entryTokens (entryOf c txs)) (token tx) |}
    else entryOf c txs.
Proof.
  unfold entryOf. cbv zeta. rewrite filter_app, filter_cons, filter_nil.
  destruct (decide (firstNamed tx = c)) as [Hc|Hc].
  - rewrite !fmap_app, length_app, foldl_app. unfold JS.setOf.
    rewrite !foldl_app. reflexivity.
  - by rewrite app_nil_r.
Qed.

Lemma entryOf_absent c txs :
  ¬ c ∈ firstNamed <$> txs →
  entryOf c txs
  = {| entryTotal := 0; entryTxCount := 0; types := []; entryTokens := [] |}.
Proof.
  intros Hc. unfold entryOf. cbv zeta.
  replace (filter (λ tx, firstNamed tx = c) txs) with (@nil Transaction);
    [reflexivity|].
  symmetry. induction txs as [|tx txs IH]; [reflexivity|].
  rewrite filter_cons, decide_False.
  - apply IH. intros H. apply Hc. rewrite fmap_cons. by right.
  - intros H. apply Hc. rewrite fmap_cons, H. by left.
Qed.

(** The table and the links after a pass over ordinary counterparties. *)
Lemma pass_spec address txs :
  ordinaryCounterparties address txs →
  ∃ acc,
    pass address txs = Clusters.returns acc
    ∧ acc.2 = linkOf address <$> kept address txs
    ∧ acc.1.*1 = JS.setOf (firstNamed <$> kept address txs)
    ∧ (∀ c, c ≠ address →
         JSObject.get acc.1 c
         = if decide (c ∈ firstNamed <$> txs) then Some (entryOf c txs) else None).
Proof.
  induction txs as [|tx txs IH] using rev_ind; intros Hord.
  - exists ([], []). split_and!; [reflexivity..|]. intros c _.
    rewrite decide_False; [reflexivity|]. intros []%elem_of_nil.
  - destruct IH as ([m ls] & Hrun & Hls & Hkeys & Hget).
    { intros t Ht. apply Hord. rewrite kept_snoc. apply elem_of_app. by left. }
    cbn [fst snd] in Hls, Hkeys, Hget.
    rewrite pass_snoc, Hrun. cbn [Clusters.andThen].
    rewrite processTransaction_turn, kept_snoc.
    destruct (decide (firstNamed tx = address)) as [Hself|Hself].
    + exists (m, ls). rewrite app_nil_r. cbn [fst snd].
      split_and!; [reflexivity|exact Hls|exact Hkeys|].
      intros c Hc. rewrite Hget by exact Hc.
      rewrite entryOf_snoc.
      rewrite (decide_False (P := firstNamed tx = c)) by congruence.
      rewrite fmap_app. cbn [fmap list_fmap].
      destruct (decide (c ∈ firstNamed <$> txs)) as [Hin|Hin].
      * rewrite decide_True; [reflexivity|]. apply elem_of_app. by left.
      * rewrite decide_False; [reflexivity|].
        intros [?|Hc'%list_elem_of_singleton]%elem_of_app; [contradiction|congruence].
    + rewrite decide_False.
      2:{ intros [Hin _]. revert Hin. apply Hord. rewrite kept_snoc.
          rewrite decide_False by exact Hself. apply elem_of_app. right. by left. }
      exists (recorded address (m, ls) tx). unfold recorded. cbn [fst snd].
      split_and!; [reflexivity| | |].
      * rewrite fmap_app, Hls. reflexivity.
      * rewrite set_keys, Hkeys, fmap_app.
        change (firstNamed <$> [tx]) with [firstNamed tx].
        rewrite setOf_snoc. reflexivity.
      * intros c Hc. rewrite get_set, entryOf_snoc.
        rewrite fmap_app. cbn [fmap list_fmap].
        destruct (decide (firstNamed tx = c)) as [Heq|Hne].
        -- rewrite decide_True
             by (apply elem_of_app; right; apply list_elem_of_singleton; done).
           f_equal. rewrite Heq, Hget by exact Hc.
           destruct (decide (c ∈ firstNamed <$> txs)) as [Hin|Hin];
             [reflexivity|].
           cbn [default from_option id]. by rewrite entryOf_absent.
        -- rewrite Hget by exact Hc.
           destruct (decide (c ∈ firstNamed <$> txs)) as [Hin|Hin].
           ++ rewrite decide_True; [reflexivity|]. apply elem_of_app. by left.
           ++ rewrite decide_False; [reflexivity|].
              intros [?|Hc'%list_elem_of_singleton]%elem_of_app;
                [contradiction|congruence].
Qed.

(** The table never owns a key named after an inherited property: an entry
    is made only where the table reads [undefined]. *)
Lemma pass_keys address txs acc :
  pass address txs = Clusters.returns acc →
  ∀ c, c ∈ JS.objectPrototype → JSObject.get acc.1 c = None.
Proof.
  revert acc. induction txs as [|tx txs IH] using rev_ind; intros acc Hrun c Hc.
  - injection Hrun as <-. reflexivity.
  - rewrite pass_snoc in Hrun.
    destruct (pass address txs) as [acc0| |]; [|discriminate..].
    cbn [Clusters.andThen] in Hrun. rewrite processTransaction_turn in Hrun.
    specialize (IH acc0 eq_refl).
    destruct (decide (firstNamed tx = address)); [injection Hrun as <-; by apply IH|].
    destruct (decide (_ ∧ _)) as [|Hnot]; [discriminate|]. injection Hrun as <-.
    unfold recorded. cbn [fst]. rewrite get_set.
    destruct (decide (firstNamed tx = c)) as [Heq|Hne]; [|by apply IH].
    exfalso. apply Hnot. rewrite Heq. split; [exact Hc|by apply IH].
Qed.

Lemma pass_not_exhausted address txs : pass address txs ≠ Clusters.exhausted.
Proof.
  induction txs as [|tx txs IH] using rev_ind; [discriminate|].
  rewrite pass_snoc. destruct (pass address txs) as [acc| |]; [|discriminate|done].
  cbn [Clusters.andThen]. rewrite processTransaction_turn.
  repeat case_decide; discriminate.
Qed.

#[local] Instance ordinaryCounterparties_dec address txs :
  Decision (ordinaryCounterparties address txs).
Proof.
  refine (cast_if (decide (Forall (λ tx, ¬ firstNamed tx ∈ JS.objectPrototype)
                                  (kept address txs))));
    unfold ordinaryCounterparties; by rewrite <- Forall_forall.
Defined.

(** A counterparty named after an inherited property stops the pass. *)
Lemma pass_throws address txs :
  ¬ ordinaryCounterparties address txs → pass address txs = Clusters.throws.
Proof.
  induction txs as [|tx txs IH] using rev_ind; intros Hnot.
  - exfalso. apply Hnot. intros tx []%elem_of_nil.
  - rewrite pass_snoc.
    destruct (pass address txs) as [acc| |] eqn:Hrun; [|reflexivity|].
    + cbn [Clusters.andThen]. rewrite processTransaction_turn.
      destruct (decide (ordinaryCounterparties address txs)) as [Hord|Hord];
        [|by specialize (IH Hord)].
      destruct (decide (firstNamed tx = address)) as [Hself|Hself].
      { exfalso. apply Hnot. intros t. rewrite kept_snoc, decide_True by exact Hself.
        rewrite app_nil_r. apply Hord. }
      destruct (decide (firstNamed tx ∈ JS.objectPrototype)) as [Hin|Hout].
      * rewrite decide_True; [reflexivity|]. split; [exact Hin|].
        by apply (pass_keys address txs acc Hrun).
      * exfalso. apply Hnot. intros t. rewrite kept_snoc, decide_False by exact Hself.
        intros [Ht| ->%list_elem_of_singleton]%elem_of_app; [by apply Hord|exact Hout].
    + exfalso. by apply (pass_not_exhausted address txs).
Qed.

(** *** The graph *)

Lemma counterpartyNode_id e : id (counterpartyNode e) = e.1.
Proof. by destruct e. Qed.

Lemma entries_keys {V} (o : list (string * V)) c :
  c ∈ (JSObject.entries o).*1 ↔ c ∈ o.*1.
Proof. by rewrite (entries_perm o). Qed.

Lemma relevant_spec data (filteredTransactions : list Transaction) :
  (if decide (0 < length filteredTransactions) then filteredTransactions
   else transactions data)
  = relevant data filteredTransactions.
Proof.
  destruct filteredTransactions as [|tx txs]; cbn [length relevant].
  - by rewrite decide_False by lia.
  - by rewrite decide_True by lia.
Qed.

(** The graph built from the table and the links of a pass over ordinary
    ids is a star around the wallet, and [getClusters] finds one cluster in
    it. *)
Lemma star_clustered {engine : Engine} (main : NodeDatum) address txs acc :
  id main = address →
  ¬ address ∈ JS.objectPrototype →
  ordinaryCounterparties address txs →
  pass address txs = Clusters.returns acc →
  let nodes := main :: (counterpartyNode <$> JSObject.entries acc.1) in
  ClustersSpec.wellFormed (asNode <$> nodes) (asLink <$> acc.2)
  ∧ ∃ r, Clusters.getClusters (asNode <$> nodes) (asLink <$> acc.2) = Clusters.returns r
         ∧ Clusters.numClusters r = 1
         ∧ ∀ n, n ∈ nodes → Clusters.clusterMapOf r !! id n = Some 0.
Proof.
  intros Hmain Haddress Hord Hrun. cbv zeta.
  destruct (pass_spec address txs Hord) as (acc' & Hrun' & Hls & Hkeys & _).
  rewrite Hrun in Hrun'. injection Hrun' as <-.
  destruct acc as [m ls]. cbn [fst snd] in *.
  set (nodes := main :: (counterpartyNode <$> JSObject.entries m)).
  assert (Hids : ∀ c, c ∈ ClustersSpec.ids (asNode <$> nodes)
                      ↔ c = address ∨ c ∈ firstNamed <$> kept address txs).
  { intros c. unfold ClustersSpec.ids, nodes. rewrite fmap_cons, fmap_cons.
    rewrite elem_of_cons. cbn [asNode Clusters.id]. rewrite Hmain.
    rewrite <- !list_fmap_compose.
    rewrite (list_fmap_ext (Clusters.id ∘ asNode ∘ counterpartyNode) fst
               (JSObject.entries m) (λ _ e _, counterpartyNode_id e)).
    by rewrite entries_keys, Hkeys, setOf_elem. }
  assert (Hlinks : ∀ l, l ∈ asLink <$> ls →
            ∃ tx, tx ∈ kept address txs
                  ∧ ((Clusters.source l = address ∧ Clusters.target l = firstNamed tx)
                     ∨ (Clusters.source l = firstNamed tx ∧ Clusters.target l = address))).
  { intros l (l0 & -> & Hl0)%list_elem_of_fmap. rewrite Hls in Hl0.
    apply list_elem_of_fmap in Hl0 as (tx & -> & Htx). exists tx. split; [exact Htx|].
    cbn. destruct (type tx); auto. }
  assert (Hwf : ClustersSpec.wellFormed (asNode <$> nodes) (asLink <$> ls)).
  { intros l (tx & Htx & Hends)%Hlinks. rewrite !Hids.
    assert (firstNamed tx ∈ firstNamed <$> kept address txs)
      by (apply list_elem_of_fmap; eauto).
    destruct Hends as [[-> ->]|[-> ->]]; auto. }
  assert (Hnodes : ClustersSpec.ordinaryNodes (asNode <$> nodes)).
  { intros c [->|(tx & -> & Htx)%list_elem_of_fmap]%Hids; [exact Haddress|].
    by apply Hord. }
  split; [exact Hwf|].
  destruct (ClustersSpec.getClusters_objects_clustered _ _ Hwf Hnodes)
    as (r & leaders & Hrun' & Hdom & Hsame & _ & Hleaders & Hnum & Hlead).
  exists r. split; [exact Hrun'|].
  assert (Hfirst : leaders !! 0 = Some address).
  { unfold ClustersSpec.ids, nodes in Hleaders. rewrite !fmap_cons in Hleaders.
    apply ClustersExtra.leadersFrom_head in Hleaders.
    cbn [asNode Clusters.id] in Hleaders. by rewrite Hmain in Hleaders. }
  assert (Hzero : ∀ c, c ∈ ClustersSpec.ids (asNode <$> nodes) →
                       Clusters.clusterMapOf r !! c = Some 0).
  { intros c Hc. pose proof (Hlead 0 address Hfirst) as Haddr.
    destruct (proj2 (Hdom c) Hc) as [j Hj]. rewrite Hj. f_equal. symmetry.
    apply (Hsame address c 0 j Haddr Hj).
    apply Hids in Hc as [->|(tx & -> & Htx)%list_elem_of_fmap]; [reflexivity|].
    apply rtc_once. exists (asLink (linkOf address tx)). split.
    - apply list_elem_of_fmap. exists (linkOf address tx). split; [reflexivity|].
      rewrite Hls. apply list_elem_of_fmap. eauto.
    - cbn. destruct (type tx); auto. }
  split.
  - rewrite Hnum.
    assert (Honly : ∀ i l, leaders !! i = Some l → i = 0).
    { intros i l Hl. pose proof (Hlead i l Hl) as Hi.
      rewrite Hzero in Hi; [congruence|].
      apply (ClustersSpec.leadersFrom_todo _ _ _ _ _ Hleaders).
      by eapply list_elem_of_lookup_2. }
    destruct leaders as [|a [|b rest]]; [discriminate|reflexivity|].
    by pose proof (Honly 1 b eq_refl).
  - intros n Hn. apply Hzero. unfold ClustersSpec.ids.
    rewrite <- list_fmap_compose. apply list_elem_of_fmap. exists n. done.
Qed.

Lemma createNetworkVisualization_pass {engine : Engine}
    (containerWidth containerHeight : float)
    (data : WalletData) (filteredTransactions : list Transaction) :
  ∃ main,
    id main = address data ∧ nodeType main = "main"
    ∧ createNetworkVisualization containerWidth containerHeight data filteredTransactions
      = Clusters.andThen (pass (address data) (relevant data filteredTransactions))
          (λ acc,
             let nodes := main :: (counterpartyNode <$> JSObject.entries acc.1) in
             Clusters.andThen
               (Clusters.getClusters (asNode <$> nodes) (asLink <$> acc.2))
               (λ r, Clusters.returns
                       (withCluster (Clusters.clusterMapOf r) <$> nodes, acc.2,
                        Clusters.numClusters r))).
Proof.
  eexists {| id := address data; nodeType := "main" |}.
  split; [reflexivity|]. split; [reflexivity|].
  unfold createNetworkVisualization. cbv zeta. rewrite relevant_spec.
  fold (pass (address data) (relevant data filteredTransactions)).
  by destruct (pass _ _) as [[m ls]| |].
Qed.

Lemma read_own (m : gmap string nat) k v : m !! k = Some v → JS.read m k = JS.ownValue v.
Proof. unfold JS.read. by intros ->. Qed.

(** X13. When neither the wallet nor any counterparty drawn is named after a
    property that objects inherit ("constructor", "toString", "__proto__",
    ...), the graph the page draws is a star around the wallet: every link
    joins the wallet and a counterparty node, so [getClusters] does not throw
    on it, finds exactly one cluster, and every node is given the cluster 0,
    whatever the transactions and the filter.  When a counterparty drawn is
    so named, no graph is built: the pass over the transactions throws. *)
Theorem graph_is_one_cluster {engine : Engine} (containerWidth containerHeight : float)
    (data : WalletData) (filteredTransactions : list Transaction) :
  let txs := relevant data filteredTransactions in
  (¬ address data ∈ JS.objectPrototype →
   (∀ tx, tx ∈ txs → firstNamed tx ≠ address data →
          ¬ firstNamed tx ∈ JS.objectPrototype) →
   ∃ nodes links,
     createNetworkVisualization containerWidth containerHeight data filteredTransactions
     = Clusters.returns (nodes, links, 1)
     ∧ (∀ n, n ∈ nodes → clusterId n = JS.ownValue 0)
     ∧ (∀ l, l ∈ links →
          (source l = address data ∧ target l ∈ id <$> nodes ∧ target l ≠ address data)
          ∨ (target l = address data ∧ source l ∈ id <$> nodes
             ∧ source l ≠ address data)))
  ∧ ((∃ tx, tx ∈ txs ∧ firstNamed tx ≠ address data
            ∧ firstNamed tx ∈ JS.objectPrototype) →
     createNetworkVisualization containerWidth containerHeight data filteredTransactions
     = Clusters.throws).
Proof.
  cbv zeta. set (txs := relevant data filteredTransactions).
  destruct (createNetworkVisualization_pass containerWidth containerHeight data
              filteredTransactions) as (main & Hmain & _ & ->).
  fold txs. split.
  - intros Haddress Hall.
    assert (Hord : ordinaryCounterparties (address data) txs).
    { intros tx [Hne Htx]%list_elem_of_filter. by apply Hall. }
    destruct (pass_spec (address data) txs Hord) as ([m ls] & Hrun & Hls & Hkeys & _).
    destruct (star_clustered main (address data) txs (m, ls) Hmain Haddress Hord Hrun)
      as (Hwf & r & Hclusters & Hnum & Hzero).
    cbn [fst snd] in *. rewrite Hrun. cbn [Clusters.andThen fst snd]. cbv zeta.
    rewrite Hclusters. cbn [Clusters.andThen]. rewrite Hnum.
    eexists _, _. split; [reflexivity|]. split.
    + intros n (n0 & -> & Hn0)%list_elem_of_fmap. cbn [withCluster clusterId].
      by apply read_own, Hzero.
    + intros l Hl. rewrite Hls in Hl.
      apply list_elem_of_fmap in Hl as (tx & -> & Htx).
      assert (Hnode : firstNamed tx
                      ∈ id <$> (withCluster (Clusters.clusterMapOf r)
                                <$> main :: (counterpartyNode <$> JSObject.entries m))).
      { rewrite <- list_fmap_compose, fmap_cons. right.
        rewrite <- list_fmap_compose.
        rewrite (list_fmap_ext (id ∘ withCluster (Clusters.clusterMapOf r) ∘ counterpartyNode)
                   fst (JSObject.entries m) (λ _ e _, counterpartyNode_id e)).
        rewrite entries_keys, Hkeys, setOf_elem. apply list_elem_of_fmap. eauto. }
      apply list_elem_of_filter in Htx as [Hne _].
      cbn [linkOf source target]. destruct (type tx); auto.
  - intros (tx & Htx & Hne & Hin).
    rewrite pass_throws; [reflexivity|].
    intros Hord. apply (Hord tx); [|exact Hin]. by apply list_elem_of_filter.
Qed.

Lemma get_elem {V} (o : list (string * V)) k v :
  NoDup o.*1 → (k, v) ∈ o → JSObject.get o k = Some v.
Proof.
  induction o as [|[k0 v0] o IH]; intros Hnd Hin; [by apply elem_of_nil in Hin|].
  rewrite fmap_cons in Hnd. apply NoDup_cons in Hnd as [Hk0 Hnd]. cbn.
  apply elem_of_cons in Hin as [[= -> ->]|Hin].
  - by rewrite decide_True.
  - rewrite decide_False; [by apply IH|].
    intros ->. apply Hk0. apply list_elem_of_fmap. by exists (k, v).
Qed.

(** The set [types] of an entry has two members exactly when the counterparty
    has transactions in both directions. *)
Lemma types_both (own : list Transaction) :
  1 < length (JS.setOf ((λ tx, typeName (type tx)) <$> own))
  ↔ (∃ tx, tx ∈ own ∧ type tx = incoming) ∧ (∃ tx, tx ∈ own ∧ type tx = outgoing).
Proof.
  set (names := JS.setOf ((λ tx, typeName (type tx)) <$> own)).
  assert (Hnames : ∀ ty, typeName ty ∈ names ↔ ∃ tx, tx ∈ own ∧ type tx = ty).
  { intros ty. unfold names. rewrite setOf_elem, list_elem_of_fmap. split.
    - intros (tx & Hty & Htx). exists tx. split; [exact Htx|].
      by destruct (type tx), ty.
    - intros (tx & Htx & <-). eauto. }
  assert (Hall : ∀ name, name ∈ names → name = "incoming" ∨ name = "outgoing").
  { intros name. unfold names. rewrite setOf_elem, list_elem_of_fmap.
    intros (tx & -> & _). destruct (type tx); auto. }
  pose proof (setOf_NoDup ((λ tx, typeName (type tx)) <$> own)) as Hnd.
  fold names in Hnd. rewrite <- (Hnames incoming), <- (Hnames outgoing).
  cbn [typeName]. split.
  - intros Hlen. destruct names as [|a [|b rest]]; cbn in Hlen; [lia..|].
    apply NoDup_cons in Hnd as [Hab _].
    assert (Ha := Hall a ltac:(left)).
    assert (Hb := Hall b ltac:(right; left)).
    destruct Ha as [-> | ->], Hb as [-> | ->].
    + exfalso. apply Hab. by left.
    + split; [by left|right; by left].
    + split; [right; by left|by left].
    + exfalso. apply Hab. by left.
  - intros [Hin Hout]. destruct names as [|a [|b rest]]; cbn; [| |lia].
    + by apply elem_of_nil in Hin.
    + apply list_elem_of_singleton in Hin, Hout. congruence.
Qed.

Lemma counterpartyNode_suspicious c (e : CounterpartyEntry) :
  let node := counterpartyNode (c, e) in
  (nodeType node = "suspicious"
   ↔ 10 < entryTxCount e ∨ JS.gt (entryTotal e) 1000 = true ∨ 1 < length (types e))
  ∧ (risk node = high ↔ nodeType node = "suspicious").
Proof.
  cbn.
  assert (Hflag : bool_decide (10 < entryTxCount e) || JS.gt (entryTotal e) 1000
                  || bool_decide (1 < length (types e)) = true
                  ↔ 10 < entryTxCount e ∨ JS.gt (entryTotal e) 1000 = true
                    ∨ 1 < length (types e)).
  { rewrite !orb_true_iff, !bool_decide_eq_true. tauto. }
  destruct (_ || _ || _).
  - split; [|done]. split; [intros _; by apply Hflag|done].
  - split; [|done]. split; [done|]. intros H. apply Hflag in H. discriminate.
Qed.

(** X14. What the graph holds, when neither the wallet nor any counterparty
    drawn is named after a property that objects inherit.  The counterparty a
    transaction is drawn with is the first of its fields counterparty, from
    and to that is there and not empty, and "UNKNOWN" when none is.  The first
    node is the wallet; the others are one node for each distinct counterparty
    of the transactions drawn, the wallet itself left out, each with the
    number and the sum of the transactions of that counterparty and the set of
    their tokens, and marked suspicious (and of high risk) exactly when it has
    more than 10 transactions, a sum above 1000, or transactions in both
    directions; and there is one link for each transaction whose counterparty
    is not the wallet, in the order of the transactions, from the sender to
    the receiver.  The transactions drawn are the filtered ones, or all of
    them when the filter leaves none. *)
Theorem graph_content {engine : Engine} (containerWidth containerHeight : float)
    (data : WalletData) (filteredTransactions : list Transaction) :
  let txs := relevant data filteredTransactions in
  let own := λ node, filter (λ tx, firstNamed tx = id node) txs in
  ¬ address data ∈ JS.objectPrototype →
  (∀ tx, tx ∈ txs → firstNamed tx ≠ address data →
         ¬ firstNamed tx ∈ JS.objectPrototype) →
  ∃ main rest links n,
    createNetworkVisualization containerWidth containerHeight data filteredTransactions
    = Clusters.returns (main :: rest, links, n)
    ∧ id main = address data
    ∧ nodeType main = "main"
    ∧ id <$> rest ≡ₚ JS.setOf (firstNamed <$> kept (address data) txs)
    ∧ (∀ node, node ∈ rest →
         txCount node = length (own node)
         ∧ total node = foldl (λ sum tx, (sum + amount tx)%float) 0%float (own node)
         ∧ tokens node = Some (JS.setOf (token <$> own node))
         ∧ (nodeType node = "suspicious"
            ↔ 10 < txCount node ∨ (1000 <? total node)%float = true
              ∨ ((∃ tx, tx ∈ own node ∧ type tx = incoming)
                 ∧ (∃ tx, tx ∈ own node ∧ type tx = outgoing)))
         ∧ (risk node = high ↔ nodeType node = "suspicious"))
    ∧ links = linkOf (address data) <$> kept (address data) txs.
Proof.
  cbv zeta. set (txs := relevant data filteredTransactions).
  intros Haddress Hall.
  destruct (createNetworkVisualization_pass containerWidth containerHeight data
              filteredTransactions) as (main & Hmain & Hkind & ->).
  fold txs.
  assert (Hord : ordinaryCounterparties (address data) txs).
  { intros tx [Hne Htx]%list_elem_of_filter. by apply Hall. }
  destruct (pass_spec (address data) txs Hord) as ([m ls] & Hrun & Hls & Hkeys & Hget).
  destruct (star_clustered main (address data) txs (m, ls) Hmain Haddress Hord Hrun)
    as (_ & r & Hclusters & _ & _).
  cbn [fst snd] in *. rewrite Hrun. cbn [Clusters.andThen fst snd]. cbv zeta.
  rewrite Hclusters. cbn [Clusters.andThen]. rewrite fmap_cons.
  eexists _, _, _, _. split; [reflexivity|].
  assert (Hid : id <$> (withCluster (Clusters.clusterMapOf r)
                        <$> (counterpartyNode <$> JSObject.entries m))
                = (JSObject.entries m).*1).
  { rewrite <- !list_fmap_compose.
    apply (list_fmap_ext _ fst (JSObject.entries m) (λ _ e _, counterpartyNode_id e)). }
  split_and!; [exact Hmain|exact Hkind| | |exact Hls].
  - by rewrite Hid, (entries_perm m), Hkeys.
  - intros node (n0 & -> & ([c e] & -> & He)%list_elem_of_fmap)%list_elem_of_fmap.
    rewrite (entries_perm m) in He.
    assert (Hc : c ∈ firstNamed <$> kept (address data) txs).
    { rewrite <- setOf_elem, <- Hkeys. apply list_elem_of_fmap. by exists (c, e). }
    apply list_elem_of_fmap in Hc as (tx & -> & [Hne Htx]%list_elem_of_filter).
    assert (Hentry : e = entryOf (firstNamed tx) txs).
    { apply (get_elem m) in He; [|rewrite Hkeys; apply setOf_NoDup].
      rewrite Hget in He by exact Hne.
      rewrite decide_True in He by (apply list_elem_of_fmap; eauto). congruence. }
    rewrite Hentry.
    destruct (counterpartyNode_suspicious (firstNamed tx)
                (entryOf (firstNamed tx) txs)) as [Hsusp Hrisk].
    cbv zeta in Hsusp, Hrisk.
    split_and!; [reflexivity..| |exact Hrisk].
    etransitivity; [exact Hsusp|]. cbn [entryOf entryTxCount entryTotal types].
    by rewrite types_both.
Qed.

(** A wallet that received from "0xfeed" and sent to it, and, for the second
    part, another that received from "constructor". *)
Definition tradingWallet : WalletData :=
  {| address := "0xabc";
     transactions := [ RiskFactorsSpec.namedTx "0xfeed";
                       RiskFactorsSpec.busyTx outgoing ];
     tokenBalances := [];
     metrics := {| totalTransactions := 2; totalGasSpent := "0";
                   uniqueCounterparties := 1; activeDays := 1;
                   contractsInteracted := 1 |};
     riskScore := 0; riskLevel := low; contractsInteractedList := [];
     riskBreakdown := None |}.

Lemma tradingWallet_ordinary :
  ¬ address tradingWallet ∈ JS.objectPrototype
  ∧ ∀ tx, tx ∈ relevant tradingWallet [] → firstNamed tx ≠ address tradingWallet →
          ¬ firstNamed tx ∈ JS.objectPrototype.
Proof.
  split; [apply (bool_decide_unpack _); by vm_compute|].
  intros tx Htx _. revert tx Htx. apply Forall_forall.
  repeat apply Forall_cons_2; [..|apply Forall_nil_2];
    apply (bool_decide_unpack _); by vm_compute.
Qed.

Lemma graph_is_one_cluster_witness :
  ∃ nodes links,
    createNetworkVisualization (engine := referenceEngine) 800 600 tradingWallet []
    = Clusters.returns (nodes, links, 1)
    ∧ ∀ n, n ∈ nodes → clusterId n = JS.ownValue 0.
Proof.
  destruct tradingWallet_ordinary as [Haddress Hall].
  destruct (proj1 (graph_is_one_cluster (engine := referenceEngine) 800 600
                     tradingWallet []) Haddress Hall)
    as (nodes & links & Hrun & Hzero & _).
  exists nodes, links. split; [exact Hrun|exact Hzero].
Defined.

Lemma graph_content_witness :
  ∃ main rest links n,
    createNetworkVisualization (engine := referenceEngine) 800 600 tradingWallet []
    = Clusters.returns (main :: rest, links, n)
    ∧ id main = address tradingWallet
    ∧ length links = 2.
Proof.
  destruct tradingWallet_ordinary as [Haddress Hall].
  destruct (graph_content (engine := referenceEngine) 800 600 tradingWallet []
              Haddress Hall)
    as (main & rest & links & n & Hrun & Hmain & _ & _ & _ & Hlinks).
  exists main, rest, links, n. split; [exact Hrun|]. split; [exact Hmain|].
  rewrite Hlinks. reflexivity.
Defined.

(** The wallet of [RiskFactorsSpec.namedWallet], its one transfer received
    from "constructor": no graph is built. *)
Example named_counterparty_graph {engine : Engine} :
  createNetworkVisualization 800 600 (RiskFactorsSpec.namedWallet "constructor") []
  = Clusters.throws.
Proof. by vm_compute. Qed.

End PageSpec.
